(** * LiDAR-based anomaly detector: geometry, DBSCAN and the LVX scanner

    A shallow embedding of the object-characterisation core of the
    repository:
    - [models/Point.hh]  : points, vectors, near-equality, angles;
    - [models/BBox.hh]   : bounding boxes built from a point vector;
    - [models/Octree.hh] : the spatial index (absent from the sources at
      hand, modelled from the specification);
    - [object_characterization/DBScan.cc] : spatial and normal-coherent
      DBSCAN;
    - [scanner/ScannerLVX.cc] : the LVX file scanner;
    - [app/CLICommand.hh] : the parser of the command line;
    - [object_characterization/ObjectCharacterizer.hh] and
      [ObjectCharacterizator.hh] : the construction of the characterisers.

    Numbers.  A C++ [double] is modelled by an exact rational ([Q]):
    comparisons, minima and maxima are the ones of the code, rounding is not
    modelled.  Where the code takes a square root or an arc cosine the value
    is a real number ([R]) computed from the rational coordinates. *)

From Stdlib Require Import QArith Qabs Qround Qreals Reals Psatz ZArith Lia List.
From Stdlib Require Ascii String.
From stdpp Require Import base list.

Local Open Scope Q_scope.
Local Set Warnings "-register-all".

(** ** models/Point.hh *)

(** [enum PointCluster]. *)
Definition cUnclassified : Z := (-1)%Z.
Definition cCorePoint : Z := (-2)%Z.
Definition cBorderPoint : Z := (-3)%Z.
Definition cNoise : Z := (-4)%Z.

(** [class Point]: three coordinates and the cluster tag [cID]. *)
Record Point : Type := mkPoint {
  getX : Q;
  getY : Q;
  getZ : Q;
  getClusterID : Z
}.

(** [Point()] and [Point(x, y, z)]: the tag defaults to [cUnclassified]. *)
Definition Point0 : Point := mkPoint 0 0 0 cUnclassified.
Definition Point3 (x y z : Q) : Point := mkPoint x y z cUnclassified.

(** [typedef Point Vector]. *)
Definition Vector : Type := Point.

Definition setX (v : Q) (p : Point) : Point :=
  mkPoint v (getY p) (getZ p) (getClusterID p).
Definition setY (v : Q) (p : Point) : Point :=
  mkPoint (getX p) v (getZ p) (getClusterID p).
Definition setZ (v : Q) (p : Point) : Point :=
  mkPoint (getX p) (getY p) v (getClusterID p).
Definition setClusterID (c : Z) (p : Point) : Point :=
  mkPoint (getX p) (getY p) (getZ p) c.

(** [std::numeric_limits<double>::epsilon()], that is 2^-52. *)
Definition epsilon : Q := 1 # (2 ^ 52).

(** [Point::operator==]. *)
Definition Point_eqb (p q : Point) : bool :=
  Qle_bool (Qabs (getX p - getX q)) epsilon
  && Qle_bool (Qabs (getY p - getY q)) epsilon
  && Qle_bool (Qabs (getZ p - getZ q)) epsilon.

(** [Point::operator!=]. *)
Definition Point_neqb (p q : Point) : bool := negb (Point_eqb p q).

(** [Point::operator-(const Point &)]: a fresh point, tag [cUnclassified]. *)
Definition Point_sub (p q : Point) : Point :=
  Point3 (getX p - getX q) (getY p - getY q) (getZ p - getZ q).

(** [Point::scalarProduct]. *)
Definition scalarProduct (u v : Vector) : Q :=
  getX u * getX v + getY u * getY v + getZ u * getZ v.

(** The three coordinates of a point, without its tag. *)
Definition coords (p : Point) : Q * Q * Q := (getX p, getY p, getZ p).

(** ** models/BBox.hh *)

Record BBox : Type := mkBBox {
  getDelta : Vector;
  getMin : Point;
  getMax : Point
}.

(** One turn of the loop of [BBox(const std::vector<Point> &)] on the point
    [p]: per axis, [min] is lowered when it is above [p], otherwise [max] is
    raised when it is below [p]. *)
Definition BBox_grow (mm : Point * Point) (p : Point) : Point * Point :=
  let '(mn, mx) := mm in
  let '(mn, mx) :=
    if Qlt_le_dec (getX p) (getX mn) then (setX (getX p) mn, mx)
    else if Qlt_le_dec (getX mx) (getX p) then (mn, setX (getX p) mx)
    else (mn, mx) in
  let '(mn, mx) :=
    if Qlt_le_dec (getY p) (getY mn) then (setY (getY p) mn, mx)
    else if Qlt_le_dec (getY mx) (getY p) then (mn, setY (getY p) mx)
    else (mn, mx) in
  if Qlt_le_dec (getZ p) (getZ mn) then (setZ (getZ p) mn, mx)
  else if Qlt_le_dec (getZ mx) (getZ p) then (mn, setZ (getZ p) mx)
  else (mn, mx).

(** [BBox(const std::vector<Point> &points)].  For an empty vector the three
    members keep their default construction [Point()]. *)
Definition BBox_of_points (points : list Point) : BBox :=
  match points with
  | [] => mkBBox Point0 Point0 Point0
  | p0 :: rest =>
      let '(mn, mx) := fold_left BBox_grow rest (p0, p0) in
      mkBBox (Point_sub mx mn) mn mx
  end.

(** [BBox::volume]. *)
Definition volume (b : BBox) : Q :=
  getX (getDelta b) * getY (getDelta b) * getZ (getDelta b).

(** [m] is the least (greatest) value of the coordinate [f] over [pts]. *)
Definition is_min (f : Point -> Q) (pts : list Point) (m : Q) : Prop :=
  (exists p, p ∈ pts /\ f p = m) /\ forall p, p ∈ pts -> m <= f p.
Definition is_max (f : Point -> Q) (pts : list Point) (m : Q) : Prop :=
  (exists p, p ∈ pts /\ f p = m) /\ forall p, p ∈ pts -> f p <= m.

(** The loop invariant of the constructor: [mn] and [mx] hold the extreme
    coordinates of the points seen so far. *)
Definition BBox_bounds (seen : list Point) (mm : Point * Point) : Prop :=
  is_min getX seen (getX (fst mm)) /\ is_max getX seen (getX (snd mm)) /\
  is_min getY seen (getY (fst mm)) /\ is_max getY seen (getY (snd mm)) /\
  is_min getZ seen (getZ (fst mm)) /\ is_max getZ seen (getZ (snd mm)).

Lemma is_min_snoc f seen m p :
  is_min f seen m -> f p < m -> is_min f (seen ++ [p]) (f p).
Proof.
  intros [_ Hle] Hlt. split.
  - exists p. split; [apply elem_of_app; right; apply list_elem_of_singleton; reflexivity | reflexivity].
  - intros q Hq. apply elem_of_app in Hq as [Hq | Hq].
    + specialize (Hle q Hq). lra.
    + apply list_elem_of_singleton in Hq. subst q. lra.
Qed.

Lemma is_min_keep f seen m p :
  is_min f seen m -> m <= f p -> is_min f (seen ++ [p]) m.
Proof.
  intros [(q & Hq & Hm) Hle] Hp. split.
  - exists q. split; [apply elem_of_app; left; assumption | assumption].
  - intros q' Hq'. apply elem_of_app in Hq' as [Hq' | Hq'].
    + auto.
    + apply list_elem_of_singleton in Hq'. subst q'. assumption.
Qed.

Lemma is_max_snoc f seen m p :
  is_max f seen m -> m < f p -> is_max f (seen ++ [p]) (f p).
Proof.
  intros [_ Hle] Hlt. split.
  - exists p. split; [apply elem_of_app; right; apply list_elem_of_singleton; reflexivity | reflexivity].
  - intros q Hq. apply elem_of_app in Hq as [Hq | Hq].
    + specialize (Hle q Hq). lra.
    + apply list_elem_of_singleton in Hq. subst q. lra.
Qed.

Lemma is_max_keep f seen m p :
  is_max f seen m -> f p <= m -> is_max f (seen ++ [p]) m.
Proof.
  intros [(q & Hq & Hm) Hle] Hp. split.
  - exists q. split; [apply elem_of_app; left; assumption | assumption].
  - intros q' Hq'. apply elem_of_app in Hq' as [Hq' | Hq'].
    + auto.
    + apply list_elem_of_singleton in Hq'. subst q'. assumption.
Qed.

Lemma is_min_le_max f seen lo hi :
  seen <> [] -> is_min f seen lo -> is_max f seen hi -> lo <= hi.
Proof.
  intros Hne [_ Hlo] [_ Hhi]. destruct seen as [|p seen]; [done|].
  assert (Hp : p ∈ p :: seen) by apply list_elem_of_here.
  specialize (Hlo p Hp). specialize (Hhi p Hp). lra.
Qed.

(** One axis of [BBox_grow]: whichever branch is taken, the pair of extremes
    is again the pair of extremes once [p] is added. *)
Lemma grow_axis f seen lo hi p :
  seen <> [] -> is_min f seen lo -> is_max f seen hi ->
  (f p < lo -> is_min f (seen ++ [p]) (f p) /\ is_max f (seen ++ [p]) hi) /\
  (lo <= f p -> hi < f p ->
     is_min f (seen ++ [p]) lo /\ is_max f (seen ++ [p]) (f p)) /\
  (lo <= f p -> f p <= hi ->
     is_min f (seen ++ [p]) lo /\ is_max f (seen ++ [p]) hi).
Proof.
  intros Hne Hlo Hhi.
  pose proof (is_min_le_max f seen lo hi Hne Hlo Hhi) as Hlh.
  split; [|split]; intros; (split;
    first [ eapply (is_min_snoc f); [eassumption|] | apply (is_min_keep f)
          | eapply (is_max_snoc f); [eassumption|] | apply (is_max_keep f) ];
    try assumption; lra).
Qed.

Lemma BBox_grow_bounds seen mm p :
  seen <> [] -> BBox_bounds seen mm -> BBox_bounds (seen ++ [p]) (BBox_grow mm p).
Proof.
  intros Hne (Hx1 & Hx2 & Hy1 & Hy2 & Hz1 & Hz2). destruct mm as [mn mx].
  simpl in *.
  destruct (grow_axis getX seen _ _ p Hne Hx1 Hx2) as (Xa & Xb & Xc).
  destruct (grow_axis getY seen _ _ p Hne Hy1 Hy2) as (Ya & Yb & Yc).
  destruct (grow_axis getZ seen _ _ p Hne Hz1 Hz2) as (Za & Zb & Zc).
  unfold BBox_grow, BBox_bounds.
  destruct (Qlt_le_dec (getX p) (getX mn)) as [X1 | X1];
    [ | destruct (Qlt_le_dec (getX mx) (getX p)) as [X2 | X2] ];
  (destruct (Qlt_le_dec (getY p) (getY _)) as [Y1 | Y1];
    [ | destruct (Qlt_le_dec (getY _) (getY p)) as [Y2 | Y2] ]);
  (destruct (Qlt_le_dec (getZ p) (getZ _)) as [Z1 | Z1];
    [ | destruct (Qlt_le_dec (getZ _) (getZ p)) as [Z2 | Z2] ]);
  simpl in *;
  try (destruct (Xa X1) as [? ?]); try (destruct (Xb X1 X2) as [? ?]);
  try (destruct (Xc X1 X2) as [? ?]);
  try (destruct (Ya Y1) as [? ?]); try (destruct (Yb Y1 Y2) as [? ?]);
  try (destruct (Yc Y1 Y2) as [? ?]);
  try (destruct (Za Z1) as [? ?]); try (destruct (Zb Z1 Z2) as [? ?]);
  try (destruct (Zc Z1 Z2) as [? ?]);
  repeat match goal with |- _ /\ _ => split end; assumption.
Qed.

Lemma BBox_fold_bounds rest : forall seen mm,
  seen <> [] -> BBox_bounds seen mm ->
  BBox_bounds (seen ++ rest) (fold_left BBox_grow rest mm).
Proof.
  induction rest as [|p rest IH]; intros seen mm Hne Hb; simpl.
  - rewrite app_nil_r. assumption.
  - replace (seen ++ p :: rest) with ((seen ++ [p]) ++ rest)
      by (rewrite <- app_assoc; reflexivity).
    apply IH.
    + destruct seen; discriminate.
    + apply BBox_grow_bounds; assumption.
Qed.

(** The corners of the box of a non-empty vector are the extremes of its
    points, and the cached delta is their difference. *)
Lemma BBox_of_points_bounds (points : list Point) :
  points <> [] ->
  BBox_bounds points (getMin (BBox_of_points points), getMax (BBox_of_points points)) /\
  getDelta (BBox_of_points points)
  = Point_sub (getMax (BBox_of_points points)) (getMin (BBox_of_points points)).
Proof.
  destruct points as [|p0 rest]; [intros H; destruct H; reflexivity | intros _].
  assert (Hb : BBox_bounds ([p0] ++ rest) (fold_left BBox_grow rest (p0, p0))).
  { apply BBox_fold_bounds; [discriminate|].
    unfold BBox_bounds, is_min, is_max; simpl.
    repeat split; try (exists p0; split; [apply list_elem_of_here | reflexivity]);
      intros q Hq; apply list_elem_of_singleton in Hq; subst q; lra. }
  simpl in *. destruct (fold_left BBox_grow rest (p0, p0)) as [mn mx].
  split; [exact Hb | reflexivity].
Qed.

(** C8: for every vector of points, the box built from it has the
    component-wise minimum in [getMin], the component-wise maximum in
    [getMax] and [getDelta = getMax - getMin]; for the empty vector the three
    are (0,0,0) and the volume is 0. *)
Theorem BBox_of_points_spec (points : list Point) :
  let b := BBox_of_points points in
  (points = [] ->
     coords (getMin b) = (0, 0, 0) /\ coords (getMax b) = (0, 0, 0) /\
     coords (getDelta b) = (0, 0, 0) /\ volume b = 0) /\
  (points <> [] ->
     is_min getX points (getX (getMin b)) /\ is_max getX points (getX (getMax b)) /\
     is_min getY points (getY (getMin b)) /\ is_max getY points (getY (getMax b)) /\
     is_min getZ points (getZ (getMin b)) /\ is_max getZ points (getZ (getMax b))) /\
  coords (getDelta b) =
    (getX (getMax b) - getX (getMin b),
     getY (getMax b) - getY (getMin b),
     getZ (getMax b) - getZ (getMin b)).
Proof.
  destruct points as [|p0 rest]; simpl.
  - split; [intros _; repeat split | split; [intros Hne; destruct Hne |]]; reflexivity.
  - destruct (BBox_of_points_bounds (p0 :: rest)) as [Hb Hd]; [discriminate|].
    split; [discriminate|]. split; [intros _; exact Hb|].
    simpl in Hd |- *. rewrite Hd. reflexivity.
Qed.

(** C9: [p == q] holds exactly when each of the three coordinate differences
    is at most the machine epsilon in absolute value, whatever the cluster
    tags of the two points; [p != q] is its negation. *)
Theorem Point_eqb_spec (p q : Point) :
  (Point_eqb p q = true <->
     Qabs (getX p - getX q) <= epsilon /\
     Qabs (getY p - getY q) <= epsilon /\
     Qabs (getZ p - getZ q) <= epsilon) /\
  (forall c d : Z, Point_eqb (setClusterID c p) (setClusterID d q) = Point_eqb p q) /\
  Point_neqb p q = negb (Point_eqb p q).
Proof.
  split; [|split].
  - unfold Point_eqb. rewrite !andb_true_iff, !Qle_bool_iff. tauto.
  - intros c d. reflexivity.
  - reflexivity.
Qed.

(** ** app/config.h

    The header with the tuning constants is not part of the sources at hand:
    the constants are the fields of a record that every operation takes. *)
Record Config : Type := mkConfig {
  CLUSTER_POINT_PROXIMITY : Q;
  MIN_CLUSTER_POINTS : nat;
  FACE_POINT_PROXIMITY : Q;
  MIN_FACE_POINTS : nat;
  NORMAL_CALC_POINT_PROXIMITY : Q;
  MAX_POINTS_PER_LEAF : nat;
  MIN_NODE_HALF_EXTENT : Q
}.

(** ** models/Kernel.hh and models/Octree.hh *)

#[global] Instance Point_inhabited : Inhabited Point := populate Point0.

(** [Kernel_t]: the shape of a neighbourhood query. *)
Inductive Kernel_t : Type := sphere | cube.

(** The square of [Point::distance3D]. *)
Definition sqDistance3D (p q : Point) : Q :=
  let dx := getX p - getX q in
  let dy := getY p - getY q in
  let dz := getZ p - getZ q in
  dx * dx + dy * dy + dz * dz.

(** [Point::distance3D]: the Euclidean distance, a real number. *)
Definition distance3D (p q : Point) : R := sqrt (Q2R (sqDistance3D p q)).

(** Modelled from the spec: the kernel predicates of [models/Kernel.hh]
    (absent).  [sphere]: "||p - center|| <= radius", decided on the squares;
    [cube]: "each coordinate within radius". *)
Definition inKernel (k : Kernel_t) (center : Point) (radius : Q) (p : Point) : bool :=
  match k with
  | sphere => Qle_bool 0 radius && Qle_bool (sqDistance3D p center) (radius * radius)
  | cube =>
      Qle_bool (Qabs (getX p - getX center)) radius
      && Qle_bool (Qabs (getY p - getY center)) radius
      && Qle_bool (Qabs (getZ p - getZ center)) radius
  end.

(** Modelled from the spec: the octree of [models/Octree.hh] (absent).
    "Each node owns an axis-aligned cube (center, half-extent).  Leaves store
    pointers into an externally owned flat point array; internal nodes have
    exactly eight children".  A pointer into the array is the index of its
    point. *)
Inductive Octree : Type :=
  | OLeaf (center : Point) (half : Q) (stored : list nat)
  | ONode (center : Point) (half : Q) (children : list Octree).

Definition nodeCenter (t : Octree) : Point :=
  match t with OLeaf c _ _ => c | ONode c _ _ => c end.
Definition nodeHalf (t : Octree) : Q :=
  match t with OLeaf _ h _ => h | ONode _ h _ => h end.

(** Modelled from the spec: children are "indexed by the sign of
    (p - center) per axis": one bit per axis, x the most significant. *)
Definition octantOf (c p : Point) : nat :=
  ((if Qle_bool (getX c) (getX p) then 4 else 0)
   + (if Qle_bool (getY c) (getY p) then 2 else 0)
   + (if Qle_bool (getZ c) (getZ p) then 1 else 0))%nat.

(** The cube of child [k] of the node with cube [(c, h)]: half the extent,
    the center moved by half the extent towards the octant. *)
Definition childCenter (c : Point) (h : Q) (k : nat) : Point :=
  Point3 (if (4 <=? k)%nat then getX c + h / 2 else getX c - h / 2)
         (if (2 <=? k mod 4)%nat then getY c + h / 2 else getY c - h / 2)
         (if (1 <=? k mod 2)%nat then getZ c + h / 2 else getZ c - h / 2).

(** Modelled from the spec: "A node subdivides when its occupancy exceeds a
    configured threshold and its extent remains above a minimum resolution;
    otherwise it stays a leaf."  [depth] bounds the recursion, which in the
    program ends because the extent halves at every level. *)
Fixpoint Octree_build (cfg : Config) (depth : nat) (points : list Point)
    (c : Point) (h : Q) (stored : list nat) : Octree :=
  match depth with
  | O => OLeaf c h stored
  | S depth' =>
      if (MAX_POINTS_PER_LEAF cfg <? length stored)%nat
         && negb (Qle_bool h (MIN_NODE_HALF_EXTENT cfg))
      then ONode c h
             (map (fun k =>
                     Octree_build cfg depth' points (childCenter c h k) (h / 2)
                       (List.filter (fun i => (octantOf c (points !!! i) =? k)%nat) stored))
                  (seq 0 8))
      else OLeaf c h stored
  end.

(** The number of halvings after which an extent [h] is at most the minimum
    resolution (0 when the resolution is not positive). *)
Definition depthBound (cfg : Config) (h : Q) : nat :=
  if Qlt_le_dec 0 (MIN_NODE_HALF_EXTENT cfg)
  then Z.to_nat (Z.log2_up (Qceiling (h / MIN_NODE_HALF_EXTENT cfg)))
  else O.

Definition Qmax (a b : Q) : Q := if Qlt_le_dec a b then b else a.

(** Modelled from the spec: "build(points) — construct over a contiguous
    sequence of points"; "empty input yields an empty tree".  The root cube
    is centred on the bounding box of the points and reaches its longest
    side. *)
Definition Octree_of (cfg : Config) (points : list Point) : Octree :=
  match points with
  | [] => OLeaf Point0 0 []
  | _ =>
      let b := BBox_of_points points in
      let c := Point3 ((getX (getMin b) + getX (getMax b)) / 2)
                      ((getY (getMin b) + getY (getMax b)) / 2)
                      ((getZ (getMin b) + getZ (getMax b)) / 2) in
      let h := Qmax (getX (getDelta b)) (Qmax (getY (getDelta b)) (getZ (getDelta b))) / 2 in
      Octree_build cfg (depthBound cfg h) points c h (seq 0 (length points))
  end.

(** Modelled from the spec: a node's cube meets "the query kernel's
    axis-aligned bounding envelope", the cube of half-extent [radius] around
    the query center. *)
Definition intersectsEnvelope (t : Octree) (center : Point) (radius : Q) : bool :=
  Qle_bool (Qabs (getX (nodeCenter t) - getX center)) (nodeHalf t + radius)
  && Qle_bool (Qabs (getY (nodeCenter t) - getY center)) (nodeHalf t + radius)
  && Qle_bool (Qabs (getZ (nodeCenter t) - getZ center)) (nodeHalf t + radius).

(** Modelled from the spec: [Octree::searchNeighbors], "recursive descent; at
    each node, prune children whose cube does not intersect the query
    kernel's axis-aligned bounding envelope; at leaves, test each stored
    point against the exact kernel."  The points are read through the stored
    pointers, that is from the array the tree indexes. *)
Fixpoint searchNeighbors (points : list Point) (t : Octree)
    (center : Point) (radius : Q) (k : Kernel_t) : list nat :=
  match t with
  | OLeaf _ _ stored =>
      List.filter (fun i => inKernel k center radius (points !!! i)) stored
  | ONode _ _ children =>
      concat (map (fun t' =>
                     if intersectsEnvelope t' center radius
                     then searchNeighbors points t' center radius k
                     else [])
                  children)
  end.

(** The ground truth: a linear scan of the array. *)
Definition linearScan (points : list Point) (center : Point) (radius : Q)
    (k : Kernel_t) : list nat :=
  List.filter (fun i => inKernel k center radius (points !!! i)) (seq 0 (length points)).

(** All the indices stored below a node. *)
Fixpoint storedIndices (t : Octree) : list nat :=
  match t with
  | OLeaf _ _ stored => stored
  | ONode _ _ children => concat (map storedIndices children)
  end.

(** [p] lies in the cube of center [c] and half-extent [h]. *)
Definition inCube (c : Point) (h : Q) (p : Point) : Prop :=
  Qabs (getX p - getX c) <= h /\ Qabs (getY p - getY c) <= h /\
  Qabs (getZ p - getZ c) <= h.

(** *** The octree returns what a linear scan returns *)

(** Linear arithmetic over [Q] with halves. *)
Ltac lra_half := unfold Qdiv in *; change (/ 2) with (1 # 2) in *; lra.

Lemma Qsquare_nonneg (a : Q) : 0 <= a * a.
Proof.
  destruct (Qlt_le_dec a 0).
  - assert (E : a * a == (- a) * (- a)) by ring. rewrite E.
    apply Qmult_le_0_compat; lra.
  - apply Qmult_le_0_compat; lra.
Qed.

Lemma Qsquare_le_bound (a s r : Q) :
  0 <= r -> 0 <= s -> a * a + s <= r * r -> - r <= a <= r.
Proof.
  intros Hr Hs H. split; apply Qnot_lt_le; intros Hlt.
  - assert (0 < (- a - r) * (- a + r)) by (apply Qmult_lt_0_compat; lra). lra.
  - assert (0 < (a - r) * (a + r)) by (apply Qmult_lt_0_compat; lra). lra.
Qed.

Lemma filter_concat {A} (f : A -> bool) (ls : list (list A)) :
  List.filter f (concat ls) = concat (map (List.filter f) ls).
Proof.
  induction ls as [|l ls IH]; simpl; [reflexivity|].
  rewrite List.filter_app, IH. reflexivity.
Qed.

Lemma concat_map_perm {A B} (f g : A -> list B) (ks : list A) :
  (forall k, f k ≡ₚ g k) -> concat (map f ks) ≡ₚ concat (map g ks).
Proof.
  intros Hfg. induction ks as [|k ks IH]; simpl; [reflexivity|].
  rewrite (Hfg k), IH. reflexivity.
Qed.

Lemma concat_map_ext_in {A B} (f g : A -> list B) (ks : list A) :
  (forall k, In k ks -> f k = g k) -> concat (map f ks) = concat (map g ks).
Proof.
  intros Hfg. induction ks as [|k ks IH]; simpl; [reflexivity|].
  rewrite (Hfg k) by (left; reflexivity). rewrite IH; [reflexivity|].
  intros k' Hk'. apply Hfg. right. assumption.
Qed.

Lemma filter_lt_S (g : nat -> nat) (n : nat) (l : list nat) :
  List.filter (fun i => g i <? n)%nat l ++ List.filter (fun i => g i =? n)%nat l
  ≡ₚ List.filter (fun i => g i <? S n)%nat l.
Proof.
  induction l as [|a l IH]; simpl; [reflexivity|].
  destruct (Nat.ltb_spec (g a) n) as [H1 | H1];
    destruct (Nat.eqb_spec (g a) n) as [H2 | H2];
    destruct (Nat.ltb_spec (g a) (S n)) as [H3 | H3]; try lia; simpl.
  - rewrite IH. reflexivity.
  - rewrite <- Permutation_middle, IH. reflexivity.
  - exact IH.
Qed.

(** Sorting indices by a key below [n] loses and repeats none of them. *)
Lemma key_partition (g : nat -> nat) (n : nat) (l : list nat) :
  concat (map (fun k => List.filter (fun i => g i =? k)%nat l) (seq 0 n))
  ≡ₚ List.filter (fun i => g i <? n)%nat l.
Proof.
  induction n as [|n IH].
  - simpl. induction l as [|a l IHl]; simpl; [reflexivity | exact IHl].
  - rewrite seq_S, map_app, concat_app, IH. simpl. rewrite app_nil_r.
    apply filter_lt_S.
Qed.

Lemma filter_Permutation {A} (f : A -> bool) (l l' : list A) :
  l ≡ₚ l' -> List.filter f l ≡ₚ List.filter f l'.
Proof.
  induction 1 as [|a l l' _ IH|a b l|l1 l2 l3 _ IH1 _ IH2]; simpl.
  - reflexivity.
  - destruct (f a); [rewrite IH|]; [reflexivity | exact IH].
  - destruct (f a), (f b); try reflexivity. apply perm_swap.
  - rewrite IH1. exact IH2.
Qed.

Lemma filter_all_true {A} (f : A -> bool) (l : list A) :
  (forall a, In a l -> f a = true) -> List.filter f l = l.
Proof.
  induction l as [|a l IH]; intros H; simpl; [reflexivity|].
  rewrite (H a) by (left; reflexivity). f_equal. apply IH.
  intros b Hb. apply H. right. assumption.
Qed.

Lemma filter_all_false {A} (f : A -> bool) (l : list A) :
  (forall a, In a l -> f a = false) -> List.filter f l = [].
Proof.
  induction l as [|a l IH]; intros H; simpl; [reflexivity|].
  rewrite (H a) by (left; reflexivity). apply IH.
  intros b Hb. apply H. right. assumption.
Qed.

Lemma octantOf_lt (c p : Point) : (octantOf c p < 8)%nat.
Proof.
  unfold octantOf.
  destruct (Qle_bool (getX c) (getX p)), (Qle_bool (getY c) (getY p)),
    (Qle_bool (getZ c) (getZ p)); simpl; lia.
Qed.

Lemma Octree_build_cube cfg depth points c h stored :
  nodeCenter (Octree_build cfg depth points c h stored) = c /\
  nodeHalf (Octree_build cfg depth points c h stored) = h.
Proof.
  destruct depth as [|depth]; simpl; [split; reflexivity|].
  destruct (_ && _); split; reflexivity.
Qed.

(** Every index handed to the builder is stored below the node it builds,
    exactly once. *)
Lemma Octree_build_stored cfg points depth : forall c h stored,
  storedIndices (Octree_build cfg depth points c h stored) ≡ₚ stored.
Proof.
  induction depth as [|depth IH]; intros c h stored; [reflexivity|].
  cbn [Octree_build]. destruct (_ && _); cbn [storedIndices]; [|reflexivity].
  rewrite map_map.
  rewrite (concat_map_perm _
             (fun k => List.filter (fun i => (octantOf c (points !!! i) =? k)%nat) stored))
    by (intros k; apply IH).
  rewrite key_partition. rewrite filter_all_true; [reflexivity|].
  intros i _. apply Nat.ltb_lt. apply octantOf_lt.
Qed.

(** A point of a cube lies in the cube of the octant it is sorted into. *)
Lemma inCube_child (c : Point) (h : Q) (p : Point) :
  inCube c h p -> inCube (childCenter c h (octantOf c p)) (h / 2) p.
Proof.
  unfold inCube, octantOf. intros (Hx & Hy & Hz).
  apply Qabs_Qle_condition in Hx, Hy, Hz.
  destruct (Qle_bool (getX c) (getX p)) eqn:Ex;
    destruct (Qle_bool (getY c) (getY p)) eqn:Ey;
    destruct (Qle_bool (getZ c) (getZ p)) eqn:Ez;
    cbn [childCenter Point3 getX getY getZ Nat.add Nat.leb Nat.modulo Nat.divmod fst snd Nat.sub];
    repeat match goal with
      | H : Qle_bool _ _ = true |- _ => apply Qle_bool_iff in H
      | H : Qle_bool _ _ = false |- _ =>
          apply not_true_iff_false in H; rewrite Qle_bool_iff in H;
          apply Qnot_le_lt in H
      end;
    (split; [|split]); apply Qabs_Qle_condition; split; lra_half.
Qed.

(** A point that satisfies the kernel lies in the kernel's envelope, so a
    cube that holds it meets the envelope. *)
Lemma inKernel_intersects (t : Octree) (k : Kernel_t) (center : Point) (radius : Q)
    (p : Point) :
  inCube (nodeCenter t) (nodeHalf t) p ->
  inKernel k center radius p = true ->
  intersectsEnvelope t center radius = true.
Proof.
  unfold inCube, intersectsEnvelope. intros (Hx & Hy & Hz) Hk.
  apply Qabs_Qle_condition in Hx, Hy, Hz.
  assert (He : Qabs (getX p - getX center) <= radius /\
               Qabs (getY p - getY center) <= radius /\
               Qabs (getZ p - getZ center) <= radius).
  { destruct k; simpl in Hk.
    - apply andb_true_iff in Hk as [H0 Hd]. apply Qle_bool_iff in H0, Hd.
      unfold sqDistance3D in Hd. cbv zeta in Hd.
      pose proof (Qsquare_nonneg (getX p - getX center)) as Sx.
      pose proof (Qsquare_nonneg (getY p - getY center)) as Sy.
      pose proof (Qsquare_nonneg (getZ p - getZ center)) as Sz.
      set (dx := getX p - getX center) in *.
      set (dy := getY p - getY center) in *.
      set (dz := getZ p - getZ center) in *.
      split; [|split]; apply Qabs_Qle_condition.
      + apply (Qsquare_le_bound dx (dy * dy + dz * dz) radius H0); lra.
      + apply (Qsquare_le_bound dy (dx * dx + dz * dz) radius H0); lra.
      + apply (Qsquare_le_bound dz (dx * dx + dy * dy) radius H0); lra.
    - rewrite !andb_true_iff, !Qle_bool_iff in Hk. tauto. }
  destruct He as (Ex & Ey & Ez).
  apply Qabs_Qle_condition in Ex, Ey, Ez.
  rewrite !andb_true_iff, !Qle_bool_iff.
  (split; [split|]); apply Qabs_Qle_condition; split; lra.
Qed.

(** Two states of the point vector with the same coordinates, index by
    index: what the DBSCAN passes preserve, since they only write tags. *)
Definition sameCoords (points points' : list Point) : Prop :=
  length points' = length points /\
  forall i, coords (points' !!! i) = coords (points !!! i).

Lemma inKernel_coords k center radius p q :
  coords p = coords q -> inKernel k center radius p = inKernel k center radius q.
Proof.
  unfold coords. intros E. injection E as Ex Ey Ez.
  destruct k; unfold inKernel, sqDistance3D; rewrite Ex, Ey, Ez; reflexivity.
Qed.

(** The search of a built subtree is the kernel filter of what is stored
    below it: pruning drops only subtrees none of whose points satisfies the
    kernel.  The tree was built over [points]; it is searched when the vector
    is [points'], with the same coordinates. *)
Lemma Octree_build_search cfg points points' center radius k depth : forall c h stored,
  sameCoords points points' ->
  (forall i, In i stored -> inCube c h (points !!! i)) ->
  searchNeighbors points' (Octree_build cfg depth points c h stored) center radius k
  = List.filter (fun i => inKernel k center radius (points' !!! i))
      (storedIndices (Octree_build cfg depth points c h stored)).
Proof.
  induction depth as [|depth IH]; intros c h stored Hsame Hcube; [reflexivity|].
  cbn [Octree_build]. destruct (_ && _); cbn [searchNeighbors storedIndices];
    [|reflexivity].
  rewrite filter_concat, !map_map. apply concat_map_ext_in. intros o _.
  set (sub := List.filter (fun i => (octantOf c (points !!! i) =? o)%nat) stored).
  set (child := Octree_build cfg depth points (childCenter c h o) (h / 2) sub).
  assert (Hsub : forall i, In i sub -> inCube (childCenter c h o) (h / 2) (points !!! i)).
  { intros i Hi. apply filter_In in Hi as [Hi Ho]. apply Nat.eqb_eq in Ho.
    rewrite <- Ho. apply inCube_child. apply Hcube. exact Hi. }
  destruct (intersectsEnvelope child center radius) eqn:E.
  - apply IH; [exact Hsame | exact Hsub].
  - symmetry. apply filter_all_false. intros i Hi.
    apply (Permutation_in _ (Octree_build_stored cfg points depth _ _ sub)) in Hi.
    apply Hsub in Hi.
    rewrite (inKernel_coords k center radius _ (points !!! i)) by apply Hsame.
    destruct (inKernel k center radius (points !!! i)) eqn:Ek; [|reflexivity].
    rewrite <- E. symmetry.
    apply (inKernel_intersects child k center radius (points !!! i)); [|exact Ek].
    destruct (Octree_build_cube cfg depth points (childCenter c h o) (h / 2) sub)
      as [Hc Hh].
    unfold child. rewrite Hc, Hh. exact Hi.
Qed.

Lemma Qmax_l (a b : Q) : a <= Qmax a b.
Proof. unfold Qmax. destruct (Qlt_le_dec a b); lra. Qed.

Lemma Qmax_r (a b : Q) : b <= Qmax a b.
Proof. unfold Qmax. destruct (Qlt_le_dec a b); lra. Qed.

(** Between the extremes of an axis, a value is within half their distance of
    their middle. *)
Lemma middle_within (lo hi v h : Q) :
  lo <= v -> v <= hi -> hi - lo <= 2 * h -> Qabs (v - (lo + hi) / 2) <= h.
Proof. intros. apply Qabs_Qle_condition. split; lra_half. Qed.

Lemma is_min_le f pts m p : is_min f pts m -> p ∈ pts -> m <= f p.
Proof. intros [_ H] Hp. apply H. exact Hp. Qed.

Lemma is_max_ge f pts m p : is_max f pts m -> p ∈ pts -> f p <= m.
Proof. intros [_ H] Hp. apply H. exact Hp. Qed.

(** The octree of a point array stores every index once, and its search is
    the kernel filter of the stored indices. *)
Lemma Octree_of_stored cfg points :
  storedIndices (Octree_of cfg points) ≡ₚ seq 0 (length points).
Proof.
  unfold Octree_of. destruct points as [|p0 rest]; [reflexivity|].
  cbv zeta. apply Octree_build_stored.
Qed.

Lemma Octree_of_search cfg points points' center radius k :
  sameCoords points points' ->
  searchNeighbors points' (Octree_of cfg points) center radius k
  = List.filter (fun i => inKernel k center radius (points' !!! i))
      (storedIndices (Octree_of cfg points)).
Proof.
  intros Hsame. unfold Octree_of. destruct points as [|p0 rest] eqn:Ep.
  - reflexivity.
  - rewrite <- Ep. cbv zeta.
    set (b := BBox_of_points points).
    set (c := Point3 _ _ _). set (h := Qmax _ _ / 2).
    set (depth := depthBound cfg h).
    apply Octree_build_search; [rewrite Ep; exact Hsame|]. intros i Hi.
    apply in_seq in Hi as [_ Hi]. simpl in Hi.
    assert (Hp : points !!! i ∈ points).
    { apply list_elem_of_lookup_total_2. exact Hi. }
    assert (Hne : points <> []) by (rewrite Ep; discriminate).
    destruct (BBox_of_points_bounds points Hne)
      as [(Hx1 & Hx2 & Hy1 & Hy2 & Hz1 & Hz2) Hd].
    fold b in Hx1, Hx2, Hy1, Hy2, Hz1, Hz2, Hd. simpl in Hx1, Hx2, Hy1, Hy2, Hz1, Hz2.
    pose proof (is_min_le _ _ _ _ Hx1 Hp). pose proof (is_max_ge _ _ _ _ Hx2 Hp).
    pose proof (is_min_le _ _ _ _ Hy1 Hp). pose proof (is_max_ge _ _ _ _ Hy2 Hp).
    pose proof (is_min_le _ _ _ _ Hz1 Hp). pose proof (is_max_ge _ _ _ _ Hz2 Hp).
    pose proof (Qmax_l (getX (getDelta b)) (Qmax (getY (getDelta b)) (getZ (getDelta b)))) as Mx.
    pose proof (Qmax_r (getX (getDelta b)) (Qmax (getY (getDelta b)) (getZ (getDelta b)))) as Myz.
    pose proof (Qmax_l (getY (getDelta b)) (getZ (getDelta b))) as My.
    pose proof (Qmax_r (getY (getDelta b)) (getZ (getDelta b))) as Mz.
    rewrite Hd in Mx, Myz, My, Mz. unfold Point_sub in Mx, Myz, My, Mz.
    cbn [getX getY getZ Point3] in Mx, Myz, My, Mz.
    unfold inCube, c, h. cbn [getX getY getZ Point3]. rewrite Hd.
    unfold Point_sub. cbn [getX getY getZ Point3].
    split; [|split]; apply middle_within; try assumption; lra_half.
Qed.

Lemma Q2R_0 : Q2R 0 = 0%R.
Proof. unfold Q2R. simpl. lra. Qed.

Lemma sqDistance3D_nonneg (p q : Point) : 0 <= sqDistance3D p q.
Proof.
  unfold sqDistance3D. cbv zeta.
  pose proof (Qsquare_nonneg (getX p - getX q)).
  pose proof (Qsquare_nonneg (getY p - getY q)).
  pose proof (Qsquare_nonneg (getZ p - getZ q)). lra.
Qed.

(** The sphere kernel, decided on the squares, is the comparison of the
    Euclidean distance with the radius. *)
Lemma inKernel_sphere_distance (center : Point) (radius : Q) (p : Point) :
  inKernel sphere center radius p = true <-> (distance3D p center <= Q2R radius)%R.
Proof.
  unfold inKernel, distance3D. rewrite andb_true_iff, !Qle_bool_iff.
  pose proof (sqDistance3D_nonneg p center) as Hd.
  apply Qle_Rle in Hd. rewrite Q2R_0 in Hd.
  split.
  - intros [Hr Hle]. apply Qle_Rle in Hr, Hle. rewrite Q2R_0 in Hr.
    rewrite Q2R_mult in Hle.
    rewrite <- (sqrt_square (Q2R radius)) by exact Hr.
    apply sqrt_le_1; try assumption. apply Rmult_le_pos; assumption.
  - intros Hle.
    pose proof (sqrt_pos (Q2R (sqDistance3D p center))) as Hs.
    assert (Hr : (0 <= Q2R radius)%R) by lra.
    split.
    + apply Rle_Qle. rewrite Q2R_0. exact Hr.
    + apply Rle_Qle. rewrite Q2R_mult.
      rewrite <- (sqrt_sqrt (Q2R (sqDistance3D p center))) by exact Hd.
      apply Rmult_le_compat; assumption.
Qed.

(** C1: for every point array, center and radius, the octree's sphere search
    returns exactly the indices of the points at Euclidean distance at most
    the radius from the center, each once: the set a linear scan returns. *)
Theorem searchNeighbors_sphere_exact (cfg : Config) (points : list Point)
    (center : Point) (radius : Q) :
  let found := searchNeighbors points (Octree_of cfg points) center radius sphere in
  NoDup found /\
  (forall i : nat, i ∈ found <->
     exists p, points !! i = Some p /\ (distance3D p center <= Q2R radius)%R) /\
  found ≡ₚ linearScan points center radius sphere.
Proof.
  cbv zeta. rewrite Octree_of_search by (split; reflexivity).
  assert (Hperm : List.filter (fun i => inKernel sphere center radius (points !!! i))
                    (storedIndices (Octree_of cfg points))
                  ≡ₚ linearScan points center radius sphere).
  { unfold linearScan. apply filter_Permutation. apply Octree_of_stored. }
  split; [|split].
  - rewrite Hperm. unfold linearScan. apply NoDup_ListNoDup, List.NoDup_filter, seq_NoDup.
  - intros i. rewrite Hperm. unfold linearScan.
    rewrite list_elem_of_In, filter_In, in_seq, inKernel_sphere_distance.
    split.
    + intros [[_ Hi] Hd]. simpl in Hi. exists (points !!! i). split; [|exact Hd].
      apply list_lookup_lookup_total_lt. exact Hi.
    + intros (p & Hp & Hd). pose proof (lookup_lt_Some _ _ _ Hp) as Hi.
      rewrite (list_lookup_total_correct _ _ _ Hp). split; [lia | exact Hd].
  - exact Hperm.
Qed.

(** *** The bound on the depth cuts nothing

    With a positive minimum resolution, the extent of a node [depthBound]
    levels down is at most the resolution: a deeper recursion builds the same
    tree. *)
Lemma Octree_build_deeper cfg points (d : nat) : forall extra c h stored,
  h <= MIN_NODE_HALF_EXTENT cfg * inject_Z (2 ^ Z.of_nat d) ->
  Octree_build cfg (d + extra) points c h stored = Octree_build cfg d points c h stored.
Proof.
  induction d as [|d IH]; intros extra c h stored Hh.
  - destruct extra as [|extra]; [reflexivity|]. cbn [Nat.add Octree_build].
    assert (E : Qle_bool h (MIN_NODE_HALF_EXTENT cfg) = true).
    { apply Qle_bool_iff. change (inject_Z (2 ^ Z.of_nat 0)) with 1 in Hh. lra. }
    rewrite E, andb_false_r. reflexivity.
  - cbn [Nat.add Octree_build]. destruct (_ && _); [|reflexivity].
    f_equal. apply map_ext. intros k. apply IH.
    rewrite Nat2Z.inj_succ, Z.pow_succ_r, inject_Z_mult in Hh by lia.
    change (inject_Z 2) with 2 in Hh. lra_half.
Qed.

Lemma depthBound_enough cfg (h : Q) :
  0 < MIN_NODE_HALF_EXTENT cfg ->
  h <= MIN_NODE_HALF_EXTENT cfg * inject_Z (2 ^ Z.of_nat (depthBound cfg h)).
Proof.
  intros Hmin. unfold depthBound.
  destruct (Qlt_le_dec 0 (MIN_NODE_HALF_EXTENT cfg)) as [_ | Hle]; [|lra].
  set (m := MIN_NODE_HALF_EXTENT cfg) in *.
  set (n := Qceiling (h / m)).
  rewrite Z2Nat.id by apply Z.log2_up_nonneg.
  assert (Hn : (n <= 2 ^ Z.log2_up n)%Z).
  { destruct (Z_le_gt_dec n 1) as [H1 | H1].
    - rewrite Z.log2_up_eqn0 by exact H1. cbn. exact H1.
    - apply Z.log2_up_spec. lia. }
  assert (Hq : h / m <= inject_Z (2 ^ Z.log2_up n)).
  { eapply Qle_trans; [apply Qle_ceiling|]. fold n.
    rewrite <- Zle_Qle. exact Hn. }
  assert (E : h == h / m * m) by (field; lra).
  rewrite E at 1. rewrite (Qmult_comm m). apply Qmult_le_compat_r; lra.
Qed.

Lemma Octree_build_depthBound cfg points (extra : nat) c h stored :
  0 < MIN_NODE_HALF_EXTENT cfg ->
  Octree_build cfg (depthBound cfg h + extra) points c h stored
  = Octree_build cfg (depthBound cfg h) points c h stored.
Proof.
  intros Hmin. apply Octree_build_deeper, depthBound_enough. exact Hmin.
Qed.

(** ** object_characterization/DBScan.cc: spatial DBSCAN

    The program works on [std::vector<Point> &points] in place: a state is
    the vector itself, [points[i].setClusterID(c)] is an update at index [i].
    The octree is built once from the vector and keeps pointers into it, so
    a query reads the current tags through them.  [points[i]] is read and
    written at indices of the vector only (the ones the loops range over and
    the ones a query returns), so the total lookup [points !!! i] is the
    element the program reads. *)

(** [points[i].setClusterID(c)]. *)
Definition setClusterIDAt (i : nat) (c : Z) (points : list Point) : list Point :=
  <[i := setClusterID c (points !!! i)]> points.

(** [DBScan::centroidNeighbours]: the number of points in the sphere around
    the centroid, and the indices of those whose cluster tag is negative. *)
Definition centroidNeighbours (cfg : Config) (centroid : Point) (points : list Point)
    (map : Octree) : nat * list nat :=
  let neighbourPoints :=
    searchNeighbors points map centroid (CLUSTER_POINT_PROXIMITY cfg) sphere in
  (length neighbourPoints,
   List.filter (fun i => (getClusterID (points !!! i) <? 0)%Z) neighbourPoints).

(** The first loop of [expandCluster] on the seed [i]: the seed is tagged and
    its position among the seeds is remembered when it equals the centroid.
    The state is [(points, index, indexCorePoint)]. *)
Definition tagSeed (clusterID : Z) (centroid : nat)
    (st : list Point * nat * nat) (i : nat) : list Point * nat * nat :=
  let '(points, index, indexCorePoint) := st in
  let points := setClusterIDAt i clusterID points in
  let indexCorePoint :=
    if Point_eqb (points !!! i) (points !!! centroid) then index else indexCorePoint in
  (points, S index, indexCorePoint).

(** The innermost loop of [expandCluster] on the neighbour [i]: a still
    unclassified neighbour becomes a seed; every neighbour is tagged and
    added to the cluster.  The state is [(seeds, points, clusterPoints)]. *)
Definition absorb (clusterID : Z)
    (st : list nat * list Point * list nat) (i : nat) : list nat * list Point * list nat :=
  let '(seeds, points, clusterPoints) := st in
  let seeds :=
    if (getClusterID (points !!! i) =? cUnclassified)%Z then seeds ++ [i] else seeds in
  (seeds, setClusterIDAt i clusterID points, clusterPoints ++ [i]).

(** The expansion loop [for (i = 0, seedsSize = seeds.size(); i < seedsSize; ++i)]
    of [expandCluster]; [seedsSize] is the length of [seeds] throughout.
    [fuel] bounds the number of turns; [None] when it runs out. *)
Fixpoint expandLoop (fuel : nat) (cfg : Config) (clusterID : Z) (map : Octree)
    (i : nat) (seeds : list nat) (points : list Point) (clusterPoints : list nat)
    : option (list Point * list nat) :=
  match fuel with
  | O => None
  | S fuel' =>
      match seeds !! i with
      | None => Some (points, clusterPoints)
      | Some s =>
          let clusterNeighbours := centroidNeighbours cfg (points !!! s) points map in
          if (MIN_CLUSTER_POINTS cfg <=? fst clusterNeighbours)%nat
          then
            let '(seeds, points, clusterPoints) :=
              fold_left (absorb clusterID) (snd clusterNeighbours)
                (seeds, points, clusterPoints) in
            expandLoop fuel' cfg clusterID map (S i) seeds points clusterPoints
          else expandLoop fuel' cfg clusterID map (S i) seeds points clusterPoints
      end
  end.

(** Turns that suffice for the expansion loop: a seed is appended only when
    an unclassified point is tagged. *)
Definition expandFuel (seeds : list nat) (points : list Point) : nat :=
  S (length seeds + length points).

(** [DBScan::expandCluster]; the centroid is the element [centroid] of the
    vector.  The result is the vector after the call and the returned pair.
    [clusterSeeds.second.erase(begin() + indexCorePoint)] is defined only when
    [indexCorePoint] is a position of the seeds, which fails exactly when
    there is no seed at all; the call has no result ([None]) then. *)
Definition expandCluster (cfg : Config) (centroid : nat) (clusterID : Z)
    (points : list Point) (map : Octree) : option (list Point * (bool * list nat)) :=
  let clusterSeeds := centroidNeighbours cfg (points !!! centroid) points map in
  if (length (snd clusterSeeds) <? MIN_CLUSTER_POINTS cfg)%nat
  then Some (setClusterIDAt centroid cNoise points, (false, []))
  else
    let clusterPoints := snd clusterSeeds in
    let '(points, _, indexCorePoint) :=
      fold_left (tagSeed clusterID centroid) (snd clusterSeeds) (points, O, O) in
    if (indexCorePoint <? length (snd clusterSeeds))%nat
    then
      let seeds := delete indexCorePoint (snd clusterSeeds) in
      match expandLoop (expandFuel seeds points) cfg clusterID map 0 seeds points
              clusterPoints with
      | Some (points, clusterPoints) => Some (points, (true, clusterPoints))
      | None => None
      end
    else None.

(** One turn of the loop of [DBScan::clusters] on the point of index [k].
    The state is [(clusterID, clusters, points)]. *)
Definition clustersStep (cfg : Config) (map : Octree)
    (st : option (Z * list (list nat) * list Point)) (k : nat)
    : option (Z * list (list nat) * list Point) :=
  match st with
  | None => None
  | Some (clusterID, clusters, points) =>
      if (getClusterID (points !!! k) =? cUnclassified)%Z
      then
        match expandCluster cfg k clusterID points map with
        | Some (points, (true, cluster)) =>
            Some ((clusterID + 1)%Z, clusters ++ [cluster], points)
        | Some (points, (false, _)) => Some (clusterID, clusters, points)
        | None => None
        end
      else Some (clusterID, clusters, points)
  end.

(** [DBScan::clusters]: the returned clusters and the vector after the call. *)
Definition clusters (cfg : Config) (points : list Point)
    : option (list (list nat) * list Point) :=
  let clustermap := Octree_of cfg points in
  match fold_left (clustersStep cfg clustermap) (seq 0 (length points))
          (Some (0%Z, [], points)) with
  | Some (_, clusters, points) => Some (clusters, points)
  | None => None
  end.

(** *** Tags and coordinates under [setClusterID] *)

(** The tag of the point of index [i]. *)
Definition tagOf (points : list Point) (i : nat) : Z := getClusterID (points !!! i).

Lemma length_setClusterIDAt i c points :
  length (setClusterIDAt i c points) = length points.
Proof. unfold setClusterIDAt. apply length_insert. Qed.

Lemma setClusterIDAt_coords i c points j :
  coords (setClusterIDAt i c points !!! j) = coords (points !!! j).
Proof.
  unfold setClusterIDAt. destruct (decide (i < length points)%nat) as [Hi | Hi].
  - destruct (decide (j = i)) as [-> | Hne].
    + rewrite list_lookup_total_insert_eq by exact Hi. reflexivity.
    + rewrite list_lookup_total_insert_ne by congruence. reflexivity.
  - rewrite list_insert_ge by lia. reflexivity.
Qed.

Lemma tagOf_setClusterIDAt_eq i c points :
  (i < length points)%nat -> tagOf (setClusterIDAt i c points) i = c.
Proof.
  intros Hi. unfold tagOf, setClusterIDAt.
  rewrite list_lookup_total_insert_eq by exact Hi. reflexivity.
Qed.

Lemma tagOf_setClusterIDAt_ne i c points j :
  j <> i -> tagOf (setClusterIDAt i c points) j = tagOf points j.
Proof.
  intros Hne. unfold tagOf, setClusterIDAt.
  rewrite list_lookup_total_insert_ne by congruence. reflexivity.
Qed.

Lemma sameCoords_refl points : sameCoords points points.
Proof. split; reflexivity. Qed.

Lemma sameCoords_set points0 points i c :
  sameCoords points0 points -> sameCoords points0 (setClusterIDAt i c points).
Proof.
  intros [Hl Hc]. split.
  - rewrite length_setClusterIDAt. exact Hl.
  - intros j. rewrite setClusterIDAt_coords. apply Hc.
Qed.

Lemma sameCoords_trans p1 p2 p3 :
  sameCoords p1 p2 -> sameCoords p2 p3 -> sameCoords p1 p3.
Proof.
  intros [L1 C1] [L2 C2]. split; [congruence|].
  intros i. rewrite C2. apply C1.
Qed.

(** *** What a sphere query returns during a pass *)

Lemma elem_of_List_filter {A} (f : A -> bool) (l : list A) (x : A) :
  x ∈ List.filter f l <-> x ∈ l /\ f x = true.
Proof. rewrite !list_elem_of_In. apply filter_In. Qed.

Lemma NoDup_List_filter {A} (f : A -> bool) (l : list A) :
  NoDup l -> NoDup (List.filter f l).
Proof. rewrite !NoDup_ListNoDup. apply List.NoDup_filter. Qed.

(** While a pass runs over the vector the octree was built from, a query
    returns each index of a point of the kernel once, whatever the tags. *)
Lemma searchNeighbors_during cfg pinit points center radius k :
  sameCoords pinit points ->
  NoDup (searchNeighbors points (Octree_of cfg pinit) center radius k) /\
  (forall i, i ∈ searchNeighbors points (Octree_of cfg pinit) center radius k <->
     (i < length points)%nat /\ inKernel k center radius (points !!! i) = true) /\
  length (searchNeighbors points (Octree_of cfg pinit) center radius k)
  = length (linearScan points center radius k).
Proof.
  intros Hsame. rewrite (Octree_of_search cfg pinit points) by exact Hsame.
  pose proof (Octree_of_stored cfg pinit) as Hst.
  destruct Hsame as [Hlen _].
  split; [|split].
  - apply NoDup_List_filter. rewrite Hst. apply NoDup_ListNoDup, seq_NoDup.
  - intros i. rewrite elem_of_List_filter, Hst, list_elem_of_In, in_seq, Hlen.
    split; intros [H1 H2]; (split; [lia | exact H2]).
  - unfold linearScan. apply Permutation_length, filter_Permutation.
    rewrite Hst, Hlen. reflexivity.
Qed.

(** The indices [centroidNeighbours] returns: distinct, valid, of points
    whose tag is negative. *)
Lemma centroidNeighbours_snd cfg pinit points centroid :
  sameCoords pinit points ->
  NoDup (snd (centroidNeighbours cfg centroid points (Octree_of cfg pinit))) /\
  forall i, i ∈ snd (centroidNeighbours cfg centroid points (Octree_of cfg pinit)) ->
    (i < length points)%nat /\ (tagOf points i < 0)%Z.
Proof.
  intros Hsame. unfold centroidNeighbours. cbn [snd].
  destruct (searchNeighbors_during cfg pinit points centroid
              (CLUSTER_POINT_PROXIMITY cfg) sphere Hsame) as (Hnd & Hin & _).
  split.
  - apply NoDup_List_filter. exact Hnd.
  - intros i Hi. apply elem_of_List_filter in Hi as [Hi Ht].
    apply Hin in Hi as [Hi _]. apply Z.ltb_lt in Ht. split; assumption.
Qed.

(** *** The invariant of a cluster expansion

    [points0] is the vector when the expansion starts, [seeds0] the seeds the
    expansion loop starts from, [id] the identifier of the cluster.  A point
    either has kept its tag and is outside the cluster, or had a negative
    tag, now carries the identifier and is in the cluster. *)
Definition expansionInv (id : Z) (points0 : list Point) (seeds0 : list nat)
    (st : list nat * list Point * list nat) : Prop :=
  let '(seeds, points, clusterPoints) := st in
  sameCoords points0 points /\
  (forall j, (j < length points)%nat ->
     (tagOf points j = tagOf points0 j /\ j ∉ clusterPoints) \/
     ((tagOf points0 j < 0)%Z /\ tagOf points j = id /\ j ∈ clusterPoints)) /\
  NoDup clusterPoints /\
  (forall j, j ∈ clusterPoints -> (j < length points)%nat) /\
  exists added, seeds = seeds0 ++ added /\ NoDup added /\
    forall j, j ∈ added -> j ∈ clusterPoints.

Lemma absorb_inv (id : Z) points0 seeds0 seeds points clusterPoints (a : nat) :
  (0 <= id)%Z -> (a < length points)%nat -> (tagOf points a < 0)%Z ->
  expansionInv id points0 seeds0 (seeds, points, clusterPoints) ->
  expansionInv id points0 seeds0 (absorb id (seeds, points, clusterPoints) a).
Proof.
  intros Hid Ha Hneg (Hsame & Hframe & Hnd & Hcp & added & Hseeds & Hadd & Hsub).
  assert (Hnot : a ∉ clusterPoints).
  { intros Hin. destruct (Hframe a Ha) as [[_ H] | (_ & H & _)]; [contradiction | lia]. }
  unfold absorb, expansionInv. rewrite length_setClusterIDAt.
  split; [apply sameCoords_set; exact Hsame|].
  split; [|split; [|split]].
  - intros j Hj. destruct (decide (j = a)) as [-> | Hne].
    + right. rewrite tagOf_setClusterIDAt_eq by exact Ha.
      split; [|split; [reflexivity|]].
      * destruct (Hframe a Ha) as [[E _] | (E & _)]; lia.
      * apply elem_of_app. right. apply list_elem_of_singleton. reflexivity.
    + rewrite tagOf_setClusterIDAt_ne by exact Hne.
      destruct (Hframe j Hj) as [[E Hout] | (E1 & E2 & Hin)].
      * left. split; [exact E|]. intros Hin.
        apply elem_of_app in Hin as [Hin | Hin]; [contradiction|].
        apply list_elem_of_singleton in Hin. contradiction.
      * right. split; [exact E1|]. split; [exact E2|].
        apply elem_of_app. left. exact Hin.
  - apply NoDup_app. split; [exact Hnd|]. split.
    + intros x Hx Hx'. apply list_elem_of_singleton in Hx'. subst x. contradiction.
    + apply NoDup_singleton.
  - intros j Hj. apply elem_of_app in Hj as [Hj | Hj]; [apply Hcp; exact Hj|].
    apply list_elem_of_singleton in Hj. subst j. exact Ha.
  - destruct (getClusterID (points !!! a) =? cUnclassified)%Z.
    + exists (added ++ [a]). split; [rewrite Hseeds, app_assoc; reflexivity|]. split.
      * apply NoDup_app. split; [exact Hadd|]. split; [|apply NoDup_singleton].
        intros x Hx Hx'. apply list_elem_of_singleton in Hx'. subst x.
        apply Hnot. apply Hsub. exact Hx.
      * intros j Hj. apply elem_of_app. apply elem_of_app in Hj as [Hj | Hj].
        -- left. apply Hsub. exact Hj.
        -- right. exact Hj.
    + exists added. split; [exact Hseeds|]. split; [exact Hadd|].
      intros j Hj. apply elem_of_app. left. apply Hsub. exact Hj.
Qed.

Lemma absorb_fold_inv (id : Z) points0 seeds0 (nb : list nat) : forall st,
  (0 <= id)%Z -> NoDup nb ->
  (forall j, j ∈ nb -> (j < length (snd (fst st)))%nat /\ (tagOf (snd (fst st)) j < 0)%Z) ->
  expansionInv id points0 seeds0 st ->
  expansionInv id points0 seeds0 (fold_left (absorb id) nb st).
Proof.
  induction nb as [|a nb IH]; intros [[seeds points] cp] Hid Hnd Hnb Hinv;
    [exact Hinv|].
  cbn [fold_left]. apply NoDup_cons in Hnd as [Ha Hnd].
  cbn [fst snd] in Hnb.
  destruct (Hnb a) as [Hlt Hneg]; [apply list_elem_of_here|].
  apply IH; [exact Hid | exact Hnd | | apply absorb_inv; assumption].
  intros j Hj. unfold absorb. cbn [fst snd]. rewrite length_setClusterIDAt.
  destruct (Hnb j) as [Hjl Hjn]; [apply list_elem_of_further; exact Hj|].
  split; [exact Hjl|].
  rewrite tagOf_setClusterIDAt_ne; [exact Hjn|].
  intros ->. contradiction.
Qed.

Lemma absorb_fold_seeds_length (id : Z) (nb : list nat) : forall st,
  (length (fst (fst st)) <= length (fst (fst (fold_left (absorb id) nb st))))%nat.
Proof.
  induction nb as [|a nb IH]; intros [[seeds points] cp]; [reflexivity|].
  cbn [fold_left]. etransitivity; [|apply IH].
  unfold absorb. cbn [fst]. destruct (_ =? _)%Z; [rewrite length_app|]; lia.
Qed.

(** A list of distinct valid indices is no longer than the vector. *)
Lemma NoDup_bounded_length (l : list nat) (n : nat) :
  NoDup l -> (forall j, j ∈ l -> (j < n)%nat) -> (length l <= n)%nat.
Proof.
  intros Hnd Hb. transitivity (length (seq 0 n)); [|rewrite length_seq; lia].
  apply NoDup_incl_length; [apply NoDup_ListNoDup; exact Hnd|].
  intros j Hj. apply in_seq. apply list_elem_of_In, Hb in Hj. lia.
Qed.

Lemma expansionInv_seeds_length id points0 seeds0 seeds points cp :
  expansionInv id points0 seeds0 (seeds, points, cp) ->
  (length seeds <= length seeds0 + length points0)%nat.
Proof.
  intros (Hsame & _ & _ & Hcp & added & -> & Hadd & Hsub).
  rewrite length_app. destruct Hsame as [Hlen _].
  assert (length added <= length points0)%nat; [|lia].
  apply NoDup_bounded_length; [exact Hadd|].
  intros j Hj. apply Hsub, Hcp in Hj. lia.
Qed.

(** The expansion loop ends within its fuel and keeps the invariant. *)
Lemma expandLoop_inv cfg pinit (id : Z) points0 seeds0 (fuel : nat) :
  forall i seeds points cp,
  (0 <= id)%Z -> sameCoords pinit points0 ->
  expansionInv id points0 seeds0 (seeds, points, cp) ->
  (i <= length seeds)%nat ->
  (length seeds0 + length points0 < fuel + i)%nat ->
  exists seeds' points' cp',
    expandLoop fuel cfg id (Octree_of cfg pinit) i seeds points cp = Some (points', cp') /\
    expansionInv id points0 seeds0 (seeds', points', cp').
Proof.
  induction fuel as [|fuel IH]; intros i seeds points cp Hid Hinit Hinv Hi Hfuel.
  - pose proof (expansionInv_seeds_length _ _ _ _ _ _ Hinv). lia.
  - cbn [expandLoop]. destruct (seeds !! i) as [s|] eqn:Es.
    + apply lookup_lt_Some in Es.
      assert (Hsame : sameCoords pinit points).
      { destruct Hinv as (Hs & _). eapply sameCoords_trans; eassumption. }
      destruct (centroidNeighbours_snd cfg pinit points (points !!! s) Hsame)
        as [Hnd Hnb].
      destruct (MIN_CLUSTER_POINTS cfg <=? _)%nat.
      * pose proof (absorb_fold_inv id points0 seeds0 _ (seeds, points, cp)
                      Hid Hnd Hnb Hinv) as Hinv'.
        destruct (fold_left (absorb id) _ (seeds, points, cp))
          as [[seeds1 points1] cp1] eqn:Ef.
        apply IH; [exact Hid | exact Hinit | exact Hinv' | | lia].
        pose proof (absorb_fold_seeds_length id
                      (snd (centroidNeighbours cfg (points !!! s) points (Octree_of cfg pinit)))
                      (seeds, points, cp)) as Hmono.
        rewrite Ef in Hmono. cbn [fst] in Hmono. lia.
      * apply IH; [exact Hid | exact Hinit | exact Hinv | lia | lia].
    + exists seeds, points, cp. split; [reflexivity | exact Hinv].
Qed.

(** A tag only ever changes to the identifier of the cluster being expanded. *)
Lemma absorb_fold_tags (id : Z) (nb : list nat) : forall st j,
  tagOf (snd (fst (fold_left (absorb id) nb st))) j = tagOf (snd (fst st)) j \/
  tagOf (snd (fst (fold_left (absorb id) nb st))) j = id.
Proof.
  induction nb as [|a nb IH]; intros [[seeds points] cp] j; [left; reflexivity|].
  cbn [fold_left]. destruct (IH (absorb id (seeds, points, cp) a) j) as [E | E];
    [|right; exact E].
  rewrite E. unfold absorb. cbn [fst snd].
  destruct (decide (j = a)) as [-> | Hne].
  - destruct (decide (a < length points)%nat) as [Ha | Ha].
    + right. apply tagOf_setClusterIDAt_eq. exact Ha.
    + left. unfold setClusterIDAt. rewrite list_insert_ge by lia. reflexivity.
  - left. apply tagOf_setClusterIDAt_ne. exact Hne.
Qed.

Lemma expandLoop_tags cfg map (id : Z) (fuel : nat) :
  forall i seeds points cp points' cp',
  expandLoop fuel cfg id map i seeds points cp = Some (points', cp') ->
  forall j, tagOf points' j = tagOf points j \/ tagOf points' j = id.
Proof.
  induction fuel as [|fuel IH]; intros i seeds points cp points' cp' E j;
    [discriminate|].
  cbn [expandLoop] in E. destruct (seeds !! i) as [s|].
  - destruct (MIN_CLUSTER_POINTS cfg <=? _)%nat.
    + pose proof (absorb_fold_tags id
                    (snd (centroidNeighbours cfg (points !!! s) points map))
                    (seeds, points, cp) j) as Hf.
      destruct (fold_left (absorb id) _ (seeds, points, cp)) as [[seeds1 points1] cp1].
      cbn [fst snd] in Hf.
      destruct (IH _ _ _ _ _ _ E j) as [E1 | E1]; [|right; exact E1].
      rewrite E1. exact Hf.
    + exact (IH _ _ _ _ _ _ E j).
  - injection E as <- _. left. reflexivity.
Qed.

(** The first loop of [expandCluster] tags the seeds and nothing else. *)
Lemma tagSeed_fold (id : Z) (centroid : nat) (seeds : list nat) : forall st,
  let st' := fold_left (tagSeed id centroid) seeds st in
  sameCoords (fst (fst st)) (fst (fst st')) /\
  (forall j, j ∈ seeds -> (j < length (fst (fst st)))%nat -> tagOf (fst (fst st')) j = id) /\
  (forall j, j ∉ seeds -> tagOf (fst (fst st')) j = tagOf (fst (fst st)) j).
Proof.
  induction seeds as [|a seeds IH]; intros [[points index] icp]; cbn [fold_left fst].
  - split; [apply sameCoords_refl|]. split; [|reflexivity].
    intros j Hj. apply elem_of_nil in Hj. destruct Hj.
  - specialize (IH (tagSeed id centroid (points, index, icp) a)).
    cbv zeta in IH. unfold tagSeed at 2 4 6 in IH. cbn [fst] in IH.
    destruct IH as (Hsame & Hin & Hout). split; [|split].
    + eapply sameCoords_trans; [|exact Hsame]. apply sameCoords_set, sameCoords_refl.
    + intros j Hj Hlt. destruct (decide (j ∈ seeds)) as [Hjs | Hjs].
      * apply Hin; [exact Hjs|]. rewrite length_setClusterIDAt. exact Hlt.
      * rewrite Hout by exact Hjs. apply elem_of_cons in Hj as [-> | Hj];
          [|contradiction]. apply tagOf_setClusterIDAt_eq. exact Hlt.
    + intros j Hj. apply not_elem_of_cons in Hj as [Hne Hj].
      rewrite Hout by exact Hj. apply tagOf_setClusterIDAt_ne. exact Hne.
Qed.

(** The position remembered by the first loop is the initial one or the
    position of a seed. *)
Lemma tagSeed_fold_index (id : Z) (centroid : nat) (seeds : list nat) : forall st,
  let st' := fold_left (tagSeed id centroid) seeds st in
  snd st' = snd st \/ (snd (fst st) <= snd st' < snd (fst st) + length seeds)%nat.
Proof.
  induction seeds as [|a seeds IH]; intros [[points index] icp]; cbn [fold_left].
  - left. reflexivity.
  - specialize (IH (tagSeed id centroid (points, index, icp) a)). cbv zeta in IH.
    assert (Hst : snd (fst (tagSeed id centroid (points, index, icp) a)) = S index /\
                  (snd (tagSeed id centroid (points, index, icp) a) = icp \/
                   snd (tagSeed id centroid (points, index, icp) a) = index)).
    { unfold tagSeed. cbn [fst snd]. split; [reflexivity|].
      destruct (Point_eqb _ _); [right | left]; reflexivity. }
    destruct Hst as [E1 E2]. rewrite E1 in IH. cbn [fst snd length].
    destruct IH as [IH | IH]; [rewrite IH; destruct E2 as [-> | ->]|]; [left | right | right];
      try reflexivity; lia.
Qed.

(** What one call of [expandCluster] does, for a cluster identifier that is
    not negative and an octree built over the vector's coordinates, when a
    cluster needs a point or the centroid has a seed.  The call ends; it
    fails exactly when fewer than [MIN_CLUSTER_POINTS] points of the
    centroid's sphere have a negative tag, and then only tags the centroid as
    noise; otherwise it returns distinct indices: the points that had a
    negative tag and now carry the identifier, the seeds among them.  No
    other tag has changed. *)
Lemma expandCluster_spec cfg pinit points (k : nat) (id : Z) :
  sameCoords pinit points -> (0 <= id)%Z ->
  let seeds := snd (centroidNeighbours cfg (points !!! k) points (Octree_of cfg pinit)) in
  (0 < MIN_CLUSTER_POINTS cfg \/ 0 < length seeds)%nat ->
  exists points' b cl,
    expandCluster cfg k id points (Octree_of cfg pinit) = Some (points', (b, cl)) /\
    (b = false <-> (length seeds < MIN_CLUSTER_POINTS cfg)%nat) /\
    (b = false -> points' = setClusterIDAt k cNoise points /\ cl = []) /\
    (b = true ->
       sameCoords points points' /\
       (forall j, (j < length points)%nat ->
          (tagOf points' j = tagOf points j /\ j ∉ cl) \/
          ((tagOf points j < 0)%Z /\ tagOf points' j = id /\ j ∈ cl)) /\
       NoDup cl /\
       (forall j, j ∈ cl -> (j < length points)%nat) /\
       (forall j, j ∈ seeds -> j ∈ cl)).
Proof.
  intros Hsame Hid seeds Hdef. unfold expandCluster. fold seeds.
  destruct (centroidNeighbours_snd cfg pinit points (points !!! k) Hsame)
    as [Hnd Hnb]. fold seeds in Hnd, Hnb.
  destruct (Nat.ltb_spec (length seeds) (MIN_CLUSTER_POINTS cfg)) as [Hlt | Hge].
  - exists (setClusterIDAt k cNoise points), false, [].
    split; [reflexivity|]. split; [tauto|]. split; [tauto | discriminate].
  - destruct (tagSeed_fold id k seeds (points, O, O)) as (Hs1 & Hin1 & Hout1).
    pose proof (tagSeed_fold_index id k seeds (points, O, O)) as Hicp.
    destruct (fold_left (tagSeed id k) seeds (points, O, O))
      as [[points1 index1] icp] eqn:Ef.
    cbn [fst snd] in Hs1, Hin1, Hout1, Hicp.
    destruct (Nat.ltb_spec icp (length seeds)) as [_ | Hbad]; [|lia].
    set (seeds0 := delete icp seeds).
    assert (Hinv : expansionInv id points seeds0 (seeds0, points1, seeds)).
    { unfold expansionInv. destruct Hs1 as [Hl1 Hc1]. rewrite Hl1.
      split; [split; assumption|]. split; [|split; [|split]].
      - intros j Hj. destruct (decide (j ∈ seeds)) as [Hjs | Hjs].
        + right. split; [apply Hnb; exact Hjs|].
          split; [apply Hin1; assumption | exact Hjs].
        + left. split; [apply Hout1; exact Hjs | exact Hjs].
      - exact Hnd.
      - intros j Hj. apply Hnb. exact Hj.
      - exists []. rewrite app_nil_r. split; [reflexivity|]. split; [constructor|].
        intros j Hj. apply elem_of_nil in Hj. destruct Hj. }
    destruct (expandLoop_inv cfg pinit id points seeds0 (expandFuel seeds0 points1)
                O seeds0 points1 seeds Hid Hsame Hinv)
      as (seeds' & points' & cl & Eloop & Hinv').
    { lia. }
    { unfold expandFuel. destruct Hs1 as [Hl1 _]. rewrite Hl1. lia. }
    rewrite Eloop. exists points', true, cl.
    split; [reflexivity|]. split; [split; [discriminate | lia]|].
    split; [discriminate|]. intros _.
    destruct Hinv' as (Hsame' & Hframe & Hndcl & Hcl & _).
    destruct Hsame' as [Hl' Hc']. rewrite Hl' in Hframe, Hcl.
    split; [split; assumption|]. split; [exact Hframe|]. split; [exact Hndcl|].
    split; [exact Hcl|].
    intros j Hj. destruct (Hnb j Hj) as [Hjl Hjn].
    assert (Ht : tagOf points' j = id).
    { destruct (expandLoop_tags _ _ _ _ _ _ _ _ _ _ Eloop j) as [E | E]; [|exact E].
      rewrite E. apply Hin1; assumption. }
    destruct (Hframe j Hjl) as [[E _] | (_ & _ & Hin)]; [lia | exact Hin].
Qed.

(** A centroid with a negative tag is among its own neighbours when the
    radius is not negative. *)
Lemma centroid_in_seeds cfg pinit points (k : nat) :
  sameCoords pinit points -> 0 <= CLUSTER_POINT_PROXIMITY cfg ->
  (k < length points)%nat -> (tagOf points k < 0)%Z ->
  k ∈ snd (centroidNeighbours cfg (points !!! k) points (Octree_of cfg pinit)).
Proof.
  intros Hsame Hr Hk Ht. unfold centroidNeighbours. cbn [snd].
  apply elem_of_List_filter. split; [|apply Z.ltb_lt; exact Ht].
  apply (searchNeighbors_during cfg pinit points _ _ sphere Hsame).
  split; [exact Hk|]. unfold inKernel, sqDistance3D.
  apply andb_true_iff. rewrite !Qle_bool_iff. split; [exact Hr|].
  pose proof (Qsquare_nonneg (CLUSTER_POINT_PROXIMITY cfg)).
  assert (E : forall a : Q, (a - a) * (a - a) == 0) by (intros a; ring).
  rewrite !E. lra.
Qed.

(** No returned cluster holds the index [i]. *)
Definition inNoCluster (cls : list (list nat)) (i : nat) : Prop :=
  forall cl, cl ∈ cls -> i ∉ cl.

(** The invariant of the loop of [DBScan::clusters] before the point of
    index [k] is visited; [pinit] is the vector on entry.  The points of
    cluster [j] are tagged [j]; a point has its tag of entry or the tag
    [cNoise] and is in no cluster, or is in a cluster; no visited point is
    still unclassified. *)
Definition clustersInv (pinit : list Point) (k : nat)
    (st : Z * list (list nat) * list Point) : Prop :=
  let '(clusterID, cls, points) := st in
  clusterID = Z.of_nat (length cls) /\
  sameCoords pinit points /\
  (forall j cl, cls !! j = Some cl ->
     NoDup cl /\
     forall i, i ∈ cl -> (i < length points)%nat /\ tagOf points i = Z.of_nat j) /\
  (forall i, (i < length points)%nat ->
     (tagOf points i = tagOf pinit i /\ inNoCluster cls i) \/
     (tagOf points i = cNoise /\ inNoCluster cls i) \/
     (exists j cl, cls !! j = Some cl /\ i ∈ cl)) /\
  (forall i, (i < k)%nat -> (i < length points)%nat -> tagOf points i <> cUnclassified).

Lemma inNoCluster_snoc cls cl i :
  inNoCluster cls i -> i ∉ cl -> inNoCluster (cls ++ [cl]) i.
Proof.
  intros Hno Hout c Hc. apply elem_of_app in Hc as [Hc | Hc]; [apply Hno; exact Hc|].
  apply list_elem_of_singleton in Hc. subst c. exact Hout.
Qed.

Lemma clustersStep_inv cfg pinit (k : nat) st :
  0 <= CLUSTER_POINT_PROXIMITY cfg ->
  (k < length pinit)%nat ->
  clustersInv pinit k st ->
  exists st', clustersStep cfg (Octree_of cfg pinit) (Some st) k = Some st' /\
    clustersInv pinit (S k) st'.
Proof.
  intros Hr Hk. destruct st as [[clusterID cls] points].
  intros (Hid & Hsame & Hcls & Htri & Hdone).
  pose proof Hsame as [Hlen _].
  assert (Hkp : (k < length points)%nat) by lia.
  cbn [clustersStep]. destruct (Z.eqb_spec (getClusterID (points !!! k)) cUnclassified)
    as [Hu | Hu].
  - assert (Hid0 : (0 <= clusterID)%Z) by lia.
    assert (Hkin : k ∈ snd (centroidNeighbours cfg (points !!! k) points
                              (Octree_of cfg pinit))).
    { apply centroid_in_seeds; try assumption. unfold tagOf. rewrite Hu. reflexivity. }
    assert (Hkno : inNoCluster cls k).
    { intros c Hc Hin. apply list_elem_of_lookup in Hc as [j Hj].
      destruct (Hcls j c Hj) as [_ Hc']. destruct (Hc' k Hin) as [_ Ht].
      unfold tagOf in Ht. rewrite Hu in Ht. unfold cUnclassified in Ht. lia. }
    destruct (expandCluster_spec cfg pinit points k clusterID Hsame Hid0)
      as (points' & b & cl & E & Hb & Hfalse & Htrue).
    { right. destruct (snd (centroidNeighbours cfg (points !!! k) points
                              (Octree_of cfg pinit)));
        [apply elem_of_nil in Hkin; destruct Hkin | cbn [length]; lia]. }
    rewrite E. destruct b.
    + destruct (Htrue eq_refl) as (Hs' & Hframe & Hnd & Hcl & Hseeds).
      clear Hfalse Htrue. pose proof Hs' as [Hlen' _].
      assert (Hmem : forall i, i ∈ cl -> tagOf points' i = clusterID).
      { intros i Hi. destruct (Hframe i (Hcl i Hi)) as [[_ H] | (_ & H & _)];
          [contradiction | exact H]. }
      eexists. split; [reflexivity|]. unfold clustersInv.
      rewrite length_app, Hlen'. cbn [length].
      split; [lia|]. split; [eapply sameCoords_trans; eassumption|].
      split; [|split].
      * intros j c Hj. apply lookup_app_Some in Hj as [Hj | [Hge Hj]].
        -- destruct (Hcls j c Hj) as [Hndc Hc]. split; [exact Hndc|].
           intros i Hi. destruct (Hc i Hi) as [Hil Ht]. split; [exact Hil|].
           destruct (Hframe i Hil) as [[Ef _] | (Hneg & _)]; lia.
        -- destruct (j - length cls)%nat as [|d] eqn:Ed; [|destruct d; discriminate].
           injection Hj as <-. assert (j = length cls) as -> by lia.
           split; [exact Hnd|]. intros i Hi. split; [apply Hcl; exact Hi|].
           rewrite <- Hid. apply Hmem. exact Hi.
      * intros i Hi. destruct (Hframe i Hi) as [[Ef Hout] | (Hneg & Ef & Hin)].
        -- rewrite Ef.
           destruct (Htri i Hi) as [[Ht Hno] | [[Ht Hno] | (j & c & Hj & Hic)]].
           ++ left. split; [exact Ht | apply inNoCluster_snoc; assumption].
           ++ right. left. split; [exact Ht | apply inNoCluster_snoc; assumption].
           ++ right. right. exists j, c. split; [|exact Hic].
              apply lookup_app_l_Some. exact Hj.
        -- right. right. exists (length cls), cl. split; [|exact Hin].
           rewrite lookup_app_r by lia. rewrite Nat.sub_diag. reflexivity.
      * intros i Hi Hil. destruct (decide (i = k)) as [-> | Hne].
        -- rewrite (Hmem k (Hseeds k Hkin)). unfold cUnclassified. lia.
        -- destruct (Hframe i Hil) as [[Ef _] | (_ & Ef & _)].
           ++ rewrite Ef. apply Hdone; [lia | exact Hil].
           ++ unfold cUnclassified. lia.
    + destruct (Hfalse eq_refl) as [-> _]. clear Hfalse Htrue.
      eexists. split; [reflexivity|]. unfold clustersInv.
      rewrite length_setClusterIDAt.
      split; [exact Hid|]. split; [apply sameCoords_set; exact Hsame|].
      split; [|split].
      * intros j c Hj. destruct (Hcls j c Hj) as [Hndc Hc]. split; [exact Hndc|].
        intros i Hi. destruct (Hc i Hi) as [Hil Ht]. split; [exact Hil|].
        rewrite tagOf_setClusterIDAt_ne; [exact Ht|].
        intros ->. apply (Hkno c); [|exact Hi].
        apply list_elem_of_lookup. exists j. exact Hj.
      * intros i Hi. destruct (decide (i = k)) as [-> | Hne].
        -- right. left. split; [apply tagOf_setClusterIDAt_eq; exact Hkp | exact Hkno].
        -- rewrite tagOf_setClusterIDAt_ne by exact Hne. apply Htri. exact Hi.
      * intros i Hi Hil. destruct (decide (i = k)) as [-> | Hne].
        -- rewrite tagOf_setClusterIDAt_eq by exact Hkp. discriminate.
        -- rewrite tagOf_setClusterIDAt_ne by exact Hne. apply Hdone; [lia | exact Hil].
  - eexists. split; [reflexivity|]. unfold clustersInv.
    split; [exact Hid|]. split; [exact Hsame|]. split; [exact Hcls|].
    split; [exact Htri|].
    intros i Hi Hil. destruct (decide (i = k)) as [-> | Hne]; [exact Hu|].
    apply Hdone; [lia | exact Hil].
Qed.

Lemma clustersLoop_inv cfg pinit :
  0 <= CLUSTER_POINT_PROXIMITY cfg ->
  forall (m k : nat) st, (k + m = length pinit)%nat ->
  clustersInv pinit k st ->
  exists st', fold_left (clustersStep cfg (Octree_of cfg pinit)) (seq k m) (Some st)
              = Some st' /\
    clustersInv pinit (k + m) st'.
Proof.
  intros Hr. induction m as [|m IH]; intros k st Hkm Hinv.
  - exists st. rewrite Nat.add_0_r. split; [reflexivity | exact Hinv].
  - cbn [seq fold_left].
    destruct (clustersStep_inv cfg pinit k st Hr) as (st1 & E1 & Hinv1);
      [lia | exact Hinv |].
    rewrite E1. destruct (IH (S k) st1) as (st' & E' & Hinv'); [lia | exact Hinv1 |].
    exists st'. split; [exact E'|]. replace (k + S m)%nat with (S k + m)%nat by lia.
    exact Hinv'.
Qed.

(** The seeds of a centroid are counted by a linear scan as well. *)
Lemma centroidNeighbours_count cfg pinit points centroid :
  sameCoords pinit points ->
  length (snd (centroidNeighbours cfg centroid points (Octree_of cfg pinit)))
  = length (List.filter (fun i => (tagOf points i <? 0)%Z)
              (linearScan points centroid (CLUSTER_POINT_PROXIMITY cfg) sphere)).
Proof.
  intros Hsame. unfold centroidNeighbours. cbn [snd].
  apply Permutation_length, filter_Permutation.
  rewrite (Octree_of_search cfg pinit points) by exact Hsame.
  unfold linearScan. apply filter_Permutation.
  rewrite Octree_of_stored. destruct Hsame as [-> _]. reflexivity.
Qed.

(** *** Examples: a configuration and two small point vectors *)

(** Radii of 10 mm, clusters and faces of at least 4 and 2 points, leaves of
    at most one point down to half a millimetre. *)
Definition exampleConfig : Config := mkConfig 10 4 10 2 10 1 (1 # 2).

(** A point of the plane z = 0, tag [cUnclassified]. *)
Definition planePoint (x y : Z) : Point := Point3 (inject_Z x) (inject_Z y) 0.

(** A cross of four points around the origin, whose arm (10,0) is also at
    distance 10 of a second group of three points. *)
Definition crossAndTail : list Point :=
  [planePoint 0 0; planePoint 10 0; planePoint (-10) 0; planePoint 0 10;
   planePoint 20 0; planePoint 30 0; planePoint 20 10].

(** C2 (amended): for a proximity radius that is not negative and every
    input vector, [DBScan::clusters] returns; the returned index lists are
    duplicate-free and pairwise disjoint; when the call returns, every point
    is in one of three cases: it is tagged with the position of the one
    returned list that holds its index; or it is tagged [cNoise] and is in no
    list; or it is in no list and keeps the tag it had on entry, which was
    not [cUnclassified].  No point is left [cUnclassified].  When every point
    is [cUnclassified] or [cNoise] on entry, the third case adds nothing to
    the second, and no point is left [cCorePoint] or [cBorderPoint]. *)
Theorem clusters_partition (cfg : Config) (points : list Point) :
  0 <= CLUSTER_POINT_PROXIMITY cfg ->
  exists cls points',
    clusters cfg points = Some (cls, points') /\
    sameCoords points points' /\
    (forall cl, cl ∈ cls -> NoDup cl) /\
    (forall j j' cl cl' i,
       cls !! j = Some cl -> cls !! j' = Some cl' -> i ∈ cl -> i ∈ cl' -> j = j') /\
    (forall i, (i < length points)%nat ->
       (exists j cl, tagOf points' i = Z.of_nat j /\ cls !! j = Some cl /\ i ∈ cl) \/
       (tagOf points' i = cNoise /\ inNoCluster cls i) \/
       (tagOf points' i = tagOf points i /\ tagOf points i <> cUnclassified /\
        inNoCluster cls i)) /\
    (forall i, (i < length points)%nat -> tagOf points' i <> cUnclassified) /\
    ((forall i, (i < length points)%nat ->
        tagOf points i = cUnclassified \/ tagOf points i = cNoise) ->
     forall i, (i < length points)%nat ->
       ((exists j cl, tagOf points' i = Z.of_nat j /\ cls !! j = Some cl /\ i ∈ cl) \/
        (tagOf points' i = cNoise /\ inNoCluster cls i)) /\
       tagOf points' i <> cCorePoint /\ tagOf points' i <> cBorderPoint).
Proof.
  intros Hr. unfold clusters.
  destruct (clustersLoop_inv cfg points Hr (length points) O (0%Z, [], points))
    as ([[clusterID cls] points'] & E & Hinv).
  { reflexivity. }
  { unfold clustersInv. cbn [length]. split; [reflexivity|].
    split; [apply sameCoords_refl|]. split; [|split].
    - intros j cl Hj. rewrite lookup_nil in Hj. discriminate.
    - intros i Hi. left. split; [reflexivity|].
      intros cl Hcl. apply elem_of_nil in Hcl. destruct Hcl.
    - intros i Hi. lia. }
  rewrite E. cbn [Nat.add] in Hinv.
  destruct Hinv as (Hid & Hsame & Hcls & Htri & Hdone).
  pose proof Hsame as [Hlen _].
  assert (Hmem : forall j cl i, cls !! j = Some cl -> i ∈ cl ->
            tagOf points' i = Z.of_nat j).
  { intros j cl i Hj Hi. apply (Hcls j cl Hj). exact Hi. }
  assert (Htags : forall i, (i < length points)%nat ->
            (exists j cl, tagOf points' i = Z.of_nat j /\ cls !! j = Some cl /\ i ∈ cl) \/
            (tagOf points' i = cNoise /\ inNoCluster cls i) \/
            (tagOf points' i = tagOf points i /\ tagOf points i <> cUnclassified /\
             inNoCluster cls i)).
  { intros i Hi. rewrite <- Hlen in Hi.
    destruct (Htri i Hi) as [[Ht Hno] | [[Ht Hno] | (j & c & Hj & Hic)]].
    - right. right. split; [exact Ht|]. split; [|exact Hno].
      rewrite <- Ht. apply Hdone; [lia | exact Hi].
    - right. left. split; assumption.
    - left. exists j, c. split; [eapply Hmem; eassumption|]. split; assumption. }
  exists cls, points'. split; [reflexivity|]. split; [exact Hsame|].
  split; [|split; [|split; [|split]]].
  - intros cl Hcl. apply list_elem_of_lookup in Hcl as [j Hj].
    apply (Hcls j cl Hj).
  - intros j j' cl cl' i Hj Hj' Hi Hi'.
    pose proof (Hmem j cl i Hj Hi). pose proof (Hmem j' cl' i Hj' Hi'). lia.
  - exact Htags.
  - intros i Hi. apply Hdone; lia.
  - intros Hentry i Hi. unfold cCorePoint, cBorderPoint.
    destruct (Htags i Hi) as [(j & c & Ht & Hj & Hic) | [[Ht Hno] | (Ht & Hnu & Hno)]].
    + split; [|lia]. left. exists j, c. split; [exact Ht|]. split; assumption.
    + split; [|unfold cNoise in Ht; lia]. right. split; assumption.
    + destruct (Hentry i Hi) as [H | H]; [contradiction|].
      split; [|unfold cNoise in H; lia]. right. split; [|exact Hno].
      rewrite Ht. exact H.
Qed.

(** The statement holds of the cross and its tail. *)
Lemma clusters_partition_witness :
  exists cls points',
    clusters exampleConfig crossAndTail = Some (cls, points') /\
    sameCoords crossAndTail points' /\
    (forall cl, cl ∈ cls -> NoDup cl) /\
    (forall j j' cl cl' i,
       cls !! j = Some cl -> cls !! j' = Some cl' -> i ∈ cl -> i ∈ cl' -> j = j') /\
    (forall i, (i < length crossAndTail)%nat ->
       (exists j cl, tagOf points' i = Z.of_nat j /\ cls !! j = Some cl /\ i ∈ cl) \/
       (tagOf points' i = cNoise /\ inNoCluster cls i) \/
       (tagOf points' i = tagOf crossAndTail i /\ tagOf crossAndTail i <> cUnclassified /\
        inNoCluster cls i)) /\
    (forall i, (i < length crossAndTail)%nat -> tagOf points' i <> cUnclassified) /\
    ((forall i, (i < length crossAndTail)%nat ->
        tagOf crossAndTail i = cUnclassified \/ tagOf crossAndTail i = cNoise) ->
     forall i, (i < length crossAndTail)%nat ->
       ((exists j cl, tagOf points' i = Z.of_nat j /\ cls !! j = Some cl /\ i ∈ cl) \/
        (tagOf points' i = cNoise /\ inNoCluster cls i)) /\
       tagOf points' i <> cCorePoint /\ tagOf points' i <> cBorderPoint).
Proof.
  apply (clusters_partition exampleConfig crossAndTail).
  vm_compute. discriminate.
Defined.

(** C2, as stated, fails on a vector that holds a point already tagged
    [cCorePoint]: the point is never visited and keeps its tag, and no
    cluster is returned. *)
Lemma clusters_keeps_foreign_tag :
  clusters exampleConfig [mkPoint 0 0 0 cCorePoint]
  = Some ([], [mkPoint 0 0 0 cCorePoint]).
Proof. vm_compute. reflexivity. Qed.

(** C3 (amended): for a proximity radius that is not negative, a centroid
    visited while [cUnclassified] is tagged [cNoise] exactly when fewer than
    [MIN_CLUSTER_POINTS] points of its sphere have a negative tag, that is
    belong to no cluster yet; points of the sphere that an earlier cluster
    holds do not count. *)
Theorem expandCluster_noise_iff (cfg : Config) (pinit points : list Point)
    (k : nat) (id : Z) :
  sameCoords pinit points -> (0 <= id)%Z -> 0 <= CLUSTER_POINT_PROXIMITY cfg ->
  (k < length points)%nat -> tagOf points k = cUnclassified ->
  exists points' r,
    expandCluster cfg k id points (Octree_of cfg pinit) = Some (points', r) /\
    (tagOf points' k = cNoise <->
     (length (List.filter (fun i => (tagOf points i <? 0)%Z)
                (linearScan points (points !!! k) (CLUSTER_POINT_PROXIMITY cfg) sphere))
      < MIN_CLUSTER_POINTS cfg)%nat).
Proof.
  intros Hsame Hid Hr Hk Hu.
  assert (Hkin : k ∈ snd (centroidNeighbours cfg (points !!! k) points
                            (Octree_of cfg pinit))).
  { apply centroid_in_seeds; try assumption. rewrite Hu. reflexivity. }
  destruct (expandCluster_spec cfg pinit points k id Hsame Hid)
    as (points' & b & cl & E & Hb & Hfalse & Htrue).
  { right. destruct (snd (centroidNeighbours cfg (points !!! k) points
                            (Octree_of cfg pinit)));
      [apply elem_of_nil in Hkin; destruct Hkin | cbn [length]; lia]. }
  rewrite (centroidNeighbours_count cfg pinit points _ Hsame) in Hb.
  exists points', (b, cl). split; [exact E|]. rewrite <- Hb.
  destruct b.
  - destruct (Htrue eq_refl) as (_ & Hframe & _).
    split; [|discriminate]. intros Hn. exfalso.
    destruct (Hframe k Hk) as [[Ef _] | (_ & Ef & _)]; rewrite Ef in Hn;
      unfold cNoise, cUnclassified in *; lia.
  - destruct (Hfalse eq_refl) as [-> _]. split; [reflexivity|]. intros _.
    apply tagOf_setClusterIDAt_eq. exact Hk.
Qed.

(** The vector [crossAndTail] once the cross has been clustered as cluster 0. *)
Definition crossClustered : list Point :=
  [mkPoint 0 0 0 0; mkPoint 10 0 0 0; mkPoint (-10) 0 0 0; mkPoint 0 10 0 0;
   planePoint 20 0; planePoint 30 0; planePoint 20 10].

Lemma expandCluster_noise_iff_witness :
  exists points' r,
    expandCluster exampleConfig 4 1 crossClustered (Octree_of exampleConfig crossAndTail)
    = Some (points', r) /\
    (tagOf points' 4 = cNoise <->
     (length (List.filter (fun i => (tagOf crossClustered i <? 0)%Z)
                (linearScan crossClustered (crossClustered !!! 4%nat)
                   (CLUSTER_POINT_PROXIMITY exampleConfig) sphere))
      < MIN_CLUSTER_POINTS exampleConfig)%nat).
Proof.
  apply (expandCluster_noise_iff exampleConfig crossAndTail crossClustered 4 1).
  - split; [reflexivity|]. intros i.
    do 7 (destruct i as [|i]; [reflexivity|]). reflexivity.
  - lia.
  - vm_compute. discriminate.
  - simpl. lia.
  - reflexivity.
Defined.

(** C3, as stated, fails on [crossAndTail]: the run of [clusters] tags the
    point of index 4 as noise, although its sphere holds four points of the
    array, which is not fewer than [MIN_CLUSTER_POINTS]: one of the four
    already belongs to cluster 0. *)
Lemma noise_despite_full_sphere :
  option_map (fun r => (fst r, map getClusterID (snd r)))
    (clusters exampleConfig crossAndTail)
  = Some ([[2; 0; 3; 1]%nat], [0; 0; 0; 0; cNoise; cNoise; cNoise]%Z) /\
  linearScan crossAndTail (crossAndTail !!! 4%nat)
    (CLUSTER_POINT_PROXIMITY exampleConfig) sphere = [1; 4; 5; 6]%nat /\
  MIN_CLUSTER_POINTS exampleConfig = 4%nat /\
  option_map (fun r => (tagOf (fst r) 4, snd r))
    (expandCluster exampleConfig 4 1 crossClustered (Octree_of exampleConfig crossAndTail))
  = Some (cNoise, (false, [])).
Proof. vm_compute. repeat split; reflexivity. Qed.

(** ** object_characterization/DBScan.cc: normal-coherent DBSCAN

    [models/Geometry.hh] is not part of the sources at hand, and the angle
    thresholds of [app/config.h] are real numbers (radians).  The pass is
    therefore stated over:
    - [angleLe a b t], the comparison [a.vectorialAngle(b) <= t] for a
      threshold [t] of a type [Angle];
    - the three thresholds;
    - [mean], the function [Geometry::mean];
    - [computeNormals], the function [Geometry::computeNormals]. *)

(** A turn of the expansion loop that absorbed neighbours: the seed, the
    mean normal the turn computed, the cluster when the turn began, and the
    indices the turn absorbed, in order. *)
Record Turn : Type := mkTurn {
  turnSeed : nat;
  turnMean : Vector;
  turnCluster : list nat;
  turnAbsorbed : list nat
}.

Section NormalCoherent.

Context {Angle : Type}.
Variable angleLe : Vector -> Vector -> Angle -> bool.
Variables MAX_NORMAL_VECT_ANGLE MAX_MEAN_VECT_ANGLE MAX_MEAN_VECT_ANGLE_SINGLE : Angle.
Variable mean : list Vector -> Vector.
Variable computeNormals : list Point -> Octree -> Q -> list Vector.

(** The condition of [centroidNormalNeighbours] on the neighbour [i] of the
    point [centroid]: a normal that is not zero, and the pair test with the
    mean test, or the mean-only test. *)
Definition normalCoherent (centroid : nat) (meanNormal : Vector)
    (normals : list Vector) (i : nat) : bool :=
  Point_neqb (normals !!! i) (Point3 0 0 0)
  && ((angleLe (normals !!! centroid) (normals !!! i) MAX_NORMAL_VECT_ANGLE
       && angleLe meanNormal (normals !!! i) MAX_MEAN_VECT_ANGLE)
      || angleLe meanNormal (normals !!! i) MAX_MEAN_VECT_ANGLE_SINGLE).

(** [DBScan::centroidNormalNeighbours]: the number of points of the sphere
    around [points[centroid]] that satisfy the condition, and the indices of
    those whose cluster tag is negative. *)
Definition centroidNormalNeighbours (cfg : Config) (centroid : nat) (meanNormal : Vector)
    (points : list Point) (normals : list Vector) (map : Octree) : nat * list nat :=
  let neighbourPoints :=
    searchNeighbors points map (points !!! centroid) (FACE_POINT_PROXIMITY cfg) sphere in
  let coherent := List.filter (normalCoherent centroid meanNormal normals) neighbourPoints in
  (length coherent,
   List.filter (fun i => (getClusterID (points !!! i) <? 0)%Z) coherent).

(** The first loop of [expandNormalCluster] on the seed [i].  The state is
    [(points, clusterNormals, index, indexCorePoint)]. *)
Definition tagNormalSeed (clusterID : Z) (centroid : nat) (normals : list Vector)
    (st : list Point * list Vector * nat * nat) (i : nat)
    : list Point * list Vector * nat * nat :=
  let '(points, clusterNormals, index, indexCorePoint) := st in
  let points := setClusterIDAt i clusterID points in
  let indexCorePoint :=
    if Point_eqb (points !!! i) (points !!! centroid) then index else indexCorePoint in
  (points, clusterNormals ++ [normals !!! i], S index, indexCorePoint).

(** The innermost loop of [expandNormalCluster] on the neighbour [i].  The
    state is [(seeds, points, clusterNormals, clusterPoints)]. *)
Definition absorbNormal (clusterID : Z) (normals : list Vector)
    (st : list nat * list Point * list Vector * list nat) (i : nat)
    : list nat * list Point * list Vector * list nat :=
  let '(seeds, points, clusterNormals, clusterPoints) := st in
  let seeds :=
    if (getClusterID (points !!! i) =? cUnclassified)%Z then seeds ++ [i] else seeds in
  (seeds, setClusterIDAt i clusterID points, clusterNormals ++ [normals !!! i],
   clusterPoints ++ [i]).

(** The expansion loop of [expandNormalCluster].  [turns] is not a variable
    of the program: it records the turns that absorbed neighbours, for the
    statements below. *)
Fixpoint expandNormalLoop (fuel : nat) (cfg : Config) (clusterID : Z)
    (normals : list Vector) (map : Octree) (i : nat) (seeds : list nat)
    (points : list Point) (clusterNormals : list Vector) (clusterPoints : list nat)
    (turns : list Turn) : option (list Point * list nat * list Turn) :=
  match fuel with
  | O => None
  | S fuel' =>
      match seeds !! i with
      | None => Some (points, clusterPoints, turns)
      | Some s =>
          let meanNormal := mean clusterNormals in
          let clusterNeighbours :=
            centroidNormalNeighbours cfg s meanNormal points normals map in
          if (MIN_FACE_POINTS cfg <=? fst clusterNeighbours)%nat
          then
            let turn := mkTurn s meanNormal clusterPoints (snd clusterNeighbours) in
            let '(seeds, points, clusterNormals, clusterPoints) :=
              fold_left (absorbNormal clusterID normals) (snd clusterNeighbours)
                (seeds, points, clusterNormals, clusterPoints) in
            expandNormalLoop fuel' cfg clusterID normals map (S i) seeds points
              clusterNormals clusterPoints (turns ++ [turn])
          else
            expandNormalLoop fuel' cfg clusterID normals map (S i) seeds points
              clusterNormals clusterPoints turns
      end
  end.

(** [DBScan::expandNormalCluster]: the vector after the call, the returned
    pair, and the record of the turns.  As in [expandCluster], the call has
    no result when the erased position is not one of the seeds. *)
Definition expandNormalCluster (cfg : Config) (centroid : nat) (clusterID : Z)
    (points : list Point) (normals : list Vector) (map : Octree)
    : option (list Point * (bool * list nat) * list Turn) :=
  let clusterSeeds :=
    centroidNormalNeighbours cfg centroid (normals !!! centroid) points normals map in
  if (length (snd clusterSeeds) <? MIN_FACE_POINTS cfg)%nat
  then Some (setClusterIDAt centroid cNoise points, (false, []), [])
  else
    let clusterPoints := snd clusterSeeds in
    let '(points, clusterNormals, _, indexCorePoint) :=
      fold_left (tagNormalSeed clusterID centroid normals) (snd clusterSeeds)
        (points, [], O, O) in
    if (indexCorePoint <? length (snd clusterSeeds))%nat
    then
      let seeds := delete indexCorePoint (snd clusterSeeds) in
      match expandNormalLoop (expandFuel seeds points) cfg clusterID normals map 0 seeds
              points clusterNormals clusterPoints [] with
      | Some (points, clusterPoints, turns) => Some (points, (true, clusterPoints), turns)
      | None => None
      end
    else None.

(** One turn of the loop of [DBScan::normals] on the point of index [i].
    The state is [(clusterID, faces, points)]. *)
Definition normalsStep (cfg : Config) (normals : list Vector) (map : Octree)
    (st : option (Z * list (list nat) * list Point)) (i : nat)
    : option (Z * list (list nat) * list Point) :=
  match st with
  | None => None
  | Some (clusterID, faces, points) =>
      if (getClusterID (points !!! i) =? cUnclassified)%Z
         && Point_neqb (normals !!! i) (Point3 0 0 0)
      then
        match expandNormalCluster cfg i clusterID points normals map with
        | Some (points, (true, face), _) =>
            Some ((clusterID + 1)%Z, faces ++ [face], points)
        | Some (points, (false, _), _) => Some (clusterID, faces, points)
        | None => None
        end
      else Some (clusterID, faces, points)
  end.

(** [DBScan::normals]: the returned faces and the vector after the call.
    The pass reads [normals[i]] at indices of [points] only; the reads are
    defined when [computeNormals] returned a normal for each of them, and the
    call has no result ([None]) otherwise. *)
Definition normals (cfg : Config) (points : list Point)
    : option (list (list nat) * list Point) :=
  let clustermap := Octree_of cfg points in
  let normals := computeNormals points clustermap (NORMAL_CALC_POINT_PROXIMITY cfg) in
  if (length points <=? length normals)%nat
  then
    match fold_left (normalsStep cfg normals clustermap) (seq 0 (length points))
            (Some (0%Z, [], points)) with
    | Some (_, faces, points) => Some (faces, points)
    | None => None
    end
  else None.

(** *** The normal-coherent expansion follows the spatial one *)

Lemma absorb_fold_cluster (id : Z) (nb : list nat) : forall st,
  snd (fold_left (absorb id) nb st) = snd st ++ nb.
Proof.
  induction nb as [|a nb IH]; intros [[seeds points] cp]; cbn [fold_left].
  - cbn [snd]. rewrite app_nil_r. reflexivity.
  - rewrite IH. unfold absorb. cbn [snd]. rewrite <- app_assoc. reflexivity.
Qed.

(** The innermost loop of the normal-coherent pass does to the seeds, the
    tags and the cluster what the one of the spatial pass does, and appends
    the normals of the absorbed points. *)
Lemma absorbNormal_fold (id : Z) (normals : list Vector) (nb : list nat) :
  forall seeds points cn cp,
  fold_left (absorbNormal id normals) nb (seeds, points, cn, cp)
  = (fst (fst (fold_left (absorb id) nb (seeds, points, cp))),
     snd (fst (fold_left (absorb id) nb (seeds, points, cp))),
     cn ++ map (fun i => normals !!! i) nb,
     snd (fold_left (absorb id) nb (seeds, points, cp))).
Proof.
  induction nb as [|a nb IH]; intros seeds points cn cp; cbn [fold_left map].
  - rewrite app_nil_r. reflexivity.
  - unfold absorbNormal at 2. unfold absorb at 2 4 6.
    rewrite IH. rewrite <- app_assoc. reflexivity.
Qed.

Lemma tagNormalSeed_fold (id : Z) (centroid : nat) (normals : list Vector)
    (seeds : list nat) : forall points cn index icp,
  fold_left (tagNormalSeed id centroid normals) seeds (points, cn, index, icp)
  = (fst (fst (fold_left (tagSeed id centroid) seeds (points, index, icp))),
     cn ++ map (fun i => normals !!! i) seeds,
     snd (fst (fold_left (tagSeed id centroid) seeds (points, index, icp))),
     snd (fold_left (tagSeed id centroid) seeds (points, index, icp))).
Proof.
  induction seeds as [|a seeds IH]; intros points cn index icp; cbn [fold_left map].
  - rewrite app_nil_r. reflexivity.
  - unfold tagNormalSeed at 2. unfold tagSeed at 2 4 6.
    rewrite IH. rewrite <- app_assoc. reflexivity.
Qed.

Lemma centroidNormalNeighbours_snd cfg pinit points normals centroid meanNormal :
  sameCoords pinit points ->
  NoDup (snd (centroidNormalNeighbours cfg centroid meanNormal points normals
                (Octree_of cfg pinit))) /\
  forall i, i ∈ snd (centroidNormalNeighbours cfg centroid meanNormal points normals
                       (Octree_of cfg pinit)) ->
    (i < length points)%nat /\ (tagOf points i < 0)%Z /\
    normalCoherent centroid meanNormal normals i = true.
Proof.
  intros Hsame. unfold centroidNormalNeighbours. cbn [snd].
  destruct (searchNeighbors_during cfg pinit points (points !!! centroid)
              (FACE_POINT_PROXIMITY cfg) sphere Hsame) as (Hnd & Hin & _).
  split.
  - apply NoDup_List_filter, NoDup_List_filter. exact Hnd.
  - intros i Hi. apply elem_of_List_filter in Hi as [Hi Ht].
    apply elem_of_List_filter in Hi as [Hi Hc].
    apply Hin in Hi as [Hi _]. apply Z.ltb_lt in Ht. repeat split; assumption.
Qed.

(** The record of the turns against the cluster [cp] as it stands: the mean
    of a turn is the mean of the normals of the cluster when the turn began,
    every index the turn absorbed satisfied the condition for that mean, and
    the cluster begins with the cluster of the turn followed by what the turn
    absorbed. *)
Definition turnsOk (normals : list Vector) (cp : list nat) (turns : list Turn) : Prop :=
  forall t, t ∈ turns ->
    turnMean t = mean (map (fun i => normals !!! i) (turnCluster t)) /\
    (forall i, i ∈ turnAbsorbed t ->
       normalCoherent (turnSeed t) (turnMean t) normals i = true) /\
    exists rest, cp = turnCluster t ++ turnAbsorbed t ++ rest.

Lemma turnsOk_app normals cp more turns :
  turnsOk normals cp turns -> turnsOk normals (cp ++ more) turns.
Proof.
  intros H t Ht. destruct (H t Ht) as (Hm & Hc & rest & ->).
  split; [exact Hm|]. split; [exact Hc|].
  exists (rest ++ more). rewrite <- !app_assoc. reflexivity.
Qed.

(** The expansion loop of the normal-coherent pass ends within its fuel and
    keeps the invariant of an expansion, the cluster normals in step with the
    cluster, and the record of the turns. *)
Lemma expandNormalLoop_inv cfg pinit normals (id : Z) points0 seeds0 (fuel : nat) :
  forall i seeds points cn cp turns,
  (0 <= id)%Z -> sameCoords pinit points0 ->
  expansionInv id points0 seeds0 (seeds, points, cp) ->
  cn = map (fun j => normals !!! j) cp ->
  turnsOk normals cp turns ->
  (i <= length seeds)%nat ->
  (length seeds0 + length points0 < fuel + i)%nat ->
  exists seeds' points' cp' turns',
    expandNormalLoop fuel cfg id normals (Octree_of cfg pinit) i seeds points cn cp turns
    = Some (points', cp', turns') /\
    expansionInv id points0 seeds0 (seeds', points', cp') /\
    turnsOk normals cp' turns' /\
    (forall j, tagOf points' j = tagOf points j \/ tagOf points' j = id).
Proof.
  induction fuel as [|fuel IH]; intros i seeds points cn cp turns
    Hid Hinit Hinv Hcn Hturns Hi Hfuel.
  - pose proof (expansionInv_seeds_length _ _ _ _ _ _ Hinv). lia.
  - cbn [expandNormalLoop]. destruct (seeds !! i) as [s|] eqn:Es.
    + apply lookup_lt_Some in Es.
      assert (Hsame : sameCoords pinit points).
      { destruct Hinv as (Hs & _). eapply sameCoords_trans; eassumption. }
      destruct (centroidNormalNeighbours_snd cfg pinit points normals s (mean cn) Hsame)
        as [Hnd Hnb].
      set (nb := snd (centroidNormalNeighbours cfg s (mean cn) points normals
                        (Octree_of cfg pinit))) in *.
      destruct (MIN_FACE_POINTS cfg <=? _)%nat.
      * rewrite absorbNormal_fold.
        assert (Hnb' : forall j, j ∈ nb ->
                  (j < length (snd (fst (seeds, points, cp))))%nat /\
                  (tagOf (snd (fst (seeds, points, cp))) j < 0)%Z).
        { intros j Hj. destruct (Hnb j Hj) as (H1 & H2 & _). split; assumption. }
        pose proof (absorb_fold_inv id points0 seeds0 nb (seeds, points, cp)
                      Hid Hnd Hnb' Hinv) as Hinv'.
        pose proof (absorb_fold_seeds_length id nb (seeds, points, cp)) as Hmono.
        pose proof (absorb_fold_cluster id nb (seeds, points, cp)) as Hcp.
        pose proof (absorb_fold_tags id nb (seeds, points, cp)) as Htags.
        destruct (fold_left (absorb id) nb (seeds, points, cp))
          as [[seeds1 points1] cp1].
        cbn [fst snd] in Hmono, Hcp, Htags |- *. subst cp1.
        destruct (IH (S i) seeds1 points1
                    (cn ++ map (fun j => normals !!! j) nb) (cp ++ nb)
                    (turns ++ [mkTurn s (mean cn) cp nb]))
          as (seeds' & points' & cp' & turns' & E & Hinv2 & Hturns2 & Htags2);
          try assumption; try lia.
        { rewrite map_app, Hcn. reflexivity. }
        { intros t Ht. apply elem_of_app in Ht as [Ht | Ht].
          - apply (turnsOk_app normals cp nb turns Hturns t Ht).
          - apply list_elem_of_singleton in Ht. subst t. cbn.
            split; [rewrite Hcn; reflexivity|]. split.
            + intros j Hj. apply Hnb. exact Hj.
            + exists []. rewrite app_nil_r. reflexivity. }
        exists seeds', points', cp', turns'. split; [exact E|].
        split; [exact Hinv2|]. split; [exact Hturns2|].
        intros j. destruct (Htags2 j) as [E2 | E2]; [|right; exact E2].
        rewrite E2. apply Htags.
      * apply IH; try assumption; lia.
    + exists seeds, points, cp, turns. split; [reflexivity|].
      split; [exact Hinv|]. split; [exact Hturns|]. intros j. left. reflexivity.
Qed.

(** What one call of [expandNormalCluster] does, for a cluster identifier
    that is not negative, an octree built over the vector's coordinates and
    faces of at least one point: the call ends, the returned indices are
    distinct, and the record of the turns is as [turnsOk] says. *)
Lemma expandNormalCluster_spec cfg pinit points normals (k : nat) (id : Z) :
  sameCoords pinit points -> (0 <= id)%Z -> (0 < MIN_FACE_POINTS cfg)%nat ->
  exists points' b cl turns,
    expandNormalCluster cfg k id points normals (Octree_of cfg pinit)
    = Some (points', (b, cl), turns) /\
    sameCoords points points' /\ NoDup cl /\ turnsOk normals cl turns.
Proof.
  intros Hsame Hid Hmin. unfold expandNormalCluster.
  destruct (centroidNormalNeighbours_snd cfg pinit points normals k (normals !!! k) Hsame)
    as [Hnd Hnb].
  set (seeds := snd (centroidNormalNeighbours cfg k (normals !!! k) points normals
                       (Octree_of cfg pinit))) in *.
  destruct (Nat.ltb_spec (length seeds) (MIN_FACE_POINTS cfg)) as [Hlt | Hge].
  - exists (setClusterIDAt k cNoise points), false, [], [].
    split; [reflexivity|]. split; [apply sameCoords_set, sameCoords_refl|].
    split; [constructor|]. intros t Ht. apply elem_of_nil in Ht. destruct Ht.
  - rewrite tagNormalSeed_fold.
    destruct (tagSeed_fold id k seeds (points, O, O)) as (Hs1 & Hin1 & Hout1).
    pose proof (tagSeed_fold_index id k seeds (points, O, O)) as Hicp.
    destruct (fold_left (tagSeed id k) seeds (points, O, O))
      as [[points1 index1] icp] eqn:Ef.
    cbn [fst snd app] in Hs1, Hin1, Hout1, Hicp |- *.
    destruct (Nat.ltb_spec icp (length seeds)) as [_ | Hbad]; [|lia].
    set (seeds0 := delete icp seeds).
    assert (Hinv : expansionInv id points seeds0 (seeds0, points1, seeds)).
    { unfold expansionInv. destruct Hs1 as [Hl1 Hc1]. rewrite Hl1.
      split; [split; assumption|]. split; [|split; [|split]].
      - intros j Hj. destruct (decide (j ∈ seeds)) as [Hjs | Hjs].
        + right. split; [apply Hnb; exact Hjs|].
          split; [apply Hin1; assumption | exact Hjs].
        + left. split; [apply Hout1; exact Hjs | exact Hjs].
      - exact Hnd.
      - intros j Hj. apply Hnb. exact Hj.
      - exists []. rewrite app_nil_r. split; [reflexivity|]. split; [constructor|].
        intros j Hj. apply elem_of_nil in Hj. destruct Hj. }
    destruct (expandNormalLoop_inv cfg pinit normals id points seeds0
                (expandFuel seeds0 points1) O seeds0 points1
                (map (fun i => normals !!! i) seeds) seeds [] Hid Hsame Hinv)
      as (seeds' & points' & cl & turns & Eloop & Hinv' & Hturns & _).
    { reflexivity. }
    { intros t Ht. apply elem_of_nil in Ht. destruct Ht. }
    { lia. }
    { unfold expandFuel. destruct Hs1 as [Hl1 _]. rewrite Hl1. lia. }
    rewrite Eloop. exists points', true, cl, turns. split; [reflexivity|].
    destruct Hinv' as (Hsame' & _ & Hndcl & _).
    split; [exact Hsame'|]. split; [exact Hndcl | exact Hturns].
Qed.

(** C5 (amended): in a cluster expansion the mean normal is computed once
    per turn of the loop, that is once per seed taken from the work list, as
    the mean of the normals of all the points the cluster holds when the
    turn begins; every neighbour the turn absorbs was tested against that one
    mean, and the cluster then holds them after the points it held.  The
    call is the one [DBScan::normals] makes: faces of at least one point, a
    centroid of the vector and a normal for each point. *)
Theorem expandNormalCluster_turn_mean (cfg : Config) (pinit points : list Point)
    (normals : list Vector) (centroid : nat) (id : Z) :
  sameCoords pinit points -> (0 <= id)%Z -> (0 < MIN_FACE_POINTS cfg)%nat ->
  (centroid < length points)%nat -> length normals = length points ->
  exists points' r turns,
    expandNormalCluster cfg centroid id points normals (Octree_of cfg pinit)
    = Some (points', r, turns) /\
    forall t, t ∈ turns ->
      turnMean t = mean (map (fun i => normals !!! i) (turnCluster t)) /\
      (forall i, i ∈ turnAbsorbed t ->
         normalCoherent (turnSeed t) (turnMean t) normals i = true) /\
      exists rest, snd r = turnCluster t ++ turnAbsorbed t ++ rest.
Proof.
  intros Hsame Hid Hmin _ _.
  destruct (expandNormalCluster_spec cfg pinit points normals centroid id Hsame Hid Hmin)
    as (points' & b & cl & turns & E & _ & _ & Hturns).
  exists points', (b, cl), turns. split; [exact E | exact Hturns].
Qed.

(** The invariant of the loop of [DBScan::normals]. *)
Definition normalsInv (pinit : list Point) (st : Z * list (list nat) * list Point) : Prop :=
  let '(clusterID, faces, points) := st in
  clusterID = Z.of_nat (length faces) /\ sameCoords pinit points /\
  forall face, face ∈ faces -> NoDup face.

Lemma normalsLoop_inv cfg pinit normals (ks : list nat) :
  (0 < MIN_FACE_POINTS cfg)%nat -> forall st,
  normalsInv pinit st ->
  exists st', fold_left (normalsStep cfg normals (Octree_of cfg pinit)) ks (Some st)
              = Some st' /\ normalsInv pinit st'.
Proof.
  intros Hmin.
  induction ks as [|k ks IH]; intros st Hinv; [exists st; split; [reflexivity | exact Hinv]|].
  cbn [fold_left]. destruct st as [[clusterID faces] points].
  destruct Hinv as (Hid & Hsame & Hfaces). cbn [normalsStep].
  destruct (_ && _).
  - assert (Hid0 : (0 <= clusterID)%Z) by lia.
    destruct (expandNormalCluster_spec cfg pinit points normals k clusterID Hsame Hid0 Hmin)
      as (points' & b & cl & turns & E & Hs' & Hnd & _).
    rewrite E. destruct b; apply IH; unfold normalsInv.
    + rewrite length_app. cbn [length]. split; [lia|].
      split; [eapply sameCoords_trans; eassumption|].
      intros face Hf. apply elem_of_app in Hf as [Hf | Hf]; [apply Hfaces; exact Hf|].
      apply list_elem_of_singleton in Hf. subst face. exact Hnd.
    + split; [exact Hid|]. split; [eapply sameCoords_trans; eassumption | exact Hfaces].
  - apply IH. split; [exact Hid|]. split; assumption.
Qed.

(** C6 (amended): for every point vector, faces of at least one point and
    a normal computed for each point, [DBScan::normals] returns, and every
    face it returns holds no index twice.  The indices of a face stand in the
    order in which the expansion reached them. *)
Theorem normals_faces_NoDup (cfg : Config) (points : list Point) :
  (0 < MIN_FACE_POINTS cfg)%nat ->
  length (computeNormals points (Octree_of cfg points) (NORMAL_CALC_POINT_PROXIMITY cfg))
  = length points ->
  exists faces points',
    normals cfg points = Some (faces, points') /\
    forall face, face ∈ faces -> NoDup face.
Proof.
  intros Hmin Hlen. unfold normals. rewrite Hlen, Nat.leb_refl.
  destruct (normalsLoop_inv cfg points
              (computeNormals points (Octree_of cfg points) (NORMAL_CALC_POINT_PROXIMITY cfg))
              (seq 0 (length points)) Hmin (0%Z, [], points))
    as ([[clusterID faces] points'] & E & _ & _ & Hfaces).
  { split; [reflexivity|]. split; [apply sameCoords_refl|].
    intros face Hf. apply elem_of_nil in Hf. destruct Hf. }
  rewrite E. exists faces, points'. split; [reflexivity | exact Hfaces].
Qed.

End NormalCoherent.

(** ** models/Point.hh: the angle between two vectors *)

(** [Point::operator*(double d)]. *)
Definition Point_scale (p : Point) (d : Q) : Point :=
  Point3 (getX p * d) (getY p * d) (getZ p * d).

(** The opposite vector, [v * -1]. *)
Definition Vector_opp (v : Vector) : Vector := Point_scale v (-1).

(** [Point::module], the square root of [x*x + y*y + z*z]. *)
Definition module (v : Vector) : R := sqrt (Q2R (scalarProduct v v)).

(** [Point::vectorialAngle]: the arc cosine of the scalar product over the
    product of the modules, an angle of [0, PI]. *)
Definition vectorialAngle (u v : Vector) : R :=
  acos (Q2R (scalarProduct u v) / (module u * module v)).

(** The comparison [u.vectorialAngle(v) <= t] for a threshold in radians. *)
Definition angleLeR (u v : Vector) (t : R) : bool :=
  if Rle_dec (vectorialAngle u v) t then true else false.

Lemma angleLeR_true u v t : angleLeR u v t = true <-> (vectorialAngle u v <= t)%R.
Proof.
  unfold angleLeR. destruct (Rle_dec (vectorialAngle u v) t); split;
    intros H; try reflexivity; try assumption; try discriminate; contradiction.
Qed.

Lemma angleLeR_false u v t : angleLeR u v t = false <-> (t < vectorialAngle u v)%R.
Proof.
  unfold angleLeR. destruct (Rle_dec (vectorialAngle u v) t); split;
    intros H; try reflexivity; try discriminate; lra.
Qed.

Lemma scalarProduct_opp_l u v : scalarProduct (Vector_opp u) v == - scalarProduct u v.
Proof. unfold scalarProduct, Vector_opp, Point_scale. cbn [getX getY getZ Point3]. ring. Qed.

Lemma scalarProduct_opp_r u v : scalarProduct u (Vector_opp v) == - scalarProduct u v.
Proof. unfold scalarProduct, Vector_opp, Point_scale. cbn [getX getY getZ Point3]. ring. Qed.

Lemma module_opp v : module (Vector_opp v) = module v.
Proof.
  unfold module. f_equal. apply Qeq_eqR.
  rewrite scalarProduct_opp_l, scalarProduct_opp_r. ring.
Qed.

(** Turning one of two vectors round turns their angle [a] into [PI - a]. *)
Lemma vectorialAngle_opp_l u v :
  vectorialAngle (Vector_opp u) v = (PI - vectorialAngle u v)%R.
Proof.
  unfold vectorialAngle. rewrite module_opp, (Qeq_eqR _ _ (scalarProduct_opp_l u v)).
  rewrite Q2R_opp, <- acos_opp. f_equal. unfold Rdiv. ring.
Qed.

Lemma vectorialAngle_opp_r u v :
  vectorialAngle u (Vector_opp v) = (PI - vectorialAngle u v)%R.
Proof.
  unfold vectorialAngle. rewrite module_opp, (Qeq_eqR _ _ (scalarProduct_opp_r u v)).
  rewrite Q2R_opp, <- acos_opp. f_equal. unfold Rdiv. ring.
Qed.

Lemma vectorialAngle_opp_opp u v :
  vectorialAngle (Vector_opp u) (Vector_opp v) = vectorialAngle u v.
Proof. rewrite vectorialAngle_opp_l, vectorialAngle_opp_r. ring. Qed.

Lemma Point_neqb_opp_zero v :
  Point_neqb (Vector_opp v) (Point3 0 0 0) = Point_neqb v (Point3 0 0 0).
Proof.
  unfold Point_neqb, Point_eqb, Vector_opp, Point_scale. cbn [getX getY getZ Point3].
  assert (E : forall a : Q, Qabs (a * -1 - 0) == Qabs (a - 0)).
  { intros a. rewrite <- (Qabs_opp (a - 0)). apply Qabs_wd. ring. }
  rewrite !E. reflexivity.
Qed.

Lemma lookup_total_map_opp (normals : list Vector) (i : nat) :
  map Vector_opp normals !!! i = Vector_opp (normals !!! i).
Proof.
  rewrite !list_lookup_total_alt, list_lookup_fmap.
  destruct (normals !! i); reflexivity.
Qed.

(** C4 (amended): the absorption decision of [centroidNormalNeighbours] is
    the same when all the normals are turned round together, the mean with
    them.  Turning a single normal round maps each angle [a] it takes part in
    to [PI - a]: the pair test and the two mean tests compare the angle
    itself, not its fold into [0, PI/2]. *)
Theorem normalCoherent_opp_all (tN tM tS : R) (centroid : nat) (meanNormal : Vector)
    (normals : list Vector) (i : nat) :
  normalCoherent angleLeR tN tM tS centroid (Vector_opp meanNormal)
    (map Vector_opp normals) i
  = normalCoherent angleLeR tN tM tS centroid meanNormal normals i
  /\ (forall u v : Vector,
        vectorialAngle (Vector_opp u) v = (PI - vectorialAngle u v)%R /\
        vectorialAngle u (Vector_opp v) = (PI - vectorialAngle u v)%R).
Proof.
  split.
  - unfold normalCoherent, angleLeR. rewrite !lookup_total_map_opp.
    rewrite Point_neqb_opp_zero, !vectorialAngle_opp_opp. reflexivity.
  - intros u v. split; [apply vectorialAngle_opp_l | apply vectorialAngle_opp_r].
Qed.

(** The unit vector of the z axis. *)
Definition unitZ : Vector := Point3 0 0 1.

Lemma vectorialAngle_unitZ : vectorialAngle unitZ unitZ = 0%R.
Proof.
  unfold vectorialAngle, module.
  assert (E : Q2R (scalarProduct unitZ unitZ) = 1%R).
  { rewrite (Qeq_eqR _ 1) by reflexivity. unfold Q2R. simpl. lra. }
  rewrite E, sqrt_1. replace (1 / (1 * 1))%R with 1%R by lra. apply acos_1.
Qed.

(** C4, as stated, fails for the normals (0,0,1) and (0,0,1): whatever the
    thresholds between 0 and PI, a candidate with the normal of the seed and
    of the mean is accepted, and rejected once its normal is turned round,
    the angle being then PI. *)
Lemma normalCoherent_sign_matters :
  (forall tN tM tS : R, (0 <= tN)%R -> (0 <= tM)%R -> (0 <= tS)%R ->
     normalCoherent angleLeR tN tM tS 0 unitZ [unitZ; unitZ] 1 = true) /\
  (forall tN tM tS : R, (tN < PI)%R -> (tM < PI)%R -> (tS < PI)%R ->
     normalCoherent angleLeR tN tM tS 0 unitZ [unitZ; Vector_opp unitZ] 1 = false).
Proof.
  split; intros tN tM tS HN HM HS; unfold normalCoherent;
    change ([unitZ; unitZ] !!! 0%nat) with unitZ;
    change ([unitZ; unitZ] !!! 1%nat) with unitZ;
    change ([unitZ; Vector_opp unitZ] !!! 0%nat) with unitZ;
    change ([unitZ; Vector_opp unitZ] !!! 1%nat) with (Vector_opp unitZ).
  - replace (Point_neqb unitZ (Point3 0 0 0)) with true by (vm_compute; reflexivity).
    assert (EN : angleLeR unitZ unitZ tN = true)
      by (apply angleLeR_true; rewrite vectorialAngle_unitZ; exact HN).
    assert (EM : angleLeR unitZ unitZ tM = true)
      by (apply angleLeR_true; rewrite vectorialAngle_unitZ; exact HM).
    rewrite EN, EM. reflexivity.
  - assert (EM : angleLeR unitZ (Vector_opp unitZ) tM = false).
    { apply angleLeR_false. rewrite vectorialAngle_opp_r, vectorialAngle_unitZ. lra. }
    assert (ES : angleLeR unitZ (Vector_opp unitZ) tS = false).
    { apply angleLeR_false. rewrite vectorialAngle_opp_r, vectorialAngle_unitZ. lra. }
    rewrite EM, ES, andb_false_r. apply andb_false_r.
Qed.

(** *** Deciding an angle comparison on rational numbers

    For a threshold given by its cosine [c], [u.vectorialAngle(v) <= acos c]
    is decided without square root or arc cosine.  A vector of module 0
    makes the quotient of the program a NaN, and every comparison with it
    false. *)
Definition angleLeCos (u v : Vector) (c : Q) : bool :=
  let d := scalarProduct u v in
  let nu := scalarProduct u u in
  let nv := scalarProduct v v in
  negb (Qeq_bool nu 0) && negb (Qeq_bool nv 0)
  && (if Qle_bool 0 c
      then Qle_bool 0 d && Qle_bool (c * c * (nu * nv)) (d * d)
      else Qle_bool 0 d || Qle_bool (d * d) (c * c * (nu * nv))).

Lemma acos_le_iff (x y : R) :
  (-1 <= x <= 1)%R -> (-1 <= y <= 1)%R -> (acos x <= acos y)%R <-> (y <= x)%R.
Proof.
  intros Hx Hy. pose proof (acos_bound x) as Bx. pose proof (acos_bound y) as By.
  split; intros H.
  - rewrite <- (cos_acos x Hx), <- (cos_acos y Hy). apply cos_decr_1; lra.
  - destruct (Rle_dec (acos x) (acos y)) as [Hle | Hnle]; [exact Hle|].
    exfalso. assert (Hlt : (acos y < acos x)%R) by lra.
    apply cos_decreasing_1 in Hlt; try lra.
    rewrite (cos_acos x Hx), (cos_acos y Hy) in Hlt. lra.
Qed.

Lemma Rsquare_le_reg (a b : R) :
  (0 <= a)%R -> (0 <= b)%R -> (a * a <= b * b)%R -> (a <= b)%R.
Proof.
  intros Ha Hb H. destruct (Rle_dec a b) as [Hle | Hnle]; [exact Hle|].
  exfalso. assert (Hlt : (b < a)%R) by lra.
  assert (0 < (a - b) * (a + b))%R by (apply Rmult_lt_0_compat; lra). lra.
Qed.

(** Cauchy and Schwarz, by the identity of Lagrange. *)
Lemma scalarProduct_square_le (u v : Vector) :
  scalarProduct u v * scalarProduct u v <= scalarProduct u u * scalarProduct v v.
Proof.
  unfold scalarProduct.
  set (a := getX u). set (b := getY u). set (c := getZ u).
  set (x := getX v). set (y := getY v). set (z := getZ v).
  pose proof (Qsquare_nonneg (a * y - b * x)) as H1.
  pose proof (Qsquare_nonneg (a * z - c * x)) as H2.
  pose proof (Qsquare_nonneg (b * z - c * y)) as H3.
  assert (E : (a * a + b * b + c * c) * (x * x + y * y + z * z)
              - (a * x + b * y + c * z) * (a * x + b * y + c * z)
              == (a * y - b * x) * (a * y - b * x) + (a * z - c * x) * (a * z - c * x)
                 + (b * z - c * y) * (b * z - c * y)) by ring.
  lra.
Qed.

Lemma scalarProduct_self_nonneg (u : Vector) : 0 <= scalarProduct u u.
Proof.
  unfold scalarProduct.
  pose proof (Qsquare_nonneg (getX u)). pose proof (Qsquare_nonneg (getY u)).
  pose proof (Qsquare_nonneg (getZ u)). lra.
Qed.

(** [angleLeCos] decides the comparison of the program for the threshold
    [acos c]. *)
Lemma angleLeCos_angleLeR (u v : Vector) (c : Q) :
  ~ scalarProduct u u == 0 -> ~ scalarProduct v v == 0 -> -1 <= c <= 1 ->
  angleLeCos u v c = angleLeR u v (acos (Q2R c)).
Proof.
  intros Hu Hv [Hc1 Hc2].
  pose proof (scalarProduct_square_le u v) as Hcs.
  pose proof (scalarProduct_self_nonneg u) as Hnu.
  pose proof (scalarProduct_self_nonneg v) as Hnv.
  unfold angleLeCos. cbv zeta.
  set (d := scalarProduct u v) in *.
  set (nu := scalarProduct u u) in *. set (nv := scalarProduct v v) in *.
  assert (Eu : Qeq_bool nu 0 = false).
  { apply not_true_iff_false. rewrite Qeq_bool_iff. exact Hu. }
  assert (Ev : Qeq_bool nv 0 = false).
  { apply not_true_iff_false. rewrite Qeq_bool_iff. exact Hv. }
  rewrite Eu, Ev. cbn [negb andb].
  apply Qle_Rle in Hcs, Hc1, Hc2. rewrite !Q2R_mult in Hcs.
  assert (HNU : (0 < Q2R nu)%R).
  { rewrite <- Q2R_0. apply Qlt_Rlt. lra. }
  assert (HNV : (0 < Q2R nv)%R).
  { rewrite <- Q2R_0. apply Qlt_Rlt. lra. }
  replace (Q2R (-1)) with (-1)%R in Hc1 by (unfold Q2R; simpl; lra).
  replace (Q2R 1) with 1%R in Hc2 by (unfold Q2R; simpl; lra).
  set (D := Q2R d) in *. set (NU := Q2R nu) in *. set (NV := Q2R nv) in *.
  set (C := Q2R c) in *.
  pose proof (sqrt_lt_R0 NU HNU) as Hmu. pose proof (sqrt_lt_R0 NV HNV) as Hmv.
  pose proof (sqrt_sqrt NU (Rlt_le _ _ HNU)) as Emu.
  pose proof (sqrt_sqrt NV (Rlt_le _ _ HNV)) as Emv.
  set (mu := sqrt NU) in *. set (mv := sqrt NV) in *.
  assert (Hs : (0 < mu * mv)%R) by (apply Rmult_lt_0_compat; assumption).
  assert (Es : ((mu * mv) * (mu * mv) = NU * NV)%R).
  { replace (mu * mv * (mu * mv))%R with ((mu * mu) * (mv * mv))%R by ring.
    rewrite Emu, Emv. reflexivity. }
  set (s := (mu * mv)%R) in *.
  (* the quotient of the program lies in [-1, 1] *)
  assert (Hx : (-1 <= D / s <= 1)%R).
  { assert (Hds : (- s <= D <= s)%R) by (split; nra).
    split.
    - apply (Rmult_le_reg_r s); [exact Hs|]. unfold Rdiv.
      rewrite Rmult_assoc, Rinv_l by lra. lra.
    - apply (Rmult_le_reg_r s); [exact Hs|]. unfold Rdiv.
      rewrite Rmult_assoc, Rinv_l by lra. lra. }
  assert (Hiff : angleLeR u v (acos C) = true <-> (C * s <= D)%R).
  { rewrite angleLeR_true. unfold vectorialAngle, module.
    fold d nu nv D NU NV mu mv s.
    rewrite acos_le_iff by (try exact Hx; split; assumption).
    split; intros H.
    - apply (Rmult_le_compat_r s) in H; [|lra]. unfold Rdiv in H.
      rewrite Rmult_assoc, Rinv_l, Rmult_1_r in H by lra. exact H.
    - apply (Rmult_le_reg_r s); [exact Hs|]. unfold Rdiv.
      rewrite Rmult_assoc, Rinv_l by lra. lra. }
  assert (Hsq : forall a b : Q, Qle_bool a b = true <-> (Q2R a <= Q2R b)%R).
  { intros a b. rewrite Qle_bool_iff. split; [apply Qle_Rle | apply Rle_Qle]. }
  destruct (angleLeR u v (acos C)) eqn:EA.
  - assert (HCs : (C * s <= D)%R) by (apply Hiff; reflexivity).
    destruct (Qle_bool 0 c) eqn:E0.
    + apply Hsq in E0. rewrite Q2R_0 in E0. fold C in E0.
      apply andb_true_iff. rewrite !Hsq, Q2R_0, !Q2R_mult. fold D C NU NV.
      assert (0 <= C * s)%R by (apply Rmult_le_pos; lra). split; nra.
    + apply orb_true_iff. rewrite !Hsq, Q2R_0, !Q2R_mult. fold D C NU NV.
      destruct (Rle_dec 0 D) as [HD | HD]; [left; exact HD | right].
      assert (HC : (C < 0)%R).
      { apply Rnot_le_lt. intros HC. apply not_true_iff_false in E0. apply E0.
        apply Hsq. rewrite Q2R_0. exact HC. }
      nra.
  - assert (HCs : ~ (C * s <= D)%R) by (intros H; apply Hiff in H; discriminate).
    destruct (Qle_bool 0 c) eqn:E0.
    + apply Hsq in E0. rewrite Q2R_0 in E0. fold C in E0.
      apply andb_false_iff.
      destruct (Rle_dec 0 D) as [HD | HD].
      * right. apply not_true_iff_false. rewrite Hsq, !Q2R_mult. fold D C NU NV.
        intros H. apply HCs.
        assert (0 <= C * s)%R by (apply Rmult_le_pos; lra). nra.
      * left. apply not_true_iff_false. rewrite Hsq, Q2R_0. exact HD.
    + assert (HC : (C < 0)%R).
      { apply Rnot_le_lt. intros HC. apply not_true_iff_false in E0. apply E0.
        apply Hsq. rewrite Q2R_0. exact HC. }
      assert (HCs0 : (C * s < 0)%R).
      { replace (C * s)%R with (- ((- C) * s))%R by ring.
        apply Ropp_lt_gt_0_contravar. apply Rmult_lt_0_compat; lra. }
      apply orb_false_iff. split; apply not_true_iff_false;
        rewrite Hsq, ?Q2R_0, ?Q2R_mult; fold D C NU NV; intros H; apply HCs.
      * lra.
      * destruct (Rle_dec 0 D) as [HD | HD]; [lra|].
        assert (Hle : (- D <= - (C * s))%R); [|lra].
        apply Rsquare_le_reg; [lra | lra |].
        replace (- (C * s) * - (C * s))%R with (C * C * (s * s))%R by ring.
        rewrite Es. lra.
Qed.

Lemma Qle_bool_ext (a b a' b' : Q) :
  (a <= b <-> a' <= b') -> Qle_bool a b = Qle_bool a' b'.
Proof.
  intros H. apply eq_true_iff_eq. rewrite !Qle_bool_iff. exact H.
Qed.

Lemma Qeq_bool_ext (a b a' b' : Q) :
  (a == b <-> a' == b') -> Qeq_bool a b = Qeq_bool a' b'.
Proof.
  intros H. apply eq_true_iff_eq. rewrite !Qeq_bool_iff. exact H.
Qed.

(** Scaling a vector by a positive number changes none of its angles: the
    comparison is the same for a mean and for the mean re-normalised. *)
Lemma angleLeCos_scale_l (u v : Vector) (c k : Q) :
  0 < k -> angleLeCos (Point_scale u k) v c = angleLeCos u v c.
Proof.
  intros Hk. unfold angleLeCos. cbv zeta.
  assert (Ed : scalarProduct (Point_scale u k) v == scalarProduct u v * k).
  { unfold scalarProduct, Point_scale. cbn [getX getY getZ Point3]. ring. }
  assert (En : scalarProduct (Point_scale u k) (Point_scale u k)
               == scalarProduct u u * (k * k)).
  { unfold scalarProduct, Point_scale. cbn [getX getY getZ Point3]. ring. }
  set (d := scalarProduct u v) in *. set (nu := scalarProduct u u) in *.
  set (nv := scalarProduct v v) in *.
  set (d' := scalarProduct (Point_scale u k) v) in *.
  set (nu' := scalarProduct (Point_scale u k) (Point_scale u k)) in *.
  assert (Hkk : 0 < k * k) by (apply Qmult_lt_0_compat; exact Hk).
  assert (E1 : Qeq_bool nu' 0 = Qeq_bool nu 0).
  { apply Qeq_bool_ext. rewrite En. split; intros H.
    - apply Qmult_integral in H as [H | H]; [exact H | lra].
    - rewrite H. ring. }
  assert (E2 : Qle_bool 0 d' = Qle_bool 0 d).
  { apply Qle_bool_ext. rewrite Ed. split; intros H.
    - apply (Qmult_le_r _ _ k Hk). lra.
    - apply Qmult_le_0_compat; lra. }
  assert (E3 : Qle_bool (c * c * (nu' * nv)) (d' * d') = Qle_bool (c * c * (nu * nv)) (d * d)).
  { apply Qle_bool_ext. rewrite Ed, En.
    assert (Ea : c * c * (nu * (k * k) * nv) == c * c * (nu * nv) * (k * k)) by ring.
    assert (Eb : d * k * (d * k) == d * d * (k * k)) by ring.
    rewrite Ea, Eb. apply Qmult_le_r. exact Hkk. }
  assert (E4 : Qle_bool (d' * d') (c * c * (nu' * nv)) = Qle_bool (d * d) (c * c * (nu * nv))).
  { apply Qle_bool_ext. rewrite Ed, En.
    assert (Ea : c * c * (nu * (k * k) * nv) == c * c * (nu * nv) * (k * k)) by ring.
    assert (Eb : d * k * (d * k) == d * d * (k * k)) by ring.
    rewrite Ea, Eb. apply Qmult_le_r. exact Hkk. }
  rewrite E1, E2, E3, E4. reflexivity.
Qed.

(** *** Examples of the normal-coherent pass *)

(** [Point::operator+(const Point &)]. *)
Definition Point_add (p q : Point) : Point :=
  Point3 (getX p + getX q) (getY p + getY q) (getZ p + getZ q).

(** [Point::operator/(double d)]. *)
Definition Point_div (p : Point) (d : Q) : Point :=
  Point3 (getX p / d) (getY p / d) (getZ p / d).

(** Modelled from the spec: [Geometry::mean] (absent), "arithmetic mean of a
    collection, re-normalized to unit length; zero input produces the zero
    vector".  The re-normalisation takes a square root; it scales the mean by
    a positive number, which changes no angle, so the runs that must compute
    take the arithmetic mean as it is. *)
Definition meanArith (vs : list Vector) : Vector :=
  Point_div (fold_left Point_add vs (Point3 0 0 0)) (inject_Z (Z.of_nat (length vs))).

(** The normals of points of the plane z = 0. *)
Definition planeNormals (points : list Point) (map : Octree) (radius : Q) : list Vector :=
  List.map (fun _ => unitZ) points.

(** Thresholds by their cosines: 19/20 for the pair test and the mean test,
    99/100 for the mean-only test. *)
Definition cosNormal : Q := 19 # 20.
Definition cosMean : Q := 19 # 20.
Definition cosMeanSingle : Q := 99 # 100.

(** A strip of six points of the plane z = 0, 10 mm apart, numbered so that
    the point of index 1 is not a neighbour of the point of index 0. *)
Definition strip : list Point :=
  [planePoint 0 0; planePoint 20 0; planePoint 10 0;
   planePoint 0 10; planePoint 10 10; planePoint 20 10].

(** [l] is in ascending order. *)
Fixpoint ascending (l : list nat) : bool :=
  match l with
  | a :: (b :: _) as rest => (a <? b)%nat && ascending rest
  | _ => true
  end.

(** C6, as stated, fails on the strip: its single face lists the points in
    the order in which the expansion reached them, and the point of index 1,
    reached from the point of index 2, stands after the indices 2, 3 and 4. *)
Lemma normals_face_not_ascending :
  option_map fst
    (normals angleLeCos cosNormal cosMean cosMeanSingle meanArith planeNormals
       exampleConfig strip)
  = Some [[0; 3; 2; 4; 1; 5]%nat] /\
  ascending [0; 3; 2; 4; 1; 5]%nat = false.
Proof. vm_compute. split; reflexivity. Qed.

(** Four points of the plane z = 0: the centroid, its one neighbour, and two
    neighbours of that neighbour.  The surface leans one way at the third
    point and the other way at the fourth: their normals are (7,0,24)/25 and
    (-7,0,24)/25, each at an angle of cosine 24/25 to (0,0,1). *)
Definition ridge : list Point :=
  [planePoint 0 0; planePoint 10 0; planePoint 20 0; planePoint 10 10].
Definition ridgeNormals : list Vector :=
  [unitZ; unitZ; Point3 (7 # 25) 0 (24 # 25); Point3 (- (7 # 25)) 0 (24 # 25)].

(** C5, as stated, fails on the ridge.  The turn of the seed of index 1
    computes the mean (0,0,1) of the cluster [0; 1] and absorbs the points 2
    and 3, both tested against it.  Had the mean been computed again once the
    point 2 was absorbed, the point 3 would have failed the test. *)
Lemma mean_not_recomputed_within_turn :
  option_map (fun r => (snd (fst r), map turnSeed (snd r), map turnCluster (snd r),
                        map turnAbsorbed (snd r)))
    (expandNormalCluster angleLeCos cosNormal cosMean cosMeanSingle meanArith
       exampleConfig 0 0 ridge ridgeNormals (Octree_of exampleConfig ridge))
  = Some ((true, [0; 1; 2; 3]%nat), [1; 2; 3]%nat,
          [[0; 1]; [0; 1; 2; 3]; [0; 1; 2; 3]]%nat, [[2; 3]; []; []]%nat) /\
  normalCoherent angleLeCos cosNormal cosMean cosMeanSingle 1
    (meanArith (map (fun i => ridgeNormals !!! i) [0; 1]%nat)) ridgeNormals 3 = true /\
  normalCoherent angleLeCos cosNormal cosMean cosMeanSingle 1
    (meanArith (map (fun i => ridgeNormals !!! i) [0; 1; 2]%nat)) ridgeNormals 3 = false.
Proof. vm_compute. repeat split; reflexivity. Qed.

(** The amended statement holds of the ridge. *)
Lemma expandNormalCluster_turn_mean_witness :
  exists points' r turns,
    expandNormalCluster angleLeCos cosNormal cosMean cosMeanSingle meanArith
      exampleConfig 0 0 ridge ridgeNormals (Octree_of exampleConfig ridge)
    = Some (points', r, turns) /\
    forall t, t ∈ turns ->
      turnMean t = meanArith (map (fun i => ridgeNormals !!! i) (turnCluster t)) /\
      (forall i, i ∈ turnAbsorbed t ->
         normalCoherent angleLeCos cosNormal cosMean cosMeanSingle
           (turnSeed t) (turnMean t) ridgeNormals i = true) /\
      exists rest, snd r = turnCluster t ++ turnAbsorbed t ++ rest.
Proof.
  apply (expandNormalCluster_turn_mean angleLeCos cosNormal cosMean cosMeanSingle
           meanArith exampleConfig ridge ridge ridgeNormals 0 0).
  - apply sameCoords_refl.
  - lia.
  - vm_compute. lia.
  - vm_compute. lia.
  - reflexivity.
Defined.

(** The amended statement of C6 holds of the strip. *)
Lemma normals_faces_NoDup_witness :
  exists faces points',
    normals angleLeCos cosNormal cosMean cosMeanSingle meanArith planeNormals
      exampleConfig strip = Some (faces, points') /\
    forall face, face ∈ faces -> NoDup face.
Proof.
  apply (normals_faces_NoDup angleLeCos cosNormal cosMean cosMeanSingle meanArith
           planeNormals exampleConfig strip).
  - vm_compute. lia.
  - vm_compute. reflexivity.
Defined.

(** ** scanner/ScannerLVX.cc

    The LVX reader of the Livox SDK ([lvx_file.h]) and the layout of its
    frames are not part of the sources at hand.  A file is the list of its
    frames, a frame the list of its packets, a packet its data type, its
    timestamp and its points; [frameOffset] counts the packets of the
    current frame already left behind and [packetOffset] the points of the
    current packet already left behind (the program counts both in bytes).
    [pause()] is taken to be called from the callback, as a consumer does
    when its time window closes: the callback says whether it called it. *)
Module ScannerLVX.

Inductive ScanCode : Type := kScanOk | kScanEof | kScanError.

Inductive LvxFileState : Type := kLvxFileOk | kLvxFileNotExist | kLvxFileAtEnd.

Definition LvxFileState_eqb (a b : LvxFileState) : bool :=
  match a, b with
  | kLvxFileOk, kLvxFileOk | kLvxFileNotExist, kLvxFileNotExist
  | kLvxFileAtEnd, kLvxFileAtEnd => true
  | _, _ => false
  end.

(** [LivoxExtendRawPoint]. *)
Record RawPoint : Type := mkRawPoint { rawX : Z; rawY : Z; rawZ : Z; rawReflectivity : Z }.

(** [LidarPoint], as the callback receives it. *)
Record LidarPoint : Type := mkLidarPoint {
  lpTimestamp : Z; lpReflectivity : Z; lpX : Z; lpY : Z; lpZ : Z
}.

(** [LivoxEthPacket]; [kExtendCartesian] is the data type the scanner decodes. *)
Record EthPacket : Type := mkEthPacket {
  data_type : nat; timestamp : Z; data : list RawPoint
}.
Definition kExtendCartesian : nat := 2.

Definition Frame : Type := list EthPacket.

(** The point the callback is given for the raw point [p] of the packet
    with the timestamp [ts]. *)
Definition decode (ts : Z) (p : RawPoint) : LidarPoint :=
  mkLidarPoint ts (rawReflectivity p) (rawX p) (rawY p) (rawZ p).

(** The decoded points of a file, in the order of the file. *)
Definition decodedPacket (pkt : EthPacket) : list LidarPoint :=
  if (data_type pkt =? kExtendCartesian)%nat then map (decode (timestamp pkt)) (data pkt)
  else [].
Definition decodedFrame (f : Frame) : list LidarPoint := concat (map decodedPacket f).
Definition decodedFile (frames : list Frame) : list LidarPoint :=
  concat (map decodedFrame frames).

Section Scanner.

(** The state of whoever consumes the points. *)
Context {U : Type}.

(** The scanner.  [disk] is what [filename] names; [remaining] and
    [fileState] are the reader [lvx_file]: the frames not read yet and its
    state.  [delivered] is not a member of the class: it records the calls
    of the callback, for the statements below. *)
Record Scanner : Type := mkScanner {
  disk : option (list Frame);
  remaining : list Frame;
  fileState : LvxFileState;
  packets_of_frame : Frame;
  frameOffset : nat;
  packetOffset : nat;
  scanning : bool;
  callback : option (U -> LidarPoint -> U * bool);
  user : U;
  delivered : list LidarPoint
}.

Definition setOffsets (fo po : nat) (s : Scanner) : Scanner :=
  mkScanner (disk s) (remaining s) (fileState s) (packets_of_frame s) fo po
    (scanning s) (callback s) (user s) (delivered s).

Definition setScanning (b : bool) (s : Scanner) : Scanner :=
  mkScanner (disk s) (remaining s) (fileState s) (packets_of_frame s) (frameOffset s)
    (packetOffset s) b (callback s) (user s) (delivered s).

(** [lvx_file.Open]: the reader is at the first frame of the file, or
    reports that there is no file. *)
Definition Open (s : Scanner) : Scanner :=
  match disk s with
  | Some frames =>
      mkScanner (disk s) frames kLvxFileOk (packets_of_frame s) (frameOffset s)
        (packetOffset s) (scanning s) (callback s) (user s) (delivered s)
  | None =>
      mkScanner (disk s) [] kLvxFileNotExist (packets_of_frame s) (frameOffset s)
        (packetOffset s) (scanning s) (callback s) (user s) (delivered s)
  end.

(** [lvx_file.GetPacketsOfFrame]: the next frame is read into the buffer, or
    the reader reports the end of the file. *)
Definition GetPacketsOfFrame (s : Scanner) : LvxFileState * Scanner :=
  match remaining s with
  | f :: rest =>
      (kLvxFileOk,
       mkScanner (disk s) rest (fileState s) f (frameOffset s) (packetOffset s)
         (scanning s) (callback s) (user s) (delivered s))
  | [] =>
      (kLvxFileAtEnd,
       mkScanner (disk s) [] kLvxFileAtEnd (packets_of_frame s) (frameOffset s)
         (packetOffset s) (scanning s) (callback s) (user s) (delivered s))
  end.

(** [ScannerLVX::init]. *)
Definition init (s : Scanner) : bool * Scanner :=
  let s := Open s in
  if LvxFileState_eqb (fileState s) kLvxFileOk then (true, setOffsets 0 0 s)
  else (false, s).

(** [ScannerLVX::pause]. *)
Definition pause (s : Scanner) : Scanner := setScanning false s.

(** [if (this->callback) this->callback(point)]: the callback runs, and may
    call [pause()]. *)
Definition invoke (pt : LidarPoint) (s : Scanner) : Scanner :=
  match callback s with
  | Some cb =>
      let '(u, paused) := cb (user s) pt in
      mkScanner (disk s) (remaining s) (fileState s) (packets_of_frame s)
        (frameOffset s) (packetOffset s)
        (if paused then false else scanning s) (callback s) u (delivered s ++ [pt])
  | None => s
  end.

(** The loop [while (i < points_in_packet)] of [readData] over the points
    [pts] of the packet from [packetOffset] on. *)
Fixpoint readPoints (ts : Z) (pts : list RawPoint) (s : Scanner) : Scanner :=
  match pts with
  | [] => s
  | p :: rest =>
      let s := invoke (decode ts p) s in
      if scanning s
      then readPoints ts rest (setOffsets (frameOffset s) (S (packetOffset s)) s)
      else s
  end.

(** The loop [while (frameOffset < packets_of_frame.data_size)] of
    [readData] over the packets [pkts] of the frame from [frameOffset] on. *)
Fixpoint readPackets (pkts : list EthPacket) (s : Scanner) : Scanner :=
  match pkts with
  | [] => s
  | pkt :: rest =>
      let s :=
        if (data_type pkt =? kExtendCartesian)%nat
        then readPoints (timestamp pkt) (drop (packetOffset s) (data pkt)) s
        else s in
      if scanning s
      then readPackets rest (setOffsets (S (frameOffset s)) 0 s)
      else s
  end.

(** The loop [while (fileState == kLvxFileOk)] of [readData].  [fuel] bounds
    the number of turns; [None] when it runs out. *)
Fixpoint readFrames (fuel : nat) (st : LvxFileState) (s : Scanner) : option Scanner :=
  match fuel with
  | O => None
  | S fuel' =>
      if LvxFileState_eqb st kLvxFileOk
      then
        let s := readPackets (drop (frameOffset s) (packets_of_frame s)) s in
        if scanning s
        then
          let '(st, s) := GetPacketsOfFrame (setOffsets 0 (packetOffset s) s) in
          readFrames fuel' st s
        else Some s
      else Some s
  end.

(** [ScannerLVX::readData]. *)
Definition readData (s : Scanner) : option (ScanCode * Scanner) :=
  let '(st, s) :=
    if (packetOffset s =? 0)%nat && (frameOffset s =? 0)%nat
    then GetPacketsOfFrame s else (kLvxFileOk, s) in
  match readFrames (2 + length (remaining s)) st s with
  | Some s =>
      if (frameOffset s =? 0)%nat && (packetOffset s =? 0)%nat
         && LvxFileState_eqb (fileState s) kLvxFileAtEnd
      then Some (kScanEof, setScanning false s)
      else Some (kScanOk, s)
  | None => None
  end.

(** [ScannerLVX::scan]. *)
Definition scan (s : Scanner) : option (ScanCode * Scanner) :=
  if negb (scanning s)
  then
    let s :=
      if (frameOffset s =? 0)%nat && (packetOffset s =? 0)%nat
         && LvxFileState_eqb (fileState s) kLvxFileAtEnd
      then Open s else s in
    if LvxFileState_eqb (fileState s) kLvxFileOk
    then readData (setScanning true s)
    else Some (kScanError, s)
  else Some (kScanError, s).

(** *** What a scan leaves untouched *)

(** Two states with the same file, reader, buffer and callback. *)
Definition sameReader (s s' : Scanner) : Prop :=
  disk s' = disk s /\ remaining s' = remaining s /\ fileState s' = fileState s /\
  packets_of_frame s' = packets_of_frame s /\ callback s' = callback s.

Lemma sameReader_refl s : sameReader s s.
Proof. repeat split. Qed.

Lemma sameReader_trans s1 s2 s3 :
  sameReader s1 s2 -> sameReader s2 s3 -> sameReader s1 s3.
Proof.
  intros (A1 & A2 & A3 & A4 & A5) (B1 & B2 & B3 & B4 & B5).
  repeat split; congruence.
Qed.

(** One call of the callback: the point is delivered, the offsets stay, and
    the scanner keeps scanning unless the callback paused it. *)
Lemma invoke_spec pt s :
  sameReader s (invoke pt s) /\
  frameOffset (invoke pt s) = frameOffset s /\
  packetOffset (invoke pt s) = packetOffset s /\
  (scanning (invoke pt s) = true -> scanning s = true) /\
  (callback s <> None -> delivered (invoke pt s) = delivered s ++ [pt]) /\
  (callback s = None -> invoke pt s = s).
Proof.
  unfold invoke. destruct (callback s) as [cb|] eqn:E.
  - destruct (cb (user s) pt) as [u paused]. cbn.
    split; [repeat split; first [reflexivity | assumption | symmetry; assumption]|].
    split; [reflexivity|]. split; [reflexivity|].
    split; [destruct paused; [discriminate | tauto]|].
    split; [reflexivity | discriminate].
  - split; [apply sameReader_refl|]. split; [reflexivity|]. split; [reflexivity|].
    split; [tauto|]. split; [intros H; destruct H; reflexivity | reflexivity].
Qed.

(** The loops only append to the record of the deliveries. *)
Lemma readPoints_frame ts pts : forall s,
  sameReader s (readPoints ts pts s) /\
  frameOffset (readPoints ts pts s) = frameOffset s /\
  exists more, delivered (readPoints ts pts s) = delivered s ++ more.
Proof.
  induction pts as [|p pts IH]; intros s; cbn [readPoints].
  - split; [apply sameReader_refl|]. split; [reflexivity|].
    exists []. rewrite app_nil_r. reflexivity.
  - destruct (invoke_spec (decode ts p) s) as (Hr & Hf & Hp & _ & Hd & Hn).
    assert (Hmore : exists more, delivered (invoke (decode ts p) s) = delivered s ++ more).
    { destruct (callback s) eqn:E.
      - exists [decode ts p]. apply Hd. discriminate.
      - rewrite Hn by reflexivity. exists []. rewrite app_nil_r. reflexivity. }
    destruct (scanning (invoke (decode ts p) s)).
    + destruct (IH (setOffsets (frameOffset (invoke (decode ts p) s))
                      (S (packetOffset (invoke (decode ts p) s)))
                      (invoke (decode ts p) s))) as (Hr' & Hf' & more' & Hd').
      split; [eapply sameReader_trans; [exact Hr | exact Hr']|].
      split; [rewrite Hf'; cbn; exact Hf|].
      destruct Hmore as [more Hm]. exists (more ++ more').
      rewrite Hd'. cbn. rewrite Hm, app_assoc. reflexivity.
    + split; [exact Hr|]. split; [exact Hf | exact Hmore].
Qed.

Lemma readPackets_frame pkts : forall s,
  sameReader s (readPackets pkts s) /\
  exists more, delivered (readPackets pkts s) = delivered s ++ more.
Proof.
  induction pkts as [|pkt pkts IH]; intros s; cbn [readPackets].
  - split; [apply sameReader_refl|]. exists []. rewrite app_nil_r. reflexivity.
  - set (s1 := if (data_type pkt =? kExtendCartesian)%nat
               then readPoints (timestamp pkt) (drop (packetOffset s) (data pkt)) s
               else s).
    assert (H1 : sameReader s s1 /\ exists more, delivered s1 = delivered s ++ more).
    { unfold s1. destruct (data_type pkt =? kExtendCartesian)%nat.
      - destruct (readPoints_frame (timestamp pkt) (drop (packetOffset s) (data pkt)) s)
          as (Hr & _ & Hm). split; assumption.
      - split; [apply sameReader_refl|]. exists []. rewrite app_nil_r. reflexivity. }
    destruct H1 as [Hr1 [more1 Hm1]].
    destruct (scanning s1).
    + destruct (IH (setOffsets (S (frameOffset s1)) 0 s1)) as (Hr2 & more2 & Hm2).
      split; [eapply sameReader_trans; [exact Hr1 | exact Hr2]|].
      exists (more1 ++ more2). rewrite Hm2. cbn. rewrite Hm1, app_assoc. reflexivity.
    + split; [exact Hr1|]. exists more1. exact Hm1.
Qed.

(** The loop over the frames ends within its fuel. *)
Lemma readFrames_total (fuel : nat) : forall st s,
  (length (remaining s) + 2 <= fuel)%nat ->
  exists s' more, readFrames fuel st s = Some s' /\
    delivered s' = delivered s ++ more /\ callback s' = callback s /\
    disk s' = disk s.
Proof.
  induction fuel as [|fuel IH]; intros st s Hfuel; [lia|].
  cbn [readFrames]. destruct (LvxFileState_eqb st kLvxFileOk).
  - destruct (readPackets_frame (drop (frameOffset s) (packets_of_frame s)) s)
      as ((Hd & Hrem & Hst & Hbuf & Hcb) & more1 & Hm1).
    set (s1 := readPackets (drop (frameOffset s) (packets_of_frame s)) s) in *.
    destruct (scanning s1).
    + unfold GetPacketsOfFrame. cbn [remaining setOffsets].
      destruct (remaining s1) as [|f rest] eqn:Er.
      * destruct fuel as [|fuel']; [lia|]. cbn.
        eexists _, more1. split; [reflexivity|]. cbn.
        split; [exact Hm1|]. split; assumption.
      * edestruct (IH kLvxFileOk) as (s' & more2 & E & Hm2 & Hcb2 & Hd2).
        2:{ rewrite E. exists s', (more1 ++ more2). split; [reflexivity|].
            rewrite Hm2. cbn. rewrite Hm1, app_assoc.
            split; [reflexivity|]. cbn in Hcb2, Hd2. split; congruence. }
        cbn. rewrite <- Hrem in Hfuel. cbn in Hfuel. lia.
    + exists s1, more1. split; [reflexivity|]. split; [exact Hm1|]. split; assumption.
  - exists s, []. rewrite app_nil_r. repeat split.
Qed.

(** *** A scan that is not paused *)

(** The callback is set and never calls [pause()]. *)
Definition quiet (s : Scanner) : Prop :=
  exists cb, callback s = Some cb /\ forall u pt, snd (cb u pt) = false.

Lemma quiet_sameReader s s' : sameReader s s' -> quiet s -> quiet s'.
Proof. intros (_ & _ & _ & _ & E) (cb & Hcb & Hq). exists cb. rewrite E. tauto. Qed.

Lemma invoke_quiet pt s :
  quiet s -> scanning s = true ->
  scanning (invoke pt s) = true /\ delivered (invoke pt s) = delivered s ++ [pt].
Proof.
  intros (cb & Hcb & Hq) Hs. unfold invoke. rewrite Hcb.
  specialize (Hq (user s) pt). destruct (cb (user s) pt) as [u paused].
  cbn in Hq. subst paused. cbn. split; [exact Hs | reflexivity].
Qed.

Lemma readPoints_quiet ts pts : forall s,
  quiet s -> scanning s = true ->
  scanning (readPoints ts pts s) = true /\
  delivered (readPoints ts pts s) = delivered s ++ map (decode ts) pts.
Proof.
  induction pts as [|p pts IH]; intros s Hq Hs; cbn [readPoints map].
  - rewrite app_nil_r. split; [exact Hs | reflexivity].
  - destruct (invoke_quiet (decode ts p) s Hq Hs) as [Hs1 Hd1].
    destruct (invoke_spec (decode ts p) s) as (Hr & _).
    rewrite Hs1.
    destruct (IH (setOffsets (frameOffset (invoke (decode ts p) s))
                    (S (packetOffset (invoke (decode ts p) s)))
                    (invoke (decode ts p) s))) as [Hs2 Hd2].
    { apply (quiet_sameReader s); [|exact Hq].
      destruct Hr as (A & B & C & D & E). repeat split; assumption. }
    { exact Hs1. }
    split; [exact Hs2|]. rewrite Hd2. cbn. rewrite Hd1, <- app_assoc. reflexivity.
Qed.

Lemma readPackets_quiet pkts : forall s,
  quiet s -> scanning s = true -> packetOffset s = O ->
  scanning (readPackets pkts s) = true /\
  delivered (readPackets pkts s) = delivered s ++ decodedFrame pkts /\
  packetOffset (readPackets pkts s) = O.
Proof.
  induction pkts as [|pkt pkts IH]; intros s Hq Hs Hp; cbn [readPackets].
  - unfold decodedFrame. cbn. rewrite app_nil_r. repeat split; assumption.
  - set (s1 := if (data_type pkt =? kExtendCartesian)%nat
               then readPoints (timestamp pkt) (drop (packetOffset s) (data pkt)) s
               else s).
    assert (H1 : scanning s1 = true /\
                 delivered s1 = delivered s ++ decodedPacket pkt /\ sameReader s s1).
    { unfold s1, decodedPacket. destruct (data_type pkt =? kExtendCartesian)%nat.
      - rewrite Hp, drop_0.
        destruct (readPoints_quiet (timestamp pkt) (data pkt) s Hq Hs) as [A B].
        destruct (readPoints_frame (timestamp pkt) (data pkt) s) as (C & _).
        split; [exact A|]. split; [exact B | exact C].
      - rewrite app_nil_r. split; [exact Hs|]. split; [reflexivity|].
        apply sameReader_refl. }
    destruct H1 as (Hs1 & Hd1 & Hr1). rewrite Hs1.
    destruct (IH (setOffsets (S (frameOffset s1)) 0 s1)) as (Hs2 & Hd2 & Hp2).
    { apply (quiet_sameReader s); [|exact Hq].
      destruct Hr1 as (A & B & C & D & E). repeat split; assumption. }
    { exact Hs1. }
    { reflexivity. }
    split; [exact Hs2|]. split; [|exact Hp2].
    rewrite Hd2. cbn [delivered setOffsets]. rewrite Hd1, <- app_assoc.
    reflexivity.
Qed.

Lemma readFrames_quiet (rest : list Frame) : forall fuel s,
  remaining s = rest -> quiet s -> scanning s = true ->
  frameOffset s = O -> packetOffset s = O ->
  (length rest + 2 <= fuel)%nat ->
  exists s', readFrames fuel kLvxFileOk s = Some s' /\
    delivered s' = delivered s ++ decodedFrame (packets_of_frame s) ++ decodedFile rest /\
    fileState s' = kLvxFileAtEnd /\ frameOffset s' = O /\ packetOffset s' = O.
Proof.
  induction rest as [|f rest IH]; intros fuel s Hrem Hq Hs Hf Hp Hfuel;
    (destruct fuel as [|fuel]; [cbn in Hfuel; lia|]); cbn [readFrames LvxFileState_eqb];
    rewrite Hf, drop_0;
    destruct (readPackets_quiet (packets_of_frame s) s Hq Hs Hp) as (Hs1 & Hd1 & Hp1);
    destruct (readPackets_frame (packets_of_frame s) s) as ((A & B & C & D & E) & _);
    rewrite Hs1; unfold GetPacketsOfFrame; cbn [remaining setOffsets]; rewrite B, Hrem.
  - destruct fuel as [|fuel]; [cbn in Hfuel; lia|]. cbn.
    eexists. split; [reflexivity|]. cbn. rewrite Hd1.
    unfold decodedFile. cbn. rewrite app_nil_r. repeat split; assumption.
  - edestruct (IH fuel) as (s' & E' & Hd' & Hst' & Hf' & Hp'); cycle 6.
    { rewrite E'. exists s'. split; [reflexivity|]. rewrite Hd'. cbn.
      rewrite Hd1. unfold decodedFile. cbn [map concat]. rewrite <- !app_assoc.
      repeat split; assumption. }
    + reflexivity.
    + destruct Hq as (cb & Hcb & Hq). exists cb. cbn. rewrite E. tauto.
    + exact Hs1.
    + reflexivity.
    + exact Hp1.
    + cbn in Hfuel. lia.
Qed.

(** A scanner just constructed over a file, with a callback that does [f]
    to the consumer's state and never pauses. *)
Definition freshQuiet (frames : list Frame) (f : U -> LidarPoint -> U) (u0 : U) : Scanner :=
  mkScanner (Some frames) [] kLvxFileOk [] 0 0 false
    (Some (fun u pt => (f u pt, false))) u0 [].


(** *** A scan that is paused, and the scan after it *)










(** C10: [scan()] called while a scan is in progress returns [kScanError]
    and changes nothing: the offsets, the flag and the reader are as they
    were, and the callback was not called. *)
Theorem scan_while_scanning (s : Scanner) :
  scanning s = true -> scan s = Some (kScanError, s).
Proof. intros Hs. unfold scan. rewrite Hs. reflexivity. Qed.

(** *** Scans one after the other, to the end of the file *)




















End Scanner.

Arguments Scanner : clear implicits.

(** *** Example: a file of one packet of two points *)

Definition firstPoint : RawPoint := mkRawPoint 1 2 3 4.
Definition secondPoint : RawPoint := mkRawPoint 5 6 7 8.
Definition twoPoints : list Frame :=
  [[mkEthPacket kExtendCartesian 100 [firstPoint; secondPoint]]].

(** A consumer that counts the points it is given and calls [pause()] while
    it is given the second one. *)
Definition pauseOnSecond (n : nat) (pt : LidarPoint) : nat * bool := (S n, (n =? 1)%nat).


(** The scanner after its first [scan()], which the consumer paused. *)
Definition twoPointsPaused : Scanner nat :=
  mkScanner (Some twoPoints) [] kLvxFileOk
    [mkEthPacket kExtendCartesian 100 [firstPoint; secondPoint]] 0 1 false
    (Some pauseOnSecond) 2%nat [decode 100 firstPoint; decode 100 secondPoint].



Lemma scan_while_scanning_witness :
  scan (setScanning true twoPointsPaused)
  = Some (kScanError, setScanning true twoPointsPaused).
Proof. apply (scan_while_scanning (setScanning true twoPointsPaused)). reflexivity. Defined.

End ScannerLVX.

(** * Further properties of the code

    ** models/Point.hh: the rotation of a point *)

(** Two points with the same coordinates as rationals, whatever their tags. *)
Definition Point_equiv (p q : Point) : Prop :=
  getX p == getX q /\ getY p == getY q /\ getZ p == getZ q.

(** [arma::mat33], read through [rot(i, j)]: three rows of three entries. *)
Record mat33 : Type := mkMat33 {
  r00 : Q; r01 : Q; r02 : Q;
  r10 : Q; r11 : Q; r12 : Q;
  r20 : Q; r21 : Q; r22 : Q
}.

(** [Point::rotate]. *)
Definition rotate (rot : mat33) (p : Point) : Point :=
  Point3 (r00 rot * getX p + r01 rot * getY p + r02 rot * getZ p)
         (r10 rot * getX p + r11 rot * getY p + r12 rot * getZ p)
         (r20 rot * getX p + r21 rot * getY p + r22 rot * getZ p).

(** The identity matrix. *)
Definition mat33_id : mat33 := mkMat33 1 0 0 0 1 0 0 0 1.

Ltac point_ring :=
  unfold Point_equiv, Point_add, rotate, mat33_id;
  cbn [getX getY getZ getClusterID Point3 r00 r01 r02 r10 r11 r12 r20 r21 r22].

(** ** models/BBox.hh: the other constructors and the comparisons *)

(** [BBox(const std::vector<Point> &points, const arma::mat33 &rot)]: the
    loop of the plain constructor, over the rotated points. *)
Definition BBox_of_points_rot (points : list Point) (rot : mat33) : BBox :=
  match points with
  | [] => mkBBox Point0 Point0 Point0
  | p0 :: rest =>
      let '(mn, mx) :=
        fold_left (fun mm p => BBox_grow mm (rotate rot p)) rest
          (rotate rot p0, rotate rot p0) in
      mkBBox (Point_sub mx mn) mn mx
  end.

(** [BBox::operator<], [operator==], [operator>], [operator<=] and
    [operator>=]: the comparisons of the volumes. *)
Definition BBox_lt (a b : BBox) : bool :=
  if Qlt_le_dec (volume a) (volume b) then true else false.
Definition BBox_ge (a b : BBox) : bool := Qle_bool (volume b) (volume a).

(** The least values of a coordinate over two lists differ by [c] when the
    values themselves do, each way. *)
Lemma is_min_shift f (l l' : list Point) (m m' c : Q) :
  (forall p, p ∈ l -> exists q, q ∈ l' /\ f q == f p + c) ->
  (forall q, q ∈ l' -> exists p, p ∈ l /\ f q == f p + c) ->
  is_min f l m -> is_min f l' m' -> m' == m + c.
Proof.
  intros Hto Hfrom [(p0 & Hp0 & Em) Hm] [(q0 & Hq0 & Em') Hm'].
  destruct (Hto p0 Hp0) as (q1 & Hq1 & E1).
  destruct (Hfrom q0 Hq0) as (p1 & Hp1 & E2).
  specialize (Hm p1 Hp1). specialize (Hm' q1 Hq1).
  rewrite <- Em, <- Em' in *. lra.
Qed.

Lemma is_max_shift f (l l' : list Point) (m m' c : Q) :
  (forall p, p ∈ l -> exists q, q ∈ l' /\ f q == f p + c) ->
  (forall q, q ∈ l' -> exists p, p ∈ l /\ f q == f p + c) ->
  is_max f l m -> is_max f l' m' -> m' == m + c.
Proof.
  intros Hto Hfrom [(p0 & Hp0 & Em) Hm] [(q0 & Hq0 & Em') Hm'].
  destruct (Hto p0 Hp0) as (q1 & Hq1 & E1).
  destruct (Hfrom q0 Hq0) as (p1 & Hp1 & E2).
  specialize (Hm p1 Hp1). specialize (Hm' q1 Hq1).
  rewrite <- Em, <- Em' in *. lra.
Qed.

(** The corners of the boxes of two non-empty vectors differ by the vector
    [v] when the points do, each way. *)
Lemma BBox_corners_shift (l l' : list Point) (v : Vector) :
  l <> [] -> l' <> [] ->
  (forall p, p ∈ l -> exists q, q ∈ l' /\ Point_equiv q (Point_add p v)) ->
  (forall q, q ∈ l' -> exists p, p ∈ l /\ Point_equiv q (Point_add p v)) ->
  Point_equiv (getMin (BBox_of_points l')) (Point_add (getMin (BBox_of_points l)) v) /\
  Point_equiv (getMax (BBox_of_points l')) (Point_add (getMax (BBox_of_points l)) v).
Proof.
  intros Hl Hl' Hto Hfrom.
  destruct (BBox_of_points_bounds l Hl) as [(X1 & X2 & Y1 & Y2 & Z1 & Z2) _].
  destruct (BBox_of_points_bounds l' Hl') as [(X1' & X2' & Y1' & Y2' & Z1' & Z2') _].
  cbn [fst snd] in *.
  assert (Tx : forall p, p ∈ l -> exists q, q ∈ l' /\ getX q == getX p + getX v).
  { intros p Hp. destruct (Hto p Hp) as (q & Hq & E & _). exists q. split; [exact Hq | exact E]. }
  assert (Ty : forall p, p ∈ l -> exists q, q ∈ l' /\ getY q == getY p + getY v).
  { intros p Hp. destruct (Hto p Hp) as (q & Hq & _ & E & _). exists q. split; [exact Hq | exact E]. }
  assert (Tz : forall p, p ∈ l -> exists q, q ∈ l' /\ getZ q == getZ p + getZ v).
  { intros p Hp. destruct (Hto p Hp) as (q & Hq & _ & _ & E). exists q. split; [exact Hq | exact E]. }
  assert (Fx : forall q, q ∈ l' -> exists p, p ∈ l /\ getX q == getX p + getX v).
  { intros q Hq. destruct (Hfrom q Hq) as (p & Hp & E & _). exists p. split; [exact Hp | exact E]. }
  assert (Fy : forall q, q ∈ l' -> exists p, p ∈ l /\ getY q == getY p + getY v).
  { intros q Hq. destruct (Hfrom q Hq) as (p & Hp & _ & E & _). exists p. split; [exact Hp | exact E]. }
  assert (Fz : forall q, q ∈ l' -> exists p, p ∈ l /\ getZ q == getZ p + getZ v).
  { intros q Hq. destruct (Hfrom q Hq) as (p & Hp & _ & _ & E). exists p. split; [exact Hp | exact E]. }
  unfold Point_equiv, Point_add. cbn [getX getY getZ Point3].
  split; (split; [|split]).
  - exact (is_min_shift getX l l' _ _ _ Tx Fx X1 X1').
  - exact (is_min_shift getY l l' _ _ _ Ty Fy Y1 Y1').
  - exact (is_min_shift getZ l l' _ _ _ Tz Fz Z1 Z1').
  - exact (is_max_shift getX l l' _ _ _ Tx Fx X2 X2').
  - exact (is_max_shift getY l l' _ _ _ Ty Fy Y2 Y2').
  - exact (is_max_shift getZ l l' _ _ _ Tz Fz Z2 Z2').
Qed.

(** The delta of a box is the difference of its corners, and its volume the
    product of the three differences. *)
Lemma BBox_of_points_delta (l : list Point) :
  getX (getDelta (BBox_of_points l))
  = getX (getMax (BBox_of_points l)) - getX (getMin (BBox_of_points l)) /\
  getY (getDelta (BBox_of_points l))
  = getY (getMax (BBox_of_points l)) - getY (getMin (BBox_of_points l)) /\
  getZ (getDelta (BBox_of_points l))
  = getZ (getMax (BBox_of_points l)) - getZ (getMin (BBox_of_points l)).
Proof.
  destruct l as [|p0 rest]; [repeat split|].
  destruct (BBox_of_points_bounds (p0 :: rest)) as [_ E]; [discriminate|].
  rewrite E. repeat split.
Qed.





Lemma Point_add_zero (p : Point) : Point_equiv (Point_add p (Point3 0 0 0)) p.
Proof. point_ring. split; [|split]; ring. Qed.

Lemma Point_equiv_trans (p q r : Point) :
  Point_equiv p q -> Point_equiv q r -> Point_equiv p r.
Proof.
  intros (A & B & C) (A' & B' & C').
  split; [|split]; etransitivity; eassumption.
Qed.

Lemma Point_equiv_sym (p q : Point) : Point_equiv p q -> Point_equiv q p.
Proof. intros (A & B & C). split; [|split]; symmetry; assumption. Qed.

(** X9: the box depends on the set of the points only, not on their order
    nor on how often each occurs. *)
Theorem BBox_of_points_set (points points' : list Point) :
  (forall p, p ∈ points <-> p ∈ points') ->
  Point_equiv (getMin (BBox_of_points points')) (getMin (BBox_of_points points)) /\
  Point_equiv (getMax (BBox_of_points points')) (getMax (BBox_of_points points)) /\
  Point_equiv (getDelta (BBox_of_points points')) (getDelta (BBox_of_points points)) /\
  volume (BBox_of_points points') == volume (BBox_of_points points).
Proof.
  intros Hset.
  assert (Hc : Point_equiv (getMin (BBox_of_points points')) (getMin (BBox_of_points points)) /\
               Point_equiv (getMax (BBox_of_points points')) (getMax (BBox_of_points points))).
  { destruct points as [|p0 rest].
    - destruct points' as [|q0 rest'].
      + split; split; [|split| |split]; reflexivity.
      + exfalso. apply (elem_of_nil q0), Hset, list_elem_of_here.
    - assert (Hne' : points' <> []).
      { intros ->. apply (elem_of_nil p0), Hset, list_elem_of_here. }
      destruct (BBox_corners_shift (p0 :: rest) points' (Point3 0 0 0)) as [A B];
        [discriminate | exact Hne' | | |].
      + intros p Hp. exists p. split; [apply Hset; exact Hp|].
        apply Point_equiv_sym, Point_add_zero.
      + intros q Hq. exists q. split; [apply Hset; exact Hq|].
        apply Point_equiv_sym, Point_add_zero.
      + split; (eapply Point_equiv_trans; [eassumption | apply Point_add_zero]). }
  destruct Hc as [(A1 & A2 & A3) (B1 & B2 & B3)].
  split; [repeat split; assumption|]. split; [repeat split; assumption|].
  destruct (BBox_of_points_delta points) as (Ex & Ey & Ez).
  destruct (BBox_of_points_delta points') as (Ex' & Ey' & Ez').
  assert (Hd : Point_equiv (getDelta (BBox_of_points points'))
                 (getDelta (BBox_of_points points))).
  { unfold Point_equiv. rewrite Ex, Ey, Ez, Ex', Ey', Ez', A1, A2, A3, B1, B2, B3.
    repeat split; reflexivity. }
  split; [exact Hd|]. destruct Hd as (D1 & D2 & D3).
  unfold volume. rewrite D1, D2, D3. reflexivity.
Qed.

Lemma BBox_of_points_set_witness :
  Point_equiv (getMin (BBox_of_points [Point3 4 5 6; Point3 1 2 3; Point3 4 5 6]))
    (getMin (BBox_of_points [Point3 1 2 3; Point3 4 5 6])) /\
  Point_equiv (getMax (BBox_of_points [Point3 4 5 6; Point3 1 2 3; Point3 4 5 6]))
    (getMax (BBox_of_points [Point3 1 2 3; Point3 4 5 6])) /\
  Point_equiv (getDelta (BBox_of_points [Point3 4 5 6; Point3 1 2 3; Point3 4 5 6]))
    (getDelta (BBox_of_points [Point3 1 2 3; Point3 4 5 6])) /\
  volume (BBox_of_points [Point3 4 5 6; Point3 1 2 3; Point3 4 5 6])
  == volume (BBox_of_points [Point3 1 2 3; Point3 4 5 6]).
Proof.
  apply (BBox_of_points_set [Point3 1 2 3; Point3 4 5 6]
           [Point3 4 5 6; Point3 1 2 3; Point3 4 5 6]).
  intros p. rewrite !elem_of_cons, !elem_of_nil. tauto.
Defined.




Lemma fold_left_BBox_grow_map (g : Point -> Point) (l : list Point) : forall mm,
  fold_left (fun mm p => BBox_grow mm (g p)) l mm = fold_left BBox_grow (map g l) mm.
Proof. induction l as [|p l IH]; intros mm; [reflexivity | apply IH]. Qed.

(** X12: the constructor that takes a rotation builds the box of the rotated
    points; with the identity matrix its corners, deltas and volume are those
    of the box the plain constructor builds. *)
Theorem BBox_of_points_rot_spec (points : list Point) (rot : mat33) :
  BBox_of_points_rot points rot = BBox_of_points (map (rotate rot) points) /\
  Point_equiv (getMin (BBox_of_points_rot points mat33_id)) (getMin (BBox_of_points points)) /\
  Point_equiv (getMax (BBox_of_points_rot points mat33_id)) (getMax (BBox_of_points points)) /\
  Point_equiv (getDelta (BBox_of_points_rot points mat33_id))
    (getDelta (BBox_of_points points)) /\
  volume (BBox_of_points_rot points mat33_id) == volume (BBox_of_points points).
Proof.
  assert (Hrot : forall r, BBox_of_points_rot points r = BBox_of_points (map (rotate r) points)).
  { intros r. destruct points as [|p0 rest]; [reflexivity|].
    unfold BBox_of_points_rot, BBox_of_points. cbn [map].
    rewrite fold_left_BBox_grow_map. reflexivity. }
  split; [apply Hrot|]. rewrite Hrot.
  assert (Hid : forall p, Point_equiv (rotate mat33_id p) p).
  { intros p. point_ring. split; [|split]; ring. }
  assert (Hc : Point_equiv (getMin (BBox_of_points (map (rotate mat33_id) points)))
                 (getMin (BBox_of_points points)) /\
               Point_equiv (getMax (BBox_of_points (map (rotate mat33_id) points)))
                 (getMax (BBox_of_points points))).
  { destruct points as [|p0 rest]; [split; repeat split; reflexivity|].
    destruct (BBox_corners_shift (p0 :: rest) (map (rotate mat33_id) (p0 :: rest))
                (Point3 0 0 0)) as [A B]; [discriminate | discriminate | | |].
    - intros p Hp. exists (rotate mat33_id p). split.
      + apply list_elem_of_fmap. exists p. split; [reflexivity | exact Hp].
      + eapply Point_equiv_trans; [apply Hid|]. apply Point_equiv_sym, Point_add_zero.
    - intros q Hq. apply list_elem_of_fmap in Hq as (p & -> & Hp). exists p.
      split; [exact Hp|].
      eapply Point_equiv_trans; [apply Hid|]. apply Point_equiv_sym, Point_add_zero.
    - split; (eapply Point_equiv_trans; [eassumption | apply Point_add_zero]). }
  destruct Hc as [(A1 & A2 & A3) (B1 & B2 & B3)].
  split; [repeat split; assumption|]. split; [repeat split; assumption|].
  destruct (BBox_of_points_delta points) as (Ex & Ey & Ez).
  destruct (BBox_of_points_delta (map (rotate mat33_id) points)) as (Ex' & Ey' & Ez').
  assert (Hd : Point_equiv (getDelta (BBox_of_points (map (rotate mat33_id) points)))
                 (getDelta (BBox_of_points points))).
  { unfold Point_equiv. rewrite Ex, Ey, Ez, Ex', Ey', Ez', A1, A2, A3, B1, B2, B3.
    repeat split; reflexivity. }
  split; [exact Hd|]. destruct Hd as (D1 & D2 & D3).
  unfold volume. rewrite D1, D2, D3. reflexivity.
Qed.

(** ** app/CLICommand.hh

    A [std::string] is the list of its characters. *)
Module CLICommand.

Import Ascii.
Import (notations) String.

Definition str : Type := list ascii.

(** The characters of a string literal. *)
Definition lit (s : String.string) : str := String.list_ascii_of_string s.

Definition space : ascii := " "%char.

Fixpoint str_eqb (a b : str) : bool :=
  match a, b with
  | [], [] => true
  | c :: a', d :: b' => Ascii.eqb c d && str_eqb a' b'
  | _, _ => false
  end.

Inductive CLICommandType : Type :=
  | kExit | kHelp | kChrono | kDefine | kSet | kDiscard | kObject | kModel
  | kInfo | kList | kAnalyze | kUnknown.

(** [class CLICommand]. *)
Record CLICommand : Type := mkCLICommand {
  getType : CLICommandType;
  params : list str
}.

(** [std::getline(commandStream, item, ' ')] on a stream that still holds
    characters: the item is made of the characters before the first space,
    which is taken off the stream with them; without a space the item is all
    that is left.  The result is the item and what the stream still holds. *)
Fixpoint getline (stream : str) : str * str :=
  match stream with
  | [] => ([], [])
  | c :: rest =>
      if Ascii.eqb c space then ([], rest)
      else let '(item, rest') := getline rest in (c :: item, rest')
  end.

(** The loop [while (std::getline(commandStream, item, ' '))] of [parse]:
    [getline] fails once the stream holds no character.  [fuel] bounds the
    number of turns; [None] when it runs out. *)
Fixpoint readParams (fuel : nat) (stream : str) (params : list str) : option (list str) :=
  match fuel with
  | O => None
  | S fuel' =>
      match stream with
      | [] => Some params
      | _ :: _ =>
          let '(item, rest) := getline stream in
          readParams fuel' rest
            (match item with [] => params | _ :: _ => params ++ [item] end)
      end
  end.

(** The chain of comparisons of [params[0]] in [parse]. *)
Definition typeOf (word : str) : CLICommandType :=
  if str_eqb word (lit "exit"%string) then kExit
  else if str_eqb word (lit "help"%string) then kHelp
  else if str_eqb word (lit "chrono"%string) then kChrono
  else if str_eqb word (lit "define"%string) then kDefine
  else if str_eqb word (lit "set"%string) then kSet
  else if str_eqb word (lit "discard"%string) then kDiscard
  else if str_eqb word (lit "object"%string) then kObject
  else if str_eqb word (lit "model"%string) then kModel
  else if str_eqb word (lit "info"%string) then kInfo
  else if str_eqb word (lit "list"%string) then kList
  else if str_eqb word (lit "analyze"%string) then kAnalyze
  else kUnknown.

(** [CLICommand::parse]. *)
Definition parse (input : str) : option CLICommand :=
  match readParams (S (length input)) input [] with
  | None => None
  | Some [] => Some (mkCLICommand kUnknown [])
  | Some (first :: others) =>
      match typeOf first with
      | kUnknown => Some (mkCLICommand kUnknown [])
      | type => Some (mkCLICommand type (first :: others))
      end
  end.

(** [CLICommand::isValid]. *)
Definition isValid (cmd : CLICommand) : bool :=
  match getType cmd with kUnknown => false | _ => true end.

(** The conversion of an unsigned number to [int]: the number modulo [2^32],
    read in two's complement. *)
Definition toInt (z : Z) : Z := ((z + 2 ^ 31) mod 2 ^ 32 - 2 ^ 31)%Z.

(** [CLICommand::numParams]: the subtraction is made on 64-bit unsigned
    numbers and the result returned as an [int]. *)
Definition numParams (cmd : CLICommand) : Z :=
  toInt (if (0 <? length (params cmd))%nat
         then (Z.of_nat (length (params cmd)) - 1) mod 2 ^ 64
         else 0)%Z.

(** [CLICommand::operator[]] for an index [i] of type [unsigned int].  The
    test [params.size() - 1 > i] is made on 64-bit unsigned numbers, where
    [0 - 1] is [2^64 - 1]; [i + 1] is a sum of 32-bit unsigned numbers;
    [params[i + 1]] is an element of the vector or lies outside of it, and
    the access has no result ([None]) then. *)
Definition index (cmd : CLICommand) (i : Z) : option str :=
  if (i <? (Z.of_nat (length (params cmd)) - 1) mod 2 ^ 64)%Z
  then params cmd !! Z.to_nat ((i + 1) mod 2 ^ 32)
  else Some [].

(** *** What the parser returns *)

(** A word: at least one character, none of them a space. *)
Definition isWord (w : str) : Prop := w <> [] /\ (space ∉ w).

(** The characters of a string that are not spaces. *)
Definition unspaced (s : str) : str := List.filter (fun c => negb (Ascii.eqb c space)) s.

Lemma getline_spec (stream : str) :
  (space ∉ fst (getline stream)) /\
  unspaced stream = fst (getline stream) ++ unspaced (snd (getline stream)) /\
  (length (snd (getline stream)) <= length stream - 1)%nat.
Proof.
  induction stream as [|c rest (IH1 & IH2 & IH3)]; cbn [getline].
  - split; [apply not_elem_of_nil|]. split; [reflexivity | cbn; lia].
  - unfold unspaced in *. cbn [List.filter].
    destruct (Ascii.eqb c space) eqn:E; cbn [negb].
    + split; [apply not_elem_of_nil|]. split; [reflexivity | cbn; lia].
    + destruct (getline rest) as [item rest'] eqn:G. cbn [fst snd] in *.
      split; [|split].
      * intros Hin. apply elem_of_cons in Hin as [Hin | Hin]; [|contradiction].
        subst c. rewrite Ascii.eqb_refl in E. discriminate.
      * rewrite IH2. reflexivity.
      * cbn [length]. lia.
Qed.

(** The loop ends within its fuel; what it adds to the parameters are words,
    and they are the characters of the stream without its spaces. *)
Lemma readParams_spec (fuel : nat) : forall stream acc,
  (length stream < fuel)%nat ->
  exists more, readParams fuel stream acc = Some (acc ++ more) /\
    Forall isWord more /\ concat more = unspaced stream.
Proof.
  induction fuel as [|fuel IH]; intros stream acc Hfuel; [lia|].
  cbn [readParams]. destruct stream as [|c rest].
  - exists []. rewrite app_nil_r. split; [reflexivity|]. split; [constructor | reflexivity].
  - destruct (getline_spec (c :: rest)) as (Hsp & Hun & Hlen).
    destruct (getline (c :: rest)) as [item rest'] eqn:G. cbn [fst snd] in *.
    cbn [length] in Hlen, Hfuel.
    destruct item as [|d item]; cbv beta iota zeta.
    + destruct (IH rest' acc) as (more & E & Hw & Hc); [lia|].
      exists more. split; [exact E|]. split; [exact Hw|]. rewrite Hc, Hun. reflexivity.
    + destruct (IH rest' (acc ++ [d :: item])) as (more & E & Hw & Hc); [lia|].
      exists ((d :: item) :: more). split; [rewrite <- app_assoc in E; exact E|].
      split; [constructor; [split; [discriminate | exact Hsp] | exact Hw]|].
      cbn [concat]. rewrite Hc, Hun. reflexivity.
Qed.

(** The type of a command that [parse] built is the type of its first
    parameter; an unknown command has no parameter. *)
Lemma parse_spec (input : str) :
  exists cmd, parse input = Some cmd /\
    ((getType cmd = kUnknown /\ params cmd = []) \/
     (exists first others,
        readParams (S (length input)) input [] = Some (first :: others) /\
        params cmd = first :: others /\ getType cmd = typeOf first /\
        typeOf first <> kUnknown)).
Proof.
  unfold parse.
  destruct (readParams_spec (S (length input)) input []) as (more & E & _); [lia|].
  rewrite E. cbn [app]. destruct more as [|first others].
  - eexists. split; [reflexivity|]. left. split; reflexivity.
  - destruct (typeOf first) eqn:T;
      (eexists; split; [reflexivity|]);
      try (right; exists first, others; cbn [params getType]; rewrite T;
           repeat split; discriminate).
    left. split; reflexivity.
Qed.

(** X13: [parse] returns a command for every input.  The parameters of the
    command are words, none empty and none with a space; a command that is
    not valid has no parameter at all; the parameters of a valid command are,
    put together, the input without its spaces, and the first of them decides
    the type. *)
Theorem parse_params_words (input : str) :
  exists cmd, parse input = Some cmd /\
    Forall isWord (params cmd) /\
    (isValid cmd = false -> params cmd = []) /\
    (isValid cmd = true ->
       concat (params cmd) = unspaced input /\
       exists first others, params cmd = first :: others /\ getType cmd = typeOf first).
Proof.
  destruct (parse_spec input) as (cmd & E & H). exists cmd. split; [exact E|].
  destruct (readParams_spec (S (length input)) input []) as (more & Er & Hw & Hc); [lia|].
  cbn [app] in Er. unfold isValid.
  destruct H as [[Ht Hp] | (first & others & Er' & Hp & Ht & Hk)].
  - rewrite Hp, Ht. split; [constructor|]. split; [reflexivity | discriminate].
  - rewrite Er in Er'. injection Er' as ->. rewrite Hp.
    split; [exact Hw|]. split.
    + rewrite Ht. destruct (typeOf first); try discriminate. contradiction.
    + intros _. split; [exact Hc|]. exists first, others. split; [reflexivity | exact Ht].
Qed.

(** *** Words in, parameters out *)

Definition spaces (n : nat) : str := repeat space n.

(** The words [ws] written one after the other: each word is followed by the
    number of spaces that goes with it, and by one more when a word follows. *)
Fixpoint render (ws : list (str * nat)) : str :=
  match ws with
  | [] => []
  | (w, n) :: rest =>
      w ++ spaces n ++ match rest with [] => [] | _ :: _ => space :: render rest end
  end.

Lemma getline_word (w s : str) :
  space ∉ w -> getline (w ++ s) = (w ++ fst (getline s), snd (getline s)).
Proof.
  induction w as [|c w IH]; intros Hw; cbn [app].
  - destruct (getline s); reflexivity.
  - apply not_elem_of_cons in Hw as [Hc Hw]. cbn [getline].
    destruct (Ascii.eqb c space) eqn:E.
    + apply Ascii.eqb_eq in E. congruence.
    + rewrite (IH Hw). reflexivity.
Qed.

Lemma readParams_spaces (pre : nat) : forall fuel s acc,
  (pre < fuel)%nat ->
  readParams fuel (spaces pre ++ s) acc = readParams (fuel - pre) s acc.
Proof.
  induction pre as [|pre IH]; intros fuel s acc Hfuel.
  - rewrite Nat.sub_0_r. reflexivity.
  - destruct fuel as [|fuel]; [lia|]. cbn [spaces repeat app readParams getline].
    unfold space at 1. rewrite Ascii.eqb_refl. cbv beta iota zeta.
    apply (IH fuel s acc). lia.
Qed.

Lemma spaces_length n : length (spaces n) = n.
Proof. apply repeat_length. Qed.

Lemma spaces_snoc n (s : str) : spaces n ++ space :: s = space :: spaces n ++ s.
Proof.
  unfold spaces. induction n as [|n IH]; [reflexivity|].
  cbn [repeat app]. rewrite IH. reflexivity.
Qed.

Lemma readParams_render (ws : list (str * nat)) : forall pre fuel acc,
  Forall (fun wn => isWord (fst wn)) ws ->
  (length (spaces pre ++ render ws) < fuel)%nat ->
  readParams fuel (spaces pre ++ render ws) acc = Some (acc ++ map fst ws).
Proof.
  induction ws as [|[w n] rest IH]; intros pre fuel acc Hws Hfuel.
  - cbn [render map] in *. rewrite app_nil_r in *. rewrite spaces_length in Hfuel.
    rewrite <- (app_nil_r (spaces pre)), readParams_spaces by lia.
    destruct (fuel - pre)%nat eqn:E; [lia|]. cbn [readParams]. rewrite app_nil_r.
    reflexivity.
  - apply Forall_cons in Hws as [[Hne Hsp] Hws]. cbn [fst] in Hne, Hsp.
    cbn [render map] in *. rewrite !length_app, !spaces_length in Hfuel.
    rewrite readParams_spaces by lia.
    destruct (fuel - pre)%nat as [|fuel'] eqn:E; [lia|].
    destruct w as [|d w]; [contradiction|].
    cbn [app readParams]. change (d :: w ++ ?x) with ((d :: w) ++ x).
    rewrite (getline_word (d :: w) _ Hsp). cbn [length] in Hfuel.
    assert (Hacc : forall more, (acc ++ [d :: w]) ++ more = acc ++ (d :: w) :: more)
      by (intros more; rewrite <- app_assoc; reflexivity).
    destruct rest as [|wn rest'].
    + rewrite app_nil_r in *. destruct n as [|n].
      * cbn [spaces repeat getline fst snd app]. cbv beta iota zeta.
        destruct fuel'; [cbn [length] in Hfuel; lia|].
        cbn [readParams map]. rewrite !app_nil_r. reflexivity.
      * cbn [spaces repeat getline]. unfold space at 1. rewrite Ascii.eqb_refl.
        cbn [fst snd]. rewrite app_nil_r. cbv beta iota zeta.
        replace (repeat space n) with (spaces n ++ render []) by apply app_nil_r.
        etransitivity; [apply (IH n fuel' _ Hws) | rewrite Hacc; reflexivity].
        cbn [render length] in *. rewrite app_nil_r, spaces_length.
        cbn [repeat length] in Hfuel. lia.
    + rewrite spaces_snoc. cbn [getline]. unfold space at 1. rewrite Ascii.eqb_refl.
      cbn [fst snd]. rewrite app_nil_r. cbv beta iota zeta.
      etransitivity; [apply (IH n fuel' _ Hws) | rewrite Hacc; reflexivity].
      rewrite !length_app, !spaces_length in *. cbn [length] in Hfuel. lia.
Qed.

(** X14: whatever the spaces before, between and after them, the words of an
    input come out as the parameters, in order: when the first word is one
    of the eleven command names the command has that type and all the words;
    otherwise the command is [kUnknown] and keeps no word. *)
Theorem parse_render (pre : nat) (ws : list (str * nat)) :
  Forall (fun wn => isWord (fst wn)) ws ->
  parse (spaces pre ++ render ws)
  = Some match map fst ws with
         | [] => mkCLICommand kUnknown []
         | first :: others =>
             match typeOf first with
             | kUnknown => mkCLICommand kUnknown []
             | type => mkCLICommand type (first :: others)
             end
         end.
Proof.
  intros Hws. unfold parse. rewrite (readParams_render ws pre _ [] Hws) by lia.
  cbn [app]. destruct (map fst ws) as [|first others]; [reflexivity|].
  destruct (typeOf first); reflexivity.
Qed.

Lemma parse_render_witness :
  parse (spaces 2 ++ render [(lit "set"%string, 1%nat); (lit "chrono"%string, O);
                             (lit "on"%string, 3%nat)])
  = Some (mkCLICommand kSet [lit "set"%string; lit "chrono"%string; lit "on"%string]).
Proof.
  apply (parse_render 2 [(lit "set"%string, 1%nat); (lit "chrono"%string, O);
                         (lit "on"%string, 3%nat)]).
  repeat constructor; try discriminate;
    cbn; intros H; repeat (apply elem_of_cons in H as [H | H]; [discriminate|]);
    apply elem_of_nil in H; exact H.
Defined.

Lemma words_length_concat (ws : list str) :
  Forall isWord ws -> (length ws <= length (concat ws))%nat.
Proof.
  induction 1 as [|w ws [Hne _] _ IH]; [reflexivity|].
  cbn [concat length]. rewrite length_app. destruct w; [contradiction|]. cbn [length]. lia.
Qed.

(** X15: for a valid command of an input of less than [2^31] characters,
    [numParams] is the number of words after the first, and [cmd[i]] is the
    word of that position after the first, or the empty string when there is
    none: the access stays inside the vector. *)
Theorem index_valid (input : str) (cmd : CLICommand) (i : Z) :
  (Z.of_nat (length input) < 2 ^ 31)%Z -> (0 <= i < 2 ^ 32)%Z ->
  parse input = Some cmd -> isValid cmd = true ->
  numParams cmd = (Z.of_nat (length (params cmd)) - 1)%Z /\
  (0 < length (params cmd))%nat /\
  index cmd i = Some (nth (S (Z.to_nat i)) (params cmd) []).
Proof.
  intros Hsize Hi E Hv.
  destruct (parse_spec input) as (cmd' & E' & H). rewrite E in E'. injection E' as <-.
  destruct (readParams_spec (S (length input)) input []) as (more & Er & Hw & Hc); [lia|].
  destruct H as [[Ht _] | (first & others & Er' & Hp & _)];
    [unfold isValid in Hv; rewrite Ht in Hv; discriminate|].
  assert (Hlen : (length (params cmd) <= length input)%nat).
  { rewrite Hp. rewrite Er in Er'. cbn [app] in Er'. injection Er' as ->.
    transitivity (length (concat (first :: others))).
    - apply words_length_concat. exact Hw.
    - rewrite Hc. unfold unspaced. apply List.filter_length_le. }
  assert (H31 : (2 ^ 31 = 2147483648)%Z) by reflexivity.
  assert (H32 : (2 ^ 32 = 4294967296)%Z) by reflexivity.
  assert (H64 : (2 ^ 64 = 18446744073709551616)%Z) by reflexivity.
  unfold numParams, index, toInt. rewrite Hp in *. cbn [length] in *.
  rewrite H31, H32, H64 in *.
  replace (0 <? S (length others))%nat with true by (symmetry; apply Nat.ltb_lt; lia).
  rewrite (Z.mod_small (Z.of_nat (S (length others)) - 1)) by lia.
  split; [rewrite Z.mod_small by lia; lia|]. split; [lia|].
  destruct (Z.ltb_spec i (Z.of_nat (S (length others)) - 1)) as [Hlt | Hge].
  - rewrite Z.mod_small by lia.
    replace (Z.to_nat (i + 1)) with (S (Z.to_nat i)) by lia.
    destruct (lookup_lt_is_Some_2 (first :: others) (S (Z.to_nat i))) as [x Hx];
      [cbn [length]; lia|].
    rewrite Hx. f_equal. symmetry. apply nth_lookup_Some with (d := []) in Hx. exact Hx.
  - f_equal. symmetry. apply nth_overflow. cbn [length]. lia.
Qed.

Lemma index_valid_witness :
  numParams (mkCLICommand kSet [lit "set"%string; lit "chrono"%string; lit "on"%string])
  = (Z.of_nat (length (params (mkCLICommand kSet
                       [lit "set"%string; lit "chrono"%string; lit "on"%string]))) - 1)%Z /\
  (0 < length (params (mkCLICommand kSet
                         [lit "set"%string; lit "chrono"%string; lit "on"%string])))%nat /\
  index (mkCLICommand kSet [lit "set"%string; lit "chrono"%string; lit "on"%string]) 1
  = Some (nth (S (Z.to_nat 1)) (params (mkCLICommand kSet
                           [lit "set"%string; lit "chrono"%string; lit "on"%string])) []).
Proof.
  apply (index_valid (lit "set chrono on"%string)).
  - vm_compute. reflexivity.
  - lia.
  - vm_compute. reflexivity.
  - reflexivity.
Defined.

(** X16: for a command that is not valid, [numParams] is 0 and [cmd[i]]
    reads outside of the vector whatever the index: the vector is empty, and
    [params.size() - 1], taken on unsigned numbers, is above every index. *)
Theorem index_unknown (input : str) (cmd : CLICommand) (i : Z) :
  (0 <= i < 2 ^ 32)%Z ->
  parse input = Some cmd -> isValid cmd = false ->
  numParams cmd = 0%Z /\ index cmd i = None.
Proof.
  intros Hi E Hv.
  destruct (parse_spec input) as (cmd' & E' & H). rewrite E in E'. injection E' as <-.
  destruct H as [[_ Hp] | (first & others & _ & _ & Ht & Hk)].
  - unfold numParams, index. rewrite Hp. split; [reflexivity|].
    assert (Eb : ((Z.of_nat (length (@nil str)) - 1) mod 2 ^ 64 = 2 ^ 64 - 1)%Z)
      by reflexivity.
    rewrite Eb.
    assert (H32 : (2 ^ 32 = 4294967296)%Z) by reflexivity.
    assert (H64 : (2 ^ 64 = 18446744073709551616)%Z) by reflexivity.
    rewrite H32 in Hi. rewrite H64.
    destruct (Z.ltb_spec i (18446744073709551616 - 1)) as [_ | Hge]; [reflexivity | lia].
  - unfold isValid in Hv. rewrite Ht in Hv.
    destruct (typeOf first); try discriminate. contradiction.
Qed.

Lemma index_unknown_witness :
  numParams (mkCLICommand kUnknown []) = 0%Z /\ index (mkCLICommand kUnknown []) 3 = None.
Proof.
  apply (index_unknown (lit "undo last"%string)).
  - lia.
  - vm_compute. reflexivity.
  - reflexivity.
Defined.

End CLICommand.

(** ** object_characterization/ObjectCharacterizer.hh

    The scanner, the octree maps and the timestamps are classes of headers
    that are not part of the sources at hand: they are the parameters
    [IScanner], [OctreeMap] and [Timestamp].  A [uint32_t] and a [uint64_t]
    are integers with their wrap-around written out; a [float] is an exact
    rational. *)
Module ObjectCharacterizer.

Inductive CharacterizerState : Type := defBackground | defObject | defDiscard | defStopped.

Section Characterizer.

Context {IScanner OctreeMap Timestamp : Type}.
Variable emptyMap : OctreeMap.
Variable Timestamp00 : Timestamp.

Record ObjectCharacterizer : Type := mkObjectCharacterizer {
  scanner : IScanner;
  chrono : bool;
  objFrame : Z;
  backFrame : Z;
  minReflectivity : Q;
  backDistance : Q;
  state : CharacterizerState;
  background : OctreeMap;
  object : OctreeMap;
  discardTime : Z;
  discardStartTime : bool * Timestamp
}.

(** [static_cast<uint64_t>(ms) * 1000000] for [ms] of type [uint32_t]: the
    product of 64-bit unsigned numbers. *)
Definition toNanoseconds (ms : Z) : Z := ((ms mod 2 ^ 32) * 1000000) mod 2 ^ 64.

(** The constructor. *)
Definition new (scanner : IScanner) (objFrame backFrame : Z) (minReflectivity backDistance : Q)
    (chrono : bool) : ObjectCharacterizer :=
  mkObjectCharacterizer scanner chrono (toNanoseconds objFrame) (toNanoseconds backFrame)
    minReflectivity (backDistance * 1000) defStopped emptyMap emptyMap 0
    (false, Timestamp00).

(** The setters. *)
Definition setChrono (c : bool) (oc : ObjectCharacterizer) : ObjectCharacterizer :=
  mkObjectCharacterizer (scanner oc) c (objFrame oc) (backFrame oc) (minReflectivity oc)
    (backDistance oc) (state oc) (background oc) (object oc) (discardTime oc)
    (discardStartTime oc).
Definition setObjFrame (ms : Z) (oc : ObjectCharacterizer) : ObjectCharacterizer :=
  mkObjectCharacterizer (scanner oc) (chrono oc) (toNanoseconds ms) (backFrame oc)
    (minReflectivity oc) (backDistance oc) (state oc) (background oc) (object oc)
    (discardTime oc) (discardStartTime oc).
Definition setBackFrame (ms : Z) (oc : ObjectCharacterizer) : ObjectCharacterizer :=
  mkObjectCharacterizer (scanner oc) (chrono oc) (objFrame oc) (toNanoseconds ms)
    (minReflectivity oc) (backDistance oc) (state oc) (background oc) (object oc)
    (discardTime oc) (discardStartTime oc).
Definition setMinReflectivity (r : Q) (oc : ObjectCharacterizer) : ObjectCharacterizer :=
  mkObjectCharacterizer (scanner oc) (chrono oc) (objFrame oc) (backFrame oc) r
    (backDistance oc) (state oc) (background oc) (object oc) (discardTime oc)
    (discardStartTime oc).
Definition setBackDistance (d : Q) (oc : ObjectCharacterizer) : ObjectCharacterizer :=
  mkObjectCharacterizer (scanner oc) (chrono oc) (objFrame oc) (backFrame oc)
    (minReflectivity oc) (d * 1000) (state oc) (background oc) (object oc)
    (discardTime oc) (discardStartTime oc).

(** The getters [getObjFrame], [getBackFrame] and [getBackDistance] are the
    fields [objFrame], [backFrame] and [backDistance]. *)

Lemma toNanoseconds_exact (ms : Z) :
  (0 <= ms < 2 ^ 32)%Z -> toNanoseconds ms = (ms * 1000000)%Z.
Proof.
  intros H. unfold toNanoseconds.
  rewrite (Z.mod_small ms) by lia. apply Z.mod_small. lia.
Qed.

(** X17: the durations are kept in nanoseconds without loss: for every
    32-bit number of milliseconds the constructor and the two setters store
    exactly a million times the number, within 64 bits, and reading the frame
    back and dividing by a million returns the milliseconds that were set;
    the distance to the background is kept in millimetres. *)
Theorem frames_in_nanoseconds (sc : IScanner) (objMs backMs ms : Z) (refl dist : Q)
    (ch : bool) :
  (0 <= objMs < 2 ^ 32)%Z -> (0 <= backMs < 2 ^ 32)%Z -> (0 <= ms < 2 ^ 32)%Z ->
  let oc := new sc objMs backMs refl dist ch in
  objFrame oc = (objMs * 1000000)%Z /\ backFrame oc = (backMs * 1000000)%Z /\
  (objFrame (setObjFrame ms oc) / 1000000 = ms)%Z /\
  (backFrame (setBackFrame ms oc) / 1000000 = ms)%Z /\
  backFrame (setObjFrame ms oc) = backFrame oc /\
  objFrame (setBackFrame ms oc) = objFrame oc /\
  backDistance oc == dist * 1000 /\
  state oc = defStopped.
Proof.
  intros Ho Hb Hm oc. unfold oc, new, setObjFrame, setBackFrame.
  cbn [objFrame backFrame backDistance state].
  rewrite !toNanoseconds_exact by assumption.
  rewrite Z.div_mul by lia.
  repeat split; reflexivity.
Qed.

End Characterizer.

Lemma frames_in_nanoseconds_witness :
  let oc := new tt tt tt 100 5000 (1 # 2) 3 true in
  objFrame oc = (100 * 1000000)%Z /\ backFrame oc = (5000 * 1000000)%Z /\
  (objFrame (setObjFrame 4294967295 oc) / 1000000 = 4294967295)%Z /\
  (backFrame (setBackFrame 4294967295 oc) / 1000000 = 4294967295)%Z /\
  backFrame (setObjFrame 4294967295 oc) = backFrame oc /\
  objFrame (setBackFrame 4294967295 oc) = objFrame oc /\
  backDistance oc == 3 * 1000 /\
  state oc = defStopped.
Proof.
  apply (frames_in_nanoseconds tt tt tt 100 5000 4294967295 (1 # 2) 3 true); lia.
Defined.

End ObjectCharacterizer.

(** ** object_characterization/ObjectCharacterizator.hh

    The class [PointMap] is not part of the sources at hand: it is a
    parameter.  An [unsigned int] is taken to be 32 bits wide, as [uint32_t]
    is. *)
Module ObjectCharacterizator.

(** [enum CharacterizatorState] of [IObjectCharacterizator.hh]. *)
Inductive CharacterizatorState : Type := defBackground | defObject | defStopped.

Section Characterizator.

Context {PointMap : Type}.
Variable emptyPointMap : PointMap.

Record ObjectCharacterizator : Type := mkObjectCharacterizator {
  state : CharacterizatorState;
  frameDuration : Z;
  background : list Point;
  object : PointMap
}.

(** The constructor: [frameDuration(frameDuration * 1000000)] multiplies a
    [uint32_t] by an [int], that is two 32-bit unsigned numbers, and the
    member of 64 bits takes the 32-bit product. *)
Definition new (frameDuration : Z) : ObjectCharacterizator :=
  mkObjectCharacterizator defStopped (((frameDuration mod 2 ^ 32) * 1000000) mod 2 ^ 32)
    [] emptyPointMap.

(** X18: the frame duration is a million times the milliseconds given only
    up to 4294 ms; from 4295 ms on the 32-bit product has wrapped and the
    duration kept is shorter than the one asked for, and below 2^32 ns
    whatever was asked. *)
Theorem frameDuration_wraps (ms : Z) :
  (0 <= ms < 2 ^ 32)%Z ->
  (frameDuration (new ms) = ms * 1000000 <-> ms <= 4294)%Z /\
  (4294 < ms -> frameDuration (new ms) < ms * 1000000)%Z /\
  (0 <= frameDuration (new ms) < 2 ^ 32)%Z /\
  state (new ms) = defStopped /\ background (new ms) = [].
Proof.
  intros H. unfold new. cbn [frameDuration state background].
  rewrite (Z.mod_small ms) by lia.
  pose proof (Z.mod_pos_bound (ms * 1000000) (2 ^ 32)) as Hb.
  split; [|split; [|split; [lia | split; reflexivity]]].
  - split.
    + intros E. rewrite E in Hb. lia.
    + intros Hle. apply Z.mod_small. lia.
  - intros Hgt. lia.
Qed.

End Characterizator.

Lemma frameDuration_wraps_witness :
  (frameDuration (new tt 5000) = 5000 * 1000000 <-> 5000 <= 4294)%Z /\
  (4294 < 5000 -> frameDuration (new tt 5000) < 5000 * 1000000)%Z /\
  (0 <= frameDuration (new tt 5000) < 2 ^ 32)%Z /\
  state (new tt 5000) = defStopped /\ background (new tt 5000) = [].
Proof.
  apply (frameDuration_wraps tt 5000). lia.
Defined.

End ObjectCharacterizator.

(** ** scanner/ScannerLVX.cc: scans one after the other *)
Module ScannerLVXRuns.

Import ScannerLVX.

Section Runs.

Context {U : Type}.

(** [ScannerLVX::setCallback]: the function is kept, and the result tells
    whether it is one that can be called. *)
Definition setCallback (func : option (U -> LidarPoint -> U * bool)) (s : Scanner U)
    : bool * Scanner U :=
  (match func with Some _ => true | None => false end,
   mkScanner (disk s) (remaining s) (fileState s) (packets_of_frame s) (frameOffset s)
     (packetOffset s) (scanning s) func (user s) (delivered s)).

(** X19: [scan()] returns from every state of the scanner.  It only adds to
    what the callback was given, and leaves the file and the callback alone;
    after [kScanEof] the scanner is not scanning, and after [kScanError]
    the callback was not called and the offsets and the flag are as they
    were. *)
Theorem scan_returns (s : Scanner U) :
  exists code s', scan s = Some (code, s') /\
    (exists more, delivered s' = delivered s ++ more) /\
    disk s' = disk s /\ callback s' = callback s /\
    (code = kScanEof -> scanning s' = false) /\
    (code = kScanError ->
       delivered s' = delivered s /\ frameOffset s' = frameOffset s /\
       packetOffset s' = packetOffset s /\ scanning s' = scanning s).
Proof.
  unfold scan. destruct (scanning s) eqn:Hs; cbn [negb].
  - exists kScanError, s. split; [reflexivity|].
    split; [exists []; symmetry; apply app_nil_r |].
    split; [reflexivity|]. split; [reflexivity|]. split; [discriminate|].
    intros _. repeat split; try reflexivity. exact Hs.
  - set (s0 := if (frameOffset s =? 0)%nat && (packetOffset s =? 0)%nat
                  && LvxFileState_eqb (fileState s) kLvxFileAtEnd
               then Open s else s).
    assert (H0 : delivered s0 = delivered s /\ disk s0 = disk s /\ callback s0 = callback s /\
                 frameOffset s0 = frameOffset s /\ packetOffset s0 = packetOffset s /\
                 scanning s0 = scanning s).
    { unfold s0. destruct (_ && _); [|repeat split].
      unfold Open. destruct (disk s) eqn:Ed; cbn; rewrite ?Ed; repeat split. }
    destruct H0 as (Hd0 & Hk0 & Hc0 & Hf0 & Hp0 & Hs0). clearbody s0.
    destruct (LvxFileState_eqb (fileState s0) kLvxFileOk) eqn:Est.
    + unfold readData.
      set (r := if (packetOffset (setScanning true s0) =? 0)%nat
                   && (frameOffset (setScanning true s0) =? 0)%nat
                then GetPacketsOfFrame (setScanning true s0)
                else (kLvxFileOk, setScanning true s0)).
      assert (Hr : delivered (snd r) = delivered s0 /\ disk (snd r) = disk s0 /\
                   callback (snd r) = callback s0).
      { unfold r. destruct (_ && _); [|repeat split].
        unfold GetPacketsOfFrame. destruct (remaining (setScanning true s0)); repeat split. }
      destruct r as [st s1]. cbn [snd] in Hr. destruct Hr as (Hd1 & Hk1 & Hc1).
      destruct (readFrames_total (2 + length (remaining s1)) st s1)
        as (s2 & more & E2 & Hd2 & Hc2 & Hk2); [lia|].
      rewrite E2.
      match goal with |- context [if ?c then Some (kScanEof, _) else _] => destruct c end.
      * exists kScanEof, (setScanning false s2). split; [reflexivity|].
        cbn [delivered disk callback scanning setScanning].
        split; [exists more; congruence|]. split; [congruence|]. split; [congruence|].
        split; [reflexivity | discriminate].
      * exists kScanOk, s2. split; [reflexivity|].
        split; [exists more; congruence|]. split; [congruence|]. split; [congruence|].
        split; discriminate.
    + exists kScanError, s0. split; [reflexivity|].
      split; [exists []; rewrite app_nil_r; exact Hd0|].
      split; [exact Hk0|]. split; [exact Hc0|]. split; [discriminate|]. intros _.
      repeat split; congruence.
Qed.

(** X20: [init] succeeds exactly when the file can be opened, and then
    leaves the reader on the first frame with both offsets at 0; after an
    [init] that failed, [scan()] returns [kScanError] without touching the
    scanner, whether it is flagged as scanning or not. *)
Theorem init_then_scan (s : Scanner U) :
  (disk s = None ->
     fst (init s) = false /\ scan (snd (init s)) = Some (kScanError, snd (init s))) /\
  (forall frames, disk s = Some frames ->
     fst (init s) = true /\ remaining (snd (init s)) = frames /\
     fileState (snd (init s)) = kLvxFileOk /\
     frameOffset (snd (init s)) = O /\ packetOffset (snd (init s)) = O /\
     delivered (snd (init s)) = delivered s).
Proof.
  split.
  - intros Hd. unfold init, Open. rewrite Hd. cbn [fileState LvxFileState_eqb fst snd].
    split; [reflexivity|]. unfold scan. cbn [scanning frameOffset packetOffset fileState].
    destruct (scanning s); cbn [negb]; [reflexivity|].
    cbn [LvxFileState_eqb]. rewrite andb_false_r. reflexivity.
  - intros frames Hd. unfold init, Open. rewrite Hd.
    cbn [fileState LvxFileState_eqb fst snd]. repeat split.
Qed.

(** A scan from the start of a frame, with a callback that never pauses,
    when the reader is ready on the frames [rest] or is at the end of the
    file [rest]: every point of [rest] is delivered, and the scanner is left
    at the end of the file. *)
Lemma scan_quiet_from (s : Scanner U) (rest : list Frame) :
  scanning s = false -> frameOffset s = O -> packetOffset s = O -> quiet s ->
  (fileState s = kLvxFileOk /\ remaining s = rest) \/
  (fileState s = kLvxFileAtEnd /\ disk s = Some rest) ->
  exists s', scan s = Some (kScanEof, s') /\
    delivered s' = delivered s ++ decodedFile rest /\
    scanning s' = false /\ frameOffset s' = O /\ packetOffset s' = O /\
    fileState s' = kLvxFileAtEnd /\ disk s' = disk s /\ callback s' = callback s.
Proof.
  intros Hs Hf Hp Hq Hst. unfold scan. rewrite Hs, Hf, Hp. cbn [negb Nat.eqb andb].
  set (s0 := if LvxFileState_eqb (fileState s) kLvxFileAtEnd then Open s else s).
  assert (H0 : fileState s0 = kLvxFileOk /\ remaining s0 = rest /\
               frameOffset s0 = O /\ packetOffset s0 = O /\ quiet s0 /\
               delivered s0 = delivered s /\ disk s0 = disk s /\
               callback s0 = callback s).
  { unfold s0. destruct Hst as [[Hst Hr] | [Hst Hd]]; rewrite Hst; cbn [LvxFileState_eqb].
    - repeat split; assumption.
    - unfold Open. rewrite Hd. cbn. repeat split; assumption. }
  clearbody s0. destruct H0 as (Hst0 & Hr0 & Hf0 & Hp0 & Hq0 & Hd0 & Hk0 & Hc0).
  destruct s0 as [dk rm fs buf fo po sc cb us dl].
  cbn [fileState remaining frameOffset packetOffset delivered disk callback] in *.
  subst fs rm fo po. cbn [LvxFileState_eqb]. unfold readData, setScanning.
  cbn [disk remaining fileState packets_of_frame frameOffset packetOffset scanning
       callback user delivered Nat.eqb andb].
  unfold GetPacketsOfFrame.
  cbn [disk remaining fileState packets_of_frame frameOffset packetOffset scanning
       callback user delivered].
  destruct rest as [|f rest'].
  - cbn [remaining length Nat.add readFrames LvxFileState_eqb frameOffset packetOffset
         fileState Nat.eqb andb].
    eexists. split; [reflexivity|]. cbn. rewrite app_nil_r. repeat split; assumption.
  - cbn [remaining].
    match goal with |- context [readFrames ?n kLvxFileOk ?st] =>
      destruct (readFrames_quiet rest' n st) as (s' & E & Hd & Hst' & Hf' & Hp');
      [reflexivity | exact Hq0 | reflexivity | reflexivity | reflexivity
      | cbn [length]; lia |];
      destruct (readFrames_total n kLvxFileOk st) as (s'' & more & E' & _ & Hc' & Hk');
      [cbn [remaining length]; lia|]
    end.
    rewrite E in E'. injection E' as <-.
    rewrite E, Hf', Hp', Hst'. cbn [Nat.eqb andb LvxFileState_eqb].
    eexists. split; [reflexivity|]. cbn [delivered setScanning scanning frameOffset
                                         packetOffset fileState disk callback].
    split; [rewrite Hd; cbn [delivered packets_of_frame]; rewrite Hd0; reflexivity|].
    cbn in Hc', Hk'. repeat split; congruence.
Qed.

(** X21: a scan that reached the end of the file leaves the scanner ready
    for the next one: the next [scan()] opens the file again and gives every
    point of it to the callback once more. *)
Theorem scan_again_after_eof (frames : list Frame) (f : U -> LidarPoint -> U) (u0 : U) :
  exists s1 s2,
    scan (snd (init (freshQuiet frames f u0))) = Some (kScanEof, s1) /\
    delivered s1 = decodedFile frames /\
    scan s1 = Some (kScanEof, s2) /\
    delivered s2 = decodedFile frames ++ decodedFile frames.
Proof.
  assert (Hq : quiet (snd (init (freshQuiet frames f u0)))).
  { eexists. split; [reflexivity|]. intros u pt. reflexivity. }
  destruct (scan_quiet_from (snd (init (freshQuiet frames f u0))) frames)
    as (s1 & E1 & Hd1 & Hs1 & Hf1 & Hp1 & Hst1 & Hk1 & Hc1);
    [reflexivity | reflexivity | reflexivity | exact Hq | left; split; reflexivity |].
  destruct (scan_quiet_from s1 frames)
    as (s2 & E2 & Hd2 & _); [exact Hs1 | exact Hf1 | exact Hp1 | | |].
  - destruct Hq as (cb & Hcb & Hqq). exists cb. split; [congruence | exact Hqq].
  - right. split; [exact Hst1 | rewrite Hk1; reflexivity].
  - exists s1, s2. cbn in Hd1. split; [exact E1|]. split; [exact Hd1|].
    split; [exact E2|]. rewrite Hd2, Hd1. reflexivity.
Qed.

(** X22: when [pause()] takes effect during the callback of the first point
    of a frame, both offsets are still 0, and the next [scan()] takes the
    next frame from the reader: the other points of the paused frame (the
    rest of its first packet and all its other packets) are never given to
    the callback. *)
Theorem pause_on_first_point_loses_frame (ts : Z) (p : RawPoint) (ps : list RawPoint)
    (pkts : list EthPacket) (rest : list Frame)
    (g f : U -> LidarPoint -> U) (u0 : U) :
  let frames := (mkEthPacket kExtendCartesian ts (p :: ps) :: pkts) :: rest in
  let s0 := snd (init (mkScanner (Some frames) [] kLvxFileOk [] 0 0 false
                         (Some (fun u pt => (g u pt, true))) u0 [])) in
  exists s1 s2,
    scan s0 = Some (kScanOk, s1) /\
    delivered s1 = [decode ts p] /\ frameOffset s1 = O /\ packetOffset s1 = O /\
    scan (snd (setCallback (Some (fun u pt => (f u pt, false))) s1)) = Some (kScanEof, s2) /\
    delivered s2 = decode ts p :: decodedFile rest /\
    decodedFile frames
    = decode ts p :: map (decode ts) ps ++ decodedFrame pkts ++ decodedFile rest.
Proof.
  intros frames s0.
  set (s1 := mkScanner (Some frames) rest kLvxFileOk
               (mkEthPacket kExtendCartesian ts (p :: ps) :: pkts) 0 0 false
               (Some (fun u pt => (g u pt, true))) (g u0 (decode ts p)) [decode ts p]).
  assert (E1 : scan s0 = Some (kScanOk, s1)).
  { unfold s0, s1, frames, init, Open, scan, readData, GetPacketsOfFrame, setScanning,
      setOffsets.
    cbn [disk remaining fileState packets_of_frame frameOffset packetOffset scanning
         callback user delivered fst snd LvxFileState_eqb negb Nat.eqb andb length
         Nat.add readFrames].
    rewrite drop_0.
    cbn [readPackets data_type timestamp data kExtendCartesian Nat.eqb packetOffset].
    rewrite drop_0. cbn [readPoints invoke callback user scanning]. reflexivity. }
  destruct (scan_quiet_from (snd (setCallback (Some (fun u pt => (f u pt, false))) s1)) rest)
    as (s2 & E2 & Hd2 & _);
    [reflexivity | reflexivity | reflexivity | | left; split; reflexivity |].
  { eexists. split; [reflexivity|]. intros u pt. reflexivity. }
  exists s1, s2. split; [exact E1|]. split; [reflexivity|]. split; [reflexivity|].
  split; [reflexivity|]. split; [exact E2|]. split; [exact Hd2|].
  unfold frames, decodedFile, decodedFrame, decodedPacket.
  cbn [map concat data_type timestamp data kExtendCartesian Nat.eqb].
  rewrite <- !app_assoc. reflexivity.
Qed.

End Runs.

End ScannerLVXRuns.

(** ** object_characterization/DBScan.cc: what the clusters are made of *)

(** A rule for the loop of [DBScan::clusters]: a property of the list of
    clusters that every successful expansion keeps holds when the loop
    ends. *)
Lemma clustersLoop_rule cfg pinit (J : list (list nat) -> Prop) :
  0 <= CLUSTER_POINT_PROXIMITY cfg ->
  (forall k clusterID cls points points' cl,
     clustersInv pinit k (clusterID, cls, points) -> (k < length pinit)%nat ->
     tagOf points k = cUnclassified ->
     expandCluster cfg k clusterID points (Octree_of cfg pinit) = Some (points', (true, cl)) ->
     J cls -> J (cls ++ [cl])) ->
  forall (m k : nat) st, (k + m = length pinit)%nat ->
  clustersInv pinit k st -> J (snd (fst st)) ->
  exists st', fold_left (clustersStep cfg (Octree_of cfg pinit)) (seq k m) (Some st)
              = Some st' /\
    clustersInv pinit (k + m) st' /\ J (snd (fst st')).
Proof.
  intros Hr Hstep. induction m as [|m IH]; intros k st Hkm Hinv HJ.
  - exists st. rewrite Nat.add_0_r. split; [reflexivity|]. split; assumption.
  - cbn [seq fold_left].
    destruct (clustersStep_inv cfg pinit k st Hr) as (st1 & E1 & Hinv1);
      [lia | exact Hinv |].
    rewrite E1.
    assert (HJ1 : J (snd (fst st1))).
    { destruct st as [[clusterID cls] points]. cbn [clustersStep] in E1.
      cbn [fst snd] in HJ.
      destruct (Z.eqb_spec (getClusterID (points !!! k)) cUnclassified) as [Hu | Hu].
      - destruct (expandCluster cfg k clusterID points (Octree_of cfg pinit))
          as [[points' [[|] cl]]|] eqn:Ee; [| |discriminate]; injection E1 as <-;
          cbn [fst snd]; [|exact HJ].
        apply (Hstep k clusterID cls points points' cl); try assumption. lia.
      - injection E1 as <-. exact HJ. }
    destruct (IH (S k) st1) as (st' & E' & Hinv' & HJ'); [lia | exact Hinv1 | exact HJ1 |].
    exists st'. split; [exact E'|]. replace (k + S m)%nat with (S k + m)%nat by lia.
    split; assumption.
Qed.

(** The run of [DBScan::clusters], with the invariant of its loop and a
    property that every successful expansion keeps. *)
Lemma clusters_rule cfg points (J : list (list nat) -> Prop) :
  0 <= CLUSTER_POINT_PROXIMITY cfg ->
  (forall k clusterID cls pts pts' cl,
     clustersInv points k (clusterID, cls, pts) -> (k < length points)%nat ->
     tagOf pts k = cUnclassified ->
     expandCluster cfg k clusterID pts (Octree_of cfg points) = Some (pts', (true, cl)) ->
     J cls -> J (cls ++ [cl])) ->
  J [] ->
  exists clusterID cls points',
    clusters cfg points = Some (cls, points') /\
    clustersInv points (length points) (clusterID, cls, points') /\ J cls.
Proof.
  intros Hr Hstep H0. unfold clusters.
  destruct (clustersLoop_rule cfg points J Hr Hstep (length points) O (0%Z, [], points))
    as ([[clusterID cls] points'] & E & Hinv & HJ).
  - reflexivity.
  - unfold clustersInv. cbn [length]. split; [reflexivity|].
    split; [apply sameCoords_refl|]. split; [|split].
    + intros j cl Hj. rewrite lookup_nil in Hj. discriminate.
    + intros i Hi. left. split; [reflexivity|].
      intros cl Hcl. apply elem_of_nil in Hcl. destruct Hcl.
    + intros i Hi. lia.
  - exact H0.
  - rewrite E. exists clusterID, cls, points'. split; [reflexivity|].
    split; [exact Hinv | exact HJ].
Qed.

(** The expansion of an unclassified centroid, for a radius that is not
    negative: what [expandCluster_spec] says, the centroid being a seed. *)
Lemma expandCluster_centroid cfg pinit points (k : nat) (id : Z) points' cl :
  sameCoords pinit points -> (0 <= id)%Z -> 0 <= CLUSTER_POINT_PROXIMITY cfg ->
  (k < length points)%nat -> tagOf points k = cUnclassified ->
  expandCluster cfg k id points (Octree_of cfg pinit) = Some (points', (true, cl)) ->
  let seeds := snd (centroidNeighbours cfg (points !!! k) points (Octree_of cfg pinit)) in
  k ∈ seeds /\ (MIN_CLUSTER_POINTS cfg <= length seeds)%nat /\ NoDup seeds /\
  (forall j, j ∈ seeds -> j ∈ cl) /\ NoDup cl /\
  (forall j, j ∈ cl -> (j < length points)%nat) /\
  sameCoords points points' /\
  (forall j, (j < length points)%nat ->
     (tagOf points' j = tagOf points j /\ j ∉ cl) \/
     ((tagOf points j < 0)%Z /\ tagOf points' j = id /\ j ∈ cl)).
Proof.
  intros Hsame Hid Hr Hk Hu E seeds.
  assert (Hkin : k ∈ seeds).
  { apply centroid_in_seeds; try assumption. rewrite Hu. reflexivity. }
  destruct (expandCluster_spec cfg pinit points k id Hsame Hid)
    as (points'' & b & cl'' & E' & Hb & _ & Htrue).
  { right. fold seeds. destruct seeds; [apply elem_of_nil in Hkin; destruct Hkin|].
    cbn [length]. lia. }
  rewrite E in E'. injection E' as <- <- <-.
  destruct (Htrue eq_refl) as (Hs' & Hframe & Hnd & Hcl & Hseeds).
  fold seeds in Hb, Hseeds.
  destruct (centroidNeighbours_snd cfg pinit points (points !!! k) Hsame) as [Hnds _].
  fold seeds in Hnds.
  split; [exact Hkin|]. split.
  { destruct (Nat.le_gt_cases (MIN_CLUSTER_POINTS cfg) (length seeds)) as [H | H];
      [exact H|]. apply Hb in H. discriminate. }
  repeat (split; [assumption|]). exact Hframe.
Qed.

Lemma NoDup_sub_length (l k : list nat) :
  NoDup l -> (forall x, x ∈ l -> x ∈ k) -> (length l <= length k)%nat.
Proof.
  intros Hnd Hsub. apply NoDup_incl_length; [apply NoDup_ListNoDup; exact Hnd|].
  intros x Hx. apply list_elem_of_In, Hsub, list_elem_of_In. exact Hx.
Qed.

(** Lists tagged by their position, each without duplicates, have no element
    in common. *)
Lemma NoDup_concat_tagged (tag : nat -> Z) (cls : list (list nat)) :
  (forall j cl, cls !! j = Some cl -> NoDup cl /\ forall i, i ∈ cl -> tag i = Z.of_nat j) ->
  NoDup (concat cls).
Proof.
  induction cls as [|cl cls IH] using rev_ind; intros H; [constructor|].
  rewrite concat_app. cbn [concat]. rewrite app_nil_r. apply NoDup_app. split; [|split].
  - apply IH. intros j c Hj. apply (H j c). apply lookup_app_l_Some. exact Hj.
  - intros i Hi Hi'. apply list_elem_of_In, in_concat in Hi as (c & Hc & Hic).
    apply list_elem_of_In, list_elem_of_lookup in Hc as [j Hj].
    apply list_elem_of_In in Hic.
    pose proof (lookup_lt_Some _ _ _ Hj) as Hlt.
    destruct (H j c) as [_ Ht]; [apply lookup_app_l_Some; exact Hj|].
    destruct (H (length cls) cl) as [_ Ht'].
    { rewrite lookup_app_r by lia. rewrite Nat.sub_diag. reflexivity. }
    specialize (Ht i Hic). specialize (Ht' i Hi'). lia.
  - apply (H (length cls) cl). rewrite lookup_app_r by lia.
    rewrite Nat.sub_diag. reflexivity.
Qed.

Lemma concat_length_min (m : nat) (cls : list (list nat)) :
  Forall (fun cl => (m <= length cl)%nat) cls -> (length cls * m <= length (concat cls))%nat.
Proof.
  induction 1 as [|cl cls Hcl _ IH]; [reflexivity|].
  cbn [concat length]. rewrite length_app. lia.
Qed.

(** X23: every cluster that [DBScan::clusters] returns holds at least
    [MIN_CLUSTER_POINTS] points, so the clusters are at most as many as the
    points divided by [MIN_CLUSTER_POINTS]. *)
Theorem clusters_min_size (cfg : Config) (points : list Point) :
  0 <= CLUSTER_POINT_PROXIMITY cfg ->
  exists cls points',
    clusters cfg points = Some (cls, points') /\
    Forall (fun cl => (MIN_CLUSTER_POINTS cfg <= length cl)%nat) cls /\
    (length cls * MIN_CLUSTER_POINTS cfg <= length points)%nat.
Proof.
  intros Hr.
  destruct (clusters_rule cfg points
              (Forall (fun cl => (MIN_CLUSTER_POINTS cfg <= length cl)%nat)) Hr)
    as (clusterID & cls & points' & E & Hinv & HJ).
  - intros k clusterID cls pts pts' cl (Hid & Hsame & _) Hk Hu Ee HJ.
    apply Forall_app. split; [exact HJ|]. constructor; [|constructor].
    destruct Hsame as [Hlen Hc].
    destruct (expandCluster_centroid cfg points pts k clusterID pts' cl)
      as (_ & Hmin & Hnds & Hsub & _); try assumption; try lia.
    { split; assumption. }
    pose proof (NoDup_sub_length _ _ Hnds Hsub). lia.
  - constructor.
  - exists cls, points'. split; [exact E|]. split; [exact HJ|].
    destruct Hinv as (_ & [Hlen _] & Hcls & _).
    pose proof (concat_length_min _ _ HJ) as Hmin.
    assert (Hb : (length (concat cls) <= length points)%nat).
    { apply NoDup_bounded_length.
      - apply (NoDup_concat_tagged (tagOf points')). intros j cl Hj.
        destruct (Hcls j cl Hj) as [Hnd Ht]. split; [exact Hnd|].
        intros i Hi. apply Ht. exact Hi.
      - intros i Hi. apply list_elem_of_In, in_concat in Hi as (c & Hc & Hic).
        apply list_elem_of_In, list_elem_of_lookup in Hc as [j Hj].
        apply list_elem_of_In in Hic. destruct (Hcls j c Hj) as [_ Ht].
        destruct (Ht i Hic) as [Hi _]. lia. }
    lia.
Qed.

Lemma clusters_min_size_witness :
  exists cls points',
    clusters exampleConfig crossAndTail = Some (cls, points') /\
    Forall (fun cl => (MIN_CLUSTER_POINTS exampleConfig <= length cl)%nat) cls /\
    (length cls * MIN_CLUSTER_POINTS exampleConfig <= length crossAndTail)%nat.
Proof. apply (clusters_min_size exampleConfig crossAndTail). vm_compute. discriminate. Defined.

(** The loop of [DBScan::clusters] leaves alone a vector that holds no
    unclassified point. *)
Lemma clustersLoop_skip cfg map (ks : list nat) (st : Z * list (list nat) * list Point) :
  (forall k, k ∈ ks -> tagOf (snd st) k <> cUnclassified) ->
  fold_left (clustersStep cfg map) ks (Some st) = Some st.
Proof.
  induction ks as [|k ks IH]; intros H; [reflexivity|].
  cbn [fold_left]. destruct st as [[clusterID cls] pts]. cbn [clustersStep snd] in *.
  destruct (Z.eqb_spec (getClusterID (pts !!! k)) cUnclassified) as [Hu | Hu].
  - exfalso. apply (H k); [apply list_elem_of_here | exact Hu].
  - apply IH. intros k' Hk'. apply H. apply list_elem_of_further. exact Hk'.
Qed.

(** X24: [DBScan::clusters] leaves no point unclassified, so a second call
    on the vector it leaves returns no cluster and changes no tag: the
    clusters of a vector are obtained once, and only after its tags are set
    back to [cUnclassified] again. *)
Theorem clusters_second_pass (cfg : Config) (points : list Point) :
  0 <= CLUSTER_POINT_PROXIMITY cfg ->
  exists cls points',
    clusters cfg points = Some (cls, points') /\
    clusters cfg points' = Some ([], points').
Proof.
  intros Hr.
  destruct (clusters_rule cfg points (fun _ => True) Hr)
    as (clusterID & cls & points' & E & Hinv & _); [tauto | exact I |].
  exists cls, points'. split; [exact E|].
  destruct Hinv as (_ & [Hlen _] & _ & _ & Hdone).
  unfold clusters. rewrite clustersLoop_skip; [reflexivity|].
  intros k Hk. apply list_elem_of_In, in_seq in Hk. cbn [snd]. apply Hdone; lia.
Qed.

Lemma clusters_second_pass_witness :
  exists cls points',
    clusters exampleConfig crossAndTail = Some (cls, points') /\
    clusters exampleConfig points' = Some ([], points').
Proof. apply (clusters_second_pass exampleConfig crossAndTail). vm_compute. discriminate. Defined.

(** [j] is reached from [k] through points of [cl], each at most [radius]
    away from the one before it. *)
Inductive chained (points : list Point) (radius : Q) (cl : list nat) (k : nat)
    : nat -> Prop :=
  | chained_first : k ∈ cl -> chained points radius cl k k
  | chained_next (s j : nat) :
      chained points radius cl k s -> j ∈ cl ->
      (distance3D (points !!! j) (points !!! s) <= Q2R radius)%R ->
      chained points radius cl k j.

Lemma chained_mono points radius (cl cl' : list nat) (k j : nat) :
  (forall x, x ∈ cl -> x ∈ cl') ->
  chained points radius cl k j -> chained points radius cl' k j.
Proof.
  intros Hsub. induction 1 as [Hk | s j _ IH Hj Hd].
  - apply chained_first, Hsub, Hk.
  - apply (chained_next _ _ _ _ s j); [exact IH | apply Hsub; exact Hj | exact Hd].
Qed.

Lemma distance3D_coords (p p' q q' : Point) :
  coords p = coords p' -> coords q = coords q' -> distance3D p q = distance3D p' q'.
Proof.
  unfold coords. intros E E'. injection E as Ex Ey Ez. injection E' as Ex' Ey' Ez'.
  unfold distance3D, sqDistance3D. rewrite Ex, Ey, Ez, Ex', Ey', Ez'. reflexivity.
Qed.

(** A neighbour that [centroidNeighbours] returns for the point of index [s]
    is at most [CLUSTER_POINT_PROXIMITY] away from it. *)
Lemma centroidNeighbours_near cfg pinit points (s j : nat) :
  sameCoords pinit points ->
  j ∈ snd (centroidNeighbours cfg (points !!! s) points (Octree_of cfg pinit)) ->
  (distance3D (pinit !!! j) (pinit !!! s) <= Q2R (CLUSTER_POINT_PROXIMITY cfg))%R.
Proof.
  intros Hsame Hj. unfold centroidNeighbours in Hj. cbn [snd] in Hj.
  apply elem_of_List_filter in Hj as [Hj _].
  apply (searchNeighbors_during cfg pinit points _ _ sphere Hsame) in Hj as [_ Hj].
  apply inKernel_sphere_distance in Hj. destruct Hsame as [_ Hc].
  rewrite (distance3D_coords (pinit !!! j) (points !!! j) (pinit !!! s) (points !!! s));
    [exact Hj | |]; symmetry; apply Hc.
Qed.

Lemma absorb_fold_seeds_sub (id : Z) (nb : list nat) : forall st x,
  x ∈ fst (fst (fold_left (absorb id) nb st)) -> x ∈ fst (fst st) \/ x ∈ nb.
Proof.
  induction nb as [|a nb IH]; intros [[seeds points] cp] x Hx; [left; exact Hx|].
  cbn [fold_left] in Hx. apply IH in Hx as [Hx | Hx].
  - unfold absorb in Hx. cbn [fst] in Hx |- *.
    destruct (_ =? _)%Z; [|left; exact Hx].
    apply elem_of_app in Hx as [Hx | Hx]; [left; exact Hx|].
    apply list_elem_of_singleton in Hx. subst x. right. apply list_elem_of_here.
  - right. apply list_elem_of_further. exact Hx.
Qed.

Lemma absorb_fold_sameCoords (id : Z) pinit (nb : list nat) : forall st,
  sameCoords pinit (snd (fst st)) ->
  sameCoords pinit (snd (fst (fold_left (absorb id) nb st))).
Proof.
  induction nb as [|a nb IH]; intros [[seeds points] cp] H; [exact H|].
  cbn [fold_left]. apply IH. unfold absorb. cbn [fst snd] in *.
  apply sameCoords_set. exact H.
Qed.

(** The expansion loop keeps the cluster chained to the centroid [k]: a
    point is absorbed as a neighbour of a seed, and a seed is a point of the
    cluster. *)
Lemma expandLoop_chained cfg pinit (id : Z) (k : nat) (fuel : nat) :
  forall i seeds points cp points' cp',
  sameCoords pinit points ->
  (forall s, s ∈ seeds -> s ∈ cp) ->
  (forall j, j ∈ cp -> chained pinit (CLUSTER_POINT_PROXIMITY cfg) cp k j) ->
  expandLoop fuel cfg id (Octree_of cfg pinit) i seeds points cp = Some (points', cp') ->
  forall j, j ∈ cp' -> chained pinit (CLUSTER_POINT_PROXIMITY cfg) cp' k j.
Proof.
  induction fuel as [|fuel IH]; intros i seeds points cp points' cp' Hsame Hseeds Hch E;
    [discriminate|].
  cbn [expandLoop] in E. destruct (seeds !! i) as [s|] eqn:Es.
  - assert (Hs : s ∈ cp) by (apply Hseeds, list_elem_of_lookup; exists i; exact Es).
    destruct (MIN_CLUSTER_POINTS cfg <=? _)%nat.
    + set (nb := snd (centroidNeighbours cfg (points !!! s) points (Octree_of cfg pinit)))
        in *.
      pose proof (absorb_fold_cluster id nb (seeds, points, cp)) as Hcp.
      pose proof (absorb_fold_seeds_sub id nb (seeds, points, cp)) as Hsd.
      pose proof (absorb_fold_sameCoords id pinit nb (seeds, points, cp) Hsame) as Hsc.
      destruct (fold_left (absorb id) nb (seeds, points, cp)) as [[seeds1 points1] cp1].
      cbn [fst snd] in Hcp, Hsd, Hsc. subst cp1.
      refine (IH _ _ _ _ _ _ Hsc _ _ E).
      * intros x Hx. apply elem_of_app. destruct (Hsd x Hx) as [H | H];
          [left; apply Hseeds; exact H | right; exact H].
      * intros j Hj. apply elem_of_app in Hj as [Hj | Hj].
        -- apply (chained_mono _ _ cp); [|apply Hch; exact Hj].
           intros x Hx. apply elem_of_app. left. exact Hx.
        -- apply (chained_next _ _ _ _ s j).
           ++ apply (chained_mono _ _ cp); [|apply Hch; exact Hs].
              intros x Hx. apply elem_of_app. left. exact Hx.
           ++ apply elem_of_app. right. exact Hj.
           ++ apply (centroidNeighbours_near cfg pinit points s j Hsame Hj).
    + apply (IH _ _ _ _ _ _ Hsame Hseeds Hch E).
  - injection E as <- <-. exact Hch.
Qed.

Lemma expandCluster_chained cfg pinit points (k : nat) (id : Z) points' cl :
  sameCoords pinit points -> (0 <= id)%Z -> 0 <= CLUSTER_POINT_PROXIMITY cfg ->
  (k < length points)%nat -> tagOf points k = cUnclassified ->
  expandCluster cfg k id points (Octree_of cfg pinit) = Some (points', (true, cl)) ->
  k ∈ cl /\ forall j, j ∈ cl -> chained pinit (CLUSTER_POINT_PROXIMITY cfg) cl k j.
Proof.
  intros Hsame Hid Hr Hk Hu E.
  assert (Hkin : k ∈ snd (centroidNeighbours cfg (points !!! k) points (Octree_of cfg pinit))).
  { apply centroid_in_seeds; try assumption. rewrite Hu. reflexivity. }
  assert (Hkcl : k ∈ cl).
  { destruct (expandCluster_centroid cfg pinit points k id points' cl) as (_ & _ & _ & H & _);
      try assumption. apply H. exact Hkin. }
  unfold expandCluster in E.
  set (seeds := snd (centroidNeighbours cfg (points !!! k) points (Octree_of cfg pinit))) in *.
  destruct (length seeds <? MIN_CLUSTER_POINTS cfg)%nat; [discriminate|].
  destruct (tagSeed_fold id k seeds (points, O, O)) as (Hs1 & _).
  destruct (fold_left (tagSeed id k) seeds (points, O, O)) as [[points1 index1] icp].
  cbn [fst] in Hs1.
  destruct (icp <? length seeds)%nat; [|discriminate].
  destruct (expandLoop _ cfg id (Octree_of cfg pinit) 0 (delete icp seeds) points1 seeds)
    as [[points2 cl2]|] eqn:El; [|discriminate].
  injection E as <- <-.
  assert (Hch : forall j, j ∈ cl2 -> chained pinit (CLUSTER_POINT_PROXIMITY cfg) cl2 k j).
  { refine (expandLoop_chained cfg pinit id k _ _ _ _ _ _ _
              (sameCoords_trans _ _ _ Hsame Hs1) _ _ El).
    - intros s Hs. apply (list_elem_of_delete_inv _ _ _ Hs).
    - intros j Hj. apply (chained_next _ _ _ _ k j); [apply chained_first; exact Hkin | exact Hj |].
      apply (centroidNeighbours_near cfg pinit points k j Hsame Hj). }
  split; [exact Hkcl | exact Hch].
Qed.

(** X25: every cluster is connected.  A cluster that [DBScan::clusters]
    returns holds a point, the centroid it grew from, from which each of its
    points is reached through points of the cluster, each at most
    [CLUSTER_POINT_PROXIMITY] away from the one before it. *)
Theorem clusters_connected (cfg : Config) (points : list Point) :
  0 <= CLUSTER_POINT_PROXIMITY cfg ->
  exists cls points',
    clusters cfg points = Some (cls, points') /\
    forall cl, cl ∈ cls ->
      exists k, k ∈ cl /\
        forall j, j ∈ cl -> chained points (CLUSTER_POINT_PROXIMITY cfg) cl k j.
Proof.
  intros Hr.
  destruct (clusters_rule cfg points
              (fun cls => forall cl, cl ∈ cls ->
                 exists k, k ∈ cl /\
                   forall j, j ∈ cl ->
                     chained points (CLUSTER_POINT_PROXIMITY cfg) cl k j)
              Hr)
    as (clusterID & cls & points' & E & _ & HJ).
  - intros k clusterID cls pts pts' cl (Hid & Hsame & _) Hk Hu Ee HJ c Hc.
    apply elem_of_app in Hc as [Hc | Hc]; [apply HJ; exact Hc|].
    apply list_elem_of_singleton in Hc. subst c. exists k.
    pose proof Hsame as [Hlen _].
    apply (expandCluster_chained cfg points pts k clusterID pts' cl); try assumption; lia.
  - intros cl Hcl. apply elem_of_nil in Hcl. destruct Hcl.
  - exists cls, points'. split; [exact E | exact HJ].
Qed.

Lemma clusters_connected_witness :
  exists cls points',
    clusters exampleConfig crossAndTail = Some (cls, points') /\
    forall cl, cl ∈ cls ->
      exists k, k ∈ cl /\
        forall j, j ∈ cl ->
          chained crossAndTail (CLUSTER_POINT_PROXIMITY exampleConfig) cl k j.
Proof. apply (clusters_connected exampleConfig crossAndTail). vm_compute. discriminate. Defined.

(** ** object_characterization/DBScan.cc: what the faces are made of *)

Section NormalFaces.

Context {Angle : Type}.
Variable angleLe : Vector -> Vector -> Angle -> bool.
Variables MAX_NORMAL_VECT_ANGLE MAX_MEAN_VECT_ANGLE MAX_MEAN_VECT_ANGLE_SINGLE : Angle.
Variable mean : list Vector -> Vector.
Variable computeNormals : list Point -> Octree -> Q -> list Vector.

Local Abbreviation coherent :=
  (normalCoherent angleLe MAX_NORMAL_VECT_ANGLE MAX_MEAN_VECT_ANGLE
     MAX_MEAN_VECT_ANGLE_SINGLE).
Local Abbreviation neighboursOf :=
  (centroidNormalNeighbours angleLe MAX_NORMAL_VECT_ANGLE MAX_MEAN_VECT_ANGLE
     MAX_MEAN_VECT_ANGLE_SINGLE).
Local Abbreviation expandLoopOf :=
  (expandNormalLoop angleLe MAX_NORMAL_VECT_ANGLE MAX_MEAN_VECT_ANGLE
     MAX_MEAN_VECT_ANGLE_SINGLE mean).
Local Abbreviation expandOf :=
  (expandNormalCluster angleLe MAX_NORMAL_VECT_ANGLE MAX_MEAN_VECT_ANGLE
     MAX_MEAN_VECT_ANGLE_SINGLE mean).
Local Abbreviation stepOf :=
  (normalsStep angleLe MAX_NORMAL_VECT_ANGLE MAX_MEAN_VECT_ANGLE
     MAX_MEAN_VECT_ANGLE_SINGLE mean).
Local Abbreviation normalsOf :=
  (normals angleLe MAX_NORMAL_VECT_ANGLE MAX_MEAN_VECT_ANGLE
     MAX_MEAN_VECT_ANGLE_SINGLE mean computeNormals).

(** The normal of the point of index [i] is not the zero vector. *)
Definition hasNormal (normals : list Vector) (i : nat) : Prop :=
  Point_neqb (normals !!! i) (Point3 0 0 0) = true.

Lemma coherent_hasNormal c m normals i : coherent c m normals i = true -> hasNormal normals i.
Proof. unfold normalCoherent, hasNormal. intros H. apply andb_true_iff in H as [H _]. exact H. Qed.

Lemma neighboursOf_hasNormal cfg c m points normals map i :
  i ∈ snd (neighboursOf cfg c m points normals map) -> hasNormal normals i.
Proof.
  unfold centroidNormalNeighbours. cbn [snd]. intros Hi.
  apply elem_of_List_filter in Hi as [Hi _]. apply elem_of_List_filter in Hi as [_ Hi].
  apply (coherent_hasNormal c m). exact Hi.
Qed.

(** The expansion loop only adds points that have a normal. *)
Lemma expandNormalLoop_hasNormal cfg normals map (id : Z) (fuel : nat) :
  forall i seeds points cn cp turns points' cp' turns',
  (forall j, j ∈ cp -> hasNormal normals j) ->
  expandLoopOf fuel cfg id normals map i seeds points cn cp turns
  = Some (points', cp', turns') ->
  forall j, j ∈ cp' -> hasNormal normals j.
Proof.
  induction fuel as [|fuel IH]; intros i seeds points cn cp turns points' cp' turns' Hcp E;
    [discriminate|].
  cbn [expandNormalLoop] in E. destruct (seeds !! i) as [s|].
  - destruct (MIN_FACE_POINTS cfg <=? _)%nat.
    + rewrite absorbNormal_fold in E.
      pose proof (absorb_fold_cluster id
                    (snd (neighboursOf cfg s (mean cn) points normals map))
                    (seeds, points, cp)) as Hc.
      destruct (fold_left (absorb id) _ (seeds, points, cp)) as [[seeds1 points1] cp1].
      cbn [fst snd] in Hc, E. subst cp1.
      refine (IH _ _ _ _ _ _ _ _ _ _ E).
      intros j Hj. apply elem_of_app in Hj as [Hj | Hj]; [apply Hcp; exact Hj|].
      apply (neighboursOf_hasNormal _ _ _ _ _ _ _ Hj).
    + refine (IH _ _ _ _ _ _ _ _ _ Hcp E).
  - injection E as <- <- <-. exact Hcp.
Qed.

(** What one call of [expandNormalCluster] does to the tags, for faces of at
    least one point: a call that fails only tags the centroid as noise; a
    call that succeeds returns distinct indices, at least [MIN_FACE_POINTS]
    of them, of points that have a normal, had a negative tag and now carry
    the identifier.  No other tag has changed. *)
Lemma expandNormalCluster_full cfg pinit points normals (k : nat) (id : Z) :
  sameCoords pinit points -> (0 <= id)%Z -> (0 < MIN_FACE_POINTS cfg)%nat ->
  exists points' b cl turns,
    expandOf cfg k id points normals (Octree_of cfg pinit) = Some (points', (b, cl), turns) /\
    (b = false -> points' = setClusterIDAt k cNoise points /\ cl = []) /\
    (b = true ->
       sameCoords points points' /\
       (forall j, (j < length points)%nat ->
          (tagOf points' j = tagOf points j /\ j ∉ cl) \/
          ((tagOf points j < 0)%Z /\ tagOf points' j = id /\ j ∈ cl)) /\
       NoDup cl /\
       (forall j, j ∈ cl -> (j < length points)%nat /\ hasNormal normals j) /\
       (MIN_FACE_POINTS cfg <= length cl)%nat).
Proof.
  intros Hsame Hid Hmin. unfold expandNormalCluster.
  destruct (centroidNormalNeighbours_snd angleLe MAX_NORMAL_VECT_ANGLE MAX_MEAN_VECT_ANGLE
              MAX_MEAN_VECT_ANGLE_SINGLE cfg pinit points normals k (normals !!! k) Hsame)
    as [Hnd Hnb].
  set (seeds := snd (neighboursOf cfg k (normals !!! k) points normals (Octree_of cfg pinit)))
    in *.
  destruct (Nat.ltb_spec (length seeds) (MIN_FACE_POINTS cfg)) as [Hlt | Hge].
  - exists (setClusterIDAt k cNoise points), false, [], [].
    split; [reflexivity|]. split; [tauto | discriminate].
  - rewrite tagNormalSeed_fold.
    destruct (tagSeed_fold id k seeds (points, O, O)) as (Hs1 & Hin1 & Hout1).
    pose proof (tagSeed_fold_index id k seeds (points, O, O)) as Hicp.
    destruct (fold_left (tagSeed id k) seeds (points, O, O))
      as [[points1 index1] icp] eqn:Ef.
    cbn [fst snd app] in Hs1, Hin1, Hout1, Hicp |- *.
    destruct (Nat.ltb_spec icp (length seeds)) as [_ | Hbad]; [|lia].
    set (seeds0 := delete icp seeds).
    assert (Hinv : expansionInv id points seeds0 (seeds0, points1, seeds)).
    { unfold expansionInv. destruct Hs1 as [Hl1 Hc1]. rewrite Hl1.
      split; [split; assumption|]. split; [|split; [|split]].
      - intros j Hj. destruct (decide (j ∈ seeds)) as [Hjs | Hjs].
        + right. split; [apply Hnb; exact Hjs|].
          split; [apply Hin1; assumption | exact Hjs].
        + left. split; [apply Hout1; exact Hjs | exact Hjs].
      - exact Hnd.
      - intros j Hj. apply Hnb. exact Hj.
      - exists []. rewrite app_nil_r. split; [reflexivity|]. split; [constructor|].
        intros j Hj. apply elem_of_nil in Hj. destruct Hj. }
    destruct (expandNormalLoop_inv angleLe MAX_NORMAL_VECT_ANGLE MAX_MEAN_VECT_ANGLE
                MAX_MEAN_VECT_ANGLE_SINGLE mean cfg pinit normals id points seeds0
                (expandFuel seeds0 points1) O seeds0 points1
                (map (fun i => normals !!! i) seeds) seeds [] Hid Hsame Hinv)
      as (seeds' & points' & cl & turns & Eloop & Hinv' & _ & Htags).
    { reflexivity. }
    { intros t Ht. apply elem_of_nil in Ht. destruct Ht. }
    { lia. }
    { unfold expandFuel. destruct Hs1 as [Hl1 _]. rewrite Hl1. lia. }
    rewrite Eloop. exists points', true, cl, turns. split; [reflexivity|].
    split; [discriminate|]. intros _.
    destruct Hinv' as (Hsame' & Hframe & Hndcl & Hcl & _).
    pose proof Hsame' as [Hl' _]. rewrite Hl' in Hframe, Hcl.
    split; [exact Hsame'|]. split; [exact Hframe|]. split; [exact Hndcl|].
    assert (Hsub : forall j, j ∈ seeds -> j ∈ cl).
    { intros j Hj. destruct (Hnb j Hj) as (Hjl & Hjn & _).
      assert (Ht : tagOf points' j = id).
      { destruct (Htags j) as [E | E]; [|exact E]. rewrite E. apply Hin1; assumption. }
      destruct (Hframe j Hjl) as [[E _] | (_ & _ & Hin)]; [lia | exact Hin]. }
    split.
    + intros j Hj. split; [apply Hcl; exact Hj|].
      refine (expandNormalLoop_hasNormal _ _ _ _ _ _ _ _ _ _ _ _ _ _ _ Eloop j Hj).
      intros x Hx. apply (coherent_hasNormal k (normals !!! k)). apply Hnb. exact Hx.
    + pose proof (NoDup_sub_length _ _ Hnd Hsub). lia.
Qed.

(** The invariant of the loop of [DBScan::normals]: the points of the face
    [j] are tagged [j] and have a normal, a face holds no index twice and at
    least [MIN_FACE_POINTS] indices, and a point without a normal has the tag
    it had on entry. *)
Definition facesInv (cfg : Config) (pinit : list Point) (normals : list Vector)
    (st : Z * list (list nat) * list Point) : Prop :=
  let '(clusterID, faces, points) := st in
  clusterID = Z.of_nat (length faces) /\
  sameCoords pinit points /\
  (forall j face, faces !! j = Some face ->
     NoDup face /\ (MIN_FACE_POINTS cfg <= length face)%nat /\
     forall i, i ∈ face ->
       (i < length points)%nat /\ tagOf points i = Z.of_nat j /\ hasNormal normals i) /\
  (forall i, (i < length points)%nat -> ~ hasNormal normals i ->
     tagOf points i = tagOf pinit i).

Lemma normalsLoop_faces cfg pinit normals (ks : list nat) :
  (0 < MIN_FACE_POINTS cfg)%nat -> (forall k, k ∈ ks -> (k < length pinit)%nat) ->
  forall st, facesInv cfg pinit normals st ->
  exists st', fold_left (stepOf cfg normals (Octree_of cfg pinit)) ks (Some st) = Some st' /\
    facesInv cfg pinit normals st'.
Proof.
  intros Hmin. induction ks as [|k ks IH]; intros Hks st Hinv;
    [exists st; split; [reflexivity | exact Hinv]|].
  assert (Hks' : forall k', k' ∈ ks -> (k' < length pinit)%nat).
  { intros k' Hk'. apply Hks, list_elem_of_further, Hk'. }
  assert (Hk : (k < length pinit)%nat) by apply Hks, list_elem_of_here.
  cbn [fold_left]. destruct st as [[clusterID faces] points].
  pose proof Hinv as (Hid & Hsame & Hfaces & Hzero). pose proof Hsame as [Hlen _].
  cbn [normalsStep].
  destruct (Z.eqb_spec (getClusterID (points !!! k)) cUnclassified) as [Hu | Hu];
    cbn [andb]; [|apply (IH Hks'); exact Hinv].
  destruct (Point_neqb (normals !!! k) (Point3 0 0 0)) eqn:Hn;
    [|apply (IH Hks'); exact Hinv].
  assert (Hid0 : (0 <= clusterID)%Z) by lia.
  destruct (expandNormalCluster_full cfg pinit points normals k clusterID Hsame Hid0 Hmin)
    as (points' & b & cl & turns & E & Hfalse & Htrue).
  rewrite E. destruct b; apply (IH Hks'); unfold facesInv.
  - destruct (Htrue eq_refl) as (Hs' & Hframe & Hnd & Hcl & Hsize). clear Hfalse Htrue.
    pose proof Hs' as [Hlen' _]. rewrite length_app, Hlen'. cbn [length].
    split; [lia|]. split; [eapply sameCoords_trans; eassumption|]. split.
    + intros j c Hj. apply lookup_app_Some in Hj as [Hj | [Hge Hj]].
      * destruct (Hfaces j c Hj) as (Hndc & Hsz & Hc).
        split; [exact Hndc|]. split; [exact Hsz|].
        intros i Hi. destruct (Hc i Hi) as (Hil & Ht & Hh).
        split; [exact Hil|]. split; [|exact Hh].
        destruct (Hframe i Hil) as [[Ef _] | (Hneg & _)]; lia.
      * destruct (j - length faces)%nat as [|d] eqn:Ed; [|destruct d; discriminate].
        injection Hj as <-. assert (j = length faces) as -> by lia.
        split; [exact Hnd|]. split; [exact Hsize|].
        intros i Hi. destruct (Hcl i Hi) as [Hil Hh].
        split; [exact Hil|]. split; [|exact Hh].
        destruct (Hframe i Hil) as [[_ Hout] | (_ & Ef & _)]; [contradiction | lia].
    + intros i Hi Hz. destruct (Hframe i Hi) as [[Ef _] | (_ & _ & Hin)].
      * rewrite Ef. apply Hzero; assumption.
      * exfalso. apply Hz. apply Hcl. exact Hin.
  - destruct (Hfalse eq_refl) as [-> _]. clear Hfalse Htrue.
    rewrite length_setClusterIDAt.
    split; [exact Hid|]. split; [apply sameCoords_set; exact Hsame|]. split.
    + intros j c Hj. destruct (Hfaces j c Hj) as (Hndc & Hsz & Hc).
      split; [exact Hndc|]. split; [exact Hsz|].
      intros i Hi. destruct (Hc i Hi) as (Hil & Ht & Hh).
      split; [exact Hil|]. split; [|exact Hh].
      rewrite tagOf_setClusterIDAt_ne; [exact Ht|].
      intros ->. unfold tagOf in Ht. rewrite Hu in Ht. unfold cUnclassified in Ht. lia.
    + intros i Hi Hz. rewrite tagOf_setClusterIDAt_ne; [apply Hzero; assumption|].
      intros ->. apply Hz. exact Hn.
Qed.

(** The run of [DBScan::normals] with the invariant of its loop. *)
Lemma normals_run (cfg : Config) (points : list Point) :
  (0 < MIN_FACE_POINTS cfg)%nat ->
  length (computeNormals points (Octree_of cfg points) (NORMAL_CALC_POINT_PROXIMITY cfg))
  = length points ->
  exists clusterID faces points',
    normalsOf cfg points = Some (faces, points') /\
    facesInv cfg points
      (computeNormals points (Octree_of cfg points) (NORMAL_CALC_POINT_PROXIMITY cfg))
      (clusterID, faces, points').
Proof.
  intros Hmin Hlen. unfold normals. rewrite Hlen, Nat.leb_refl.
  destruct (normalsLoop_faces cfg points
              (computeNormals points (Octree_of cfg points) (NORMAL_CALC_POINT_PROXIMITY cfg))
              (seq 0 (length points)) Hmin) with (st := (0%Z, @nil (list nat), points))
    as ([[clusterID faces] points'] & E & Hinv).
  - intros k Hk. apply list_elem_of_In, in_seq in Hk. lia.
  - unfold facesInv. cbn [length]. split; [reflexivity|]. split; [apply sameCoords_refl|].
    split; [|reflexivity].
    intros j face Hj. rewrite lookup_nil in Hj. discriminate.
  - rewrite E. exists clusterID, faces, points'. split; [reflexivity | exact Hinv].
Qed.

(** X26: the faces that [DBScan::normals] returns have no index in common;
    each holds at least [MIN_FACE_POINTS] indices; each point of a face is
    tagged with the position of the face and has a normal that is not
    zero.  The pass moves no point. *)
Theorem normals_faces_disjoint (cfg : Config) (points : list Point) :
  (0 < MIN_FACE_POINTS cfg)%nat ->
  length (computeNormals points (Octree_of cfg points) (NORMAL_CALC_POINT_PROXIMITY cfg))
  = length points ->
  exists faces points',
    normalsOf cfg points = Some (faces, points') /\
    sameCoords points points' /\
    Forall (fun face => (MIN_FACE_POINTS cfg <= length face)%nat) faces /\
    (forall j j' face face' i,
       faces !! j = Some face -> faces !! j' = Some face' ->
       i ∈ face -> i ∈ face' -> j = j') /\
    (forall j face i, faces !! j = Some face -> i ∈ face ->
       tagOf points' i = Z.of_nat j /\
       hasNormal (computeNormals points (Octree_of cfg points)
                    (NORMAL_CALC_POINT_PROXIMITY cfg)) i).
Proof.
  intros Hmin Hlen.
  destruct (normals_run cfg points Hmin Hlen)
    as (clusterID & faces & points' & E & _ & Hsame & Hfaces & _).
  exists faces, points'. split; [exact E|]. split; [exact Hsame|]. split; [|split].
  - apply Forall_forall. intros face Hf. apply list_elem_of_lookup in Hf as [j Hj].
    apply (Hfaces j face Hj).
  - intros j j' face face' i Hj Hj' Hi Hi'.
    destruct (Hfaces j face Hj) as (_ & _ & Hc). destruct (Hfaces j' face' Hj') as (_ & _ & Hc').
    destruct (Hc i Hi) as (_ & Ht & _). destruct (Hc' i Hi') as (_ & Ht' & _). lia.
  - intros j face i Hj Hi. destruct (Hfaces j face Hj) as (_ & _ & Hc).
    destruct (Hc i Hi) as (_ & Ht & Hh). split; assumption.
Qed.

(** X27: a point whose normal is the zero vector is never the centroid of a
    face nor absorbed into one: [DBScan::normals] leaves it in no face and
    with the tag it had, [cUnclassified] included. *)
Theorem normals_skips_zero_normals (cfg : Config) (points : list Point) :
  (0 < MIN_FACE_POINTS cfg)%nat ->
  length (computeNormals points (Octree_of cfg points) (NORMAL_CALC_POINT_PROXIMITY cfg))
  = length points ->
  exists faces points',
    normalsOf cfg points = Some (faces, points') /\
    forall i, (i < length points)%nat ->
      Point_neqb (computeNormals points (Octree_of cfg points)
                    (NORMAL_CALC_POINT_PROXIMITY cfg) !!! i) (Point3 0 0 0) = false ->
      tagOf points' i = tagOf points i /\ inNoCluster faces i.
Proof.
  intros Hmin Hlen.
  destruct (normals_run cfg points Hmin Hlen)
    as (clusterID & faces & points' & E & _ & [Hl _] & Hfaces & Hzero).
  exists faces, points'. split; [exact E|]. intros i Hi Hz.
  assert (Hno : ~ hasNormal (computeNormals points (Octree_of cfg points)
                               (NORMAL_CALC_POINT_PROXIMITY cfg)) i).
  { unfold hasNormal. rewrite Hz. discriminate. }
  split; [apply Hzero; [lia | exact Hno]|].
  intros face Hf Hin. apply list_elem_of_lookup in Hf as [j Hj].
  destruct (Hfaces j face Hj) as (_ & _ & Hc). apply Hno. apply (Hc i Hin).
Qed.

End NormalFaces.

Lemma normals_faces_disjoint_witness :
  exists faces points',
    normals angleLeCos cosNormal cosMean cosMeanSingle meanArith planeNormals
      exampleConfig strip = Some (faces, points') /\
    sameCoords strip points' /\
    Forall (fun face => (MIN_FACE_POINTS exampleConfig <= length face)%nat) faces /\
    (forall j j' face face' i,
       faces !! j = Some face -> faces !! j' = Some face' ->
       i ∈ face -> i ∈ face' -> j = j') /\
    (forall j face i, faces !! j = Some face -> i ∈ face ->
       tagOf points' i = Z.of_nat j /\
       hasNormal (planeNormals strip (Octree_of exampleConfig strip)
                    (NORMAL_CALC_POINT_PROXIMITY exampleConfig)) i).
Proof.
  apply (normals_faces_disjoint angleLeCos cosNormal cosMean cosMeanSingle meanArith
           planeNormals exampleConfig strip).
  - vm_compute. lia.
  - vm_compute. reflexivity.
Defined.

(** Normals for an example: the point of index 1 has the zero vector as
    its normal, every other point the unit vector of the z axis. *)
Definition gapNormals (points : list Point) (map : Octree) (radius : Q) : list Vector :=
  imap (fun i _ => if (i =? 1)%nat then Point3 0 0 0 else unitZ) points.

Lemma normals_skips_zero_normals_witness :
  exists faces points',
    normals angleLeCos cosNormal cosMean cosMeanSingle meanArith gapNormals
      exampleConfig strip = Some (faces, points') /\
    (forall i, (i < length strip)%nat ->
       Point_neqb (gapNormals strip (Octree_of exampleConfig strip)
                     (NORMAL_CALC_POINT_PROXIMITY exampleConfig) !!! i) (Point3 0 0 0) = false ->
       tagOf points' i = tagOf strip i /\ inNoCluster faces i) /\
    Point_neqb (gapNormals strip (Octree_of exampleConfig strip)
                  (NORMAL_CALC_POINT_PROXIMITY exampleConfig) !!! 1%nat) (Point3 0 0 0) = false /\
    tagOf points' 1 = cUnclassified /\ inNoCluster faces 1.
Proof.
  destruct (normals_skips_zero_normals angleLeCos cosNormal cosMean cosMeanSingle meanArith
              gapNormals exampleConfig strip) as (faces & points' & E & H).
  - vm_compute. lia.
  - vm_compute. reflexivity.
  - exists faces, points'. split; [exact E|]. split; [exact H|].
    split; [vm_compute; reflexivity|].
    apply (H 1%nat); [vm_compute; lia | vm_compute; reflexivity].
Defined.
